(** * Shapes of chernov.arseniy/P5 (main.cpp): a shallow embedding

    The program keeps three kinds of planar shapes (Rectangle, Polygon, Bubble)
    behind the abstract class [Shape] and offers two aggregate operations,
    [scaleByPoint] and [getTotalFrameRect].

    Modelling choices.
    - A C++ [double] is read in two ways.
      Module [B64] reads it as the binary64 number of the machine
      ([PrimFloat]): [+ - * /] round to nearest, ties to even, a comparison
      with NaN is false, [std::min] and [std::max] are the comparisons they
      are defined by, and [acos(-1.0)] is the double nearest to pi.  Each
      operation of the source is rounded on its own: no fused multiply-add,
      no intermediate result of wider precision.  Every
      property that depends on the values the arithmetic returns (C1, C3, C4,
      C5, C6, C8, C9, C10) is stated of [B64].
      Outside [B64] a double is an exact real number ([R]): [+ - * /] are the
      field operations, [std::min], [std::max] and [std::abs] are [Rmin],
      [Rmax] and [Rabs].  This reading carries the properties of control
      flow, of the output and of the arrays in memory, and the formula that
      a function evaluates (C2, C7); it is also what an operation of [B64]
      is compared with when it is called exact.  [val] maps a finite double
      to the real number it stands for.
    - An object is a record of its data members; a member function that
      mutates [*this] takes the object and returns the object after the call.
    - [throw std::invalid_argument(msg)] is the value [Throw (invalid_argument
      msg)] of [result]; a function that both mutates and may throw returns
      the store after the call together with the exception, if any.
    - [point_t * verts] with [size_t count] is a list, [count] its length.
    - The array [Shape ** shapes] of [count] pointers to pairwise distinct
      objects is the list of these objects.
    - [std::ostream] is the list of the values inserted into it; [std::cin]
      is the list of the triples that the extractions of [main] find, with the
      state of the stream at the extraction that fails.
    - The special member functions of [Polygon], which are about the array
      behind [verts], are modelled a second time in [Module Heap], on a
      store of arrays and a store of objects, and related to the Polygon on
      values by [Heap.view]. *)

From Stdlib Require Import Floats ZArith QArith Qpower Qreals.
From Stdlib Require Import String Bool.
From Stdlib Require Import Reals Lra Lia List Arith PeanoNat.
Import ListNotations.
Open Scope string_scope.
Open Scope R_scope.

(** Decimal literals such as [0.1] denote the nearest double, as in C++. *)
Set Warnings "-inexact-float".

(** ** Comparisons of doubles, as the conditions of [if] *)

Definition Rleb (a b : R) : bool := if Rle_dec a b then true else false.
Definition Rgtb (a b : R) : bool := if Rgt_dec a b then true else false.
Definition Reqb (a b : R) : bool := if Req_dec_T a b then true else false.

(** ** Exceptions *)

Inductive exception : Type :=
| invalid_argument (what : string).

Inductive result (A : Type) : Type :=
| Ok (a : A)
| Throw (e : exception).

Arguments Ok {A} a.
Arguments Throw {A} e.

(** ** Value types: [point_t], [rectangle_t] *)

Record point_t : Type := mk_point { x : R; y : R }.

Record rectangle_t : Type := mk_rectangle { width : R; height : R; pos : point_t }.

(** The local variables [min_x], [min_y], [max_x], [max_y] of [getFrameRect]
    and [getTotalFrameRect], and the tail both functions share: the frame
    built from them. *)
Record bounds : Type := mk_bounds { min_x : R; min_y : R; max_x : R; max_y : R }.

Definition frame_of_bounds (b : bounds) : rectangle_t :=
  let width := max_x b - min_x b in
  let height := max_y b - min_y b in
  {| width := width; height := height;
     pos := {| x := min_x b + width / 2; y := min_y b + height / 2 |} |}.

(** ** [struct Rectangle] *)

Module Rectangle.

Record t : Type := mk { side_x : R; side_y : R; center : point_t }.

(** [Rectangle::Rectangle(double a, double b, point_t o)] *)
Definition ctor (a b : R) (o : point_t) : result t :=
  if (Rleb a 0 || Rleb b 0)%bool
  then Throw (invalid_argument "the side must be greater than 0")
  else Ok {| side_x := a; side_y := b; center := o |}.

Definition getArea (r : t) : R := side_x r * side_y r.

Definition getFrameRect (r : t) : rectangle_t :=
  {| width := side_x r; height := side_y r; pos := center r |}.

(** [void move(point_t p)] *)
Definition move (r : t) (p : point_t) : t :=
  {| side_x := side_x r; side_y := side_y r; center := p |}.

(** [void move(double dx, double dy)], the second overload of [move] *)
Definition move_by (r : t) (dx dy : R) : t :=
  move r {| x := x (center r) + dx; y := y (center r) + dy |}.

Definition scale (r : t) (k : R) : t :=
  {| side_x := side_x r * k; side_y := side_y r * k; center := center r |}.

End Rectangle.

(** ** [struct Polygon] *)

Module Polygon.

Record t : Type := mk { verts : list point_t; center : point_t }.

Definition count (p : t) : nat := length (verts p).

(** [verts[i]]; every read the code makes on a constructed polygon is in
    range, the default stands for a read outside the buffer. *)
Definition vert (p : t) (i : nat) : point_t := nth i (verts p) (mk_point 0 0).

Definition getSignedArea (p : t) : R :=
  let n := count p in
  let area :=
    fold_left
      (fun area i =>
         let area := area + x (vert p i) * y (vert p ((i + 1) mod n)) in
         area - y (vert p i) * x (vert p ((i + 1) mod n)))
      (seq 0 n) 0 in
  area * 0.5.

Definition getArea (p : t) : R := Rabs (getSignedArea p).

Definition bounds_step (b : bounds) (v : point_t) : bounds :=
  {| min_x := Rmin (min_x b) (x v);
     min_y := Rmin (min_y b) (y v);
     max_x := Rmax (max_x b) (x v);
     max_y := Rmax (max_y b) (y v) |}.

Definition getFrameRect (p : t) : rectangle_t :=
  let v0 := vert p 0 in
  let b0 := {| min_x := x v0; min_y := y v0; max_x := x v0; max_y := y v0 |} in
  frame_of_bounds (fold_left bounds_step (verts p) b0).

(** [void move(double dx, double dy)] *)
Definition move_by (p : t) (dx dy : R) : t :=
  {| verts := map (fun v => {| x := x v + dx; y := y v + dy |}) (verts p);
     center := {| x := x (center p) + dx; y := y (center p) + dy |} |}.

(** [void move(point_t p)] *)
Definition move (p : t) (q : point_t) : t :=
  let dx := x q - x (center p) in
  let dy := y q - y (center p) in
  move_by p dx dy.

Definition scale (p : t) (k : R) : t :=
  {| verts :=
       map (fun v =>
              let dx := k * (x v - x (center p)) in
              let dy := k * (y v - y (center p)) in
              {| x := x (center p) + dx; y := y (center p) + dy |})
           (verts p);
     center := center p |}.

(** The divisor of both coordinates in [getCentroid]. *)
Definition centroid_divisor (p : t) : R := 6 * getSignedArea p.

Definition getCentroid (p : t) : point_t :=
  let n := count p in
  let '(cx, cy) :=
    fold_left
      (fun '(cx, cy) i =>
         let x0 := x (vert p i) in
         let y0 := y (vert p i) in
         let x1 := x (vert p ((i + 1) mod n)) in
         let y1 := y (vert p ((i + 1) mod n)) in
         let cross := x0 * y1 - x1 * y0 in
         (cx + (x0 + x1) * cross, cy + (y0 + y1) * cross))
      (seq 0 n) (0, 0) in
  {| x := cx / centroid_divisor p; y := cy / centroid_divisor p |}.

(** [Polygon::Polygon(point_t * points, size_t size)] *)
Definition ctor (points : list point_t) : result t :=
  if (length points <? 3)%nat
  then Throw (invalid_argument "the count must not be less than 3")
  else
    let this := {| verts := points; center := {| x := 0; y := 0 |} |} in
    Ok {| verts := verts this; center := getCentroid this |}.

End Polygon.

(** ** [struct Bubble] *)

Module Bubble.

Record t : Type := mk { radius : R; center : point_t; anchor : point_t }.

Definition msg_inside : string := "the anchor must be inside the circle".
Definition msg_equal : string := "the anchor must not be equal to the center".
Definition msg_radius : string := "the radius must be greater than 0".

(** [Bubble::Bubble(double r, point_t o, point_t a)] *)
Definition ctor (r : R) (o a : point_t) : result t :=
  if Rgtb ((x o - x a) * (x o - x a) + (y o - y a) * (y o - y a)) (r * r)
  then Throw (invalid_argument msg_inside)
  else if (Reqb (x o) (x a) && Reqb (y o) (y a))%bool
  then Throw (invalid_argument msg_equal)
  else if Rleb r 0
  then Throw (invalid_argument msg_radius)
  else Ok {| radius := r; center := o; anchor := a |}.

Definition getArea (b : t) : R :=
  let PI := acos (-1) in
  let area := PI * radius b * radius b in
  area.

Definition getFrameRect (b : t) : rectangle_t :=
  let size := 2 * radius b in
  {| width := size; height := size; pos := center b |}.

(** [void move(double dx, double dy)] *)
Definition move_by (b : t) (dx dy : R) : t :=
  {| radius := radius b;
     center := {| x := x (center b) + dx; y := y (center b) + dy |};
     anchor := {| x := x (anchor b) + dx; y := y (anchor b) + dy |} |}.

(** [void move(point_t p)] *)
Definition move (b : t) (p : point_t) : t :=
  let dx := x p - x (anchor b) in
  let dy := y p - y (anchor b) in
  move_by b dx dy.

Definition scale (b : t) (k : R) : t :=
  let radius' := radius b * k in
  let dx := x (center b) - x (anchor b) in
  let dy := y (center b) - y (anchor b) in
  {| radius := radius';
     center := {| x := x (anchor b) + k * dx; y := y (anchor b) + k * dy |};
     anchor := anchor b |}.

End Bubble.

(** ** [struct Shape]: the abstract class and its virtual dispatch *)

Inductive Shape : Type :=
| ARectangle (r : Rectangle.t)
| APolygon (p : Polygon.t)
| ABubble (b : Bubble.t).

Definition getArea (s : Shape) : R :=
  match s with
  | ARectangle r => Rectangle.getArea r
  | APolygon p => Polygon.getArea p
  | ABubble b => Bubble.getArea b
  end.

Definition getFrameRect (s : Shape) : rectangle_t :=
  match s with
  | ARectangle r => Rectangle.getFrameRect r
  | APolygon p => Polygon.getFrameRect p
  | ABubble b => Bubble.getFrameRect b
  end.

Definition move (s : Shape) (p : point_t) : Shape :=
  match s with
  | ARectangle r => ARectangle (Rectangle.move r p)
  | APolygon q => APolygon (Polygon.move q p)
  | ABubble b => ABubble (Bubble.move b p)
  end.

Definition move_by (s : Shape) (dx dy : R) : Shape :=
  match s with
  | ARectangle r => ARectangle (Rectangle.move_by r dx dy)
  | APolygon q => APolygon (Polygon.move_by q dx dy)
  | ABubble b => ABubble (Bubble.move_by b dx dy)
  end.

Definition scale (s : Shape) (k : R) : Shape :=
  match s with
  | ARectangle r => ARectangle (Rectangle.scale r k)
  | APolygon q => APolygon (Polygon.scale q k)
  | ABubble b => ABubble (Bubble.scale b k)
  end.

(** ** Aggregate operations *)

(** The body of the loop of [scaleByPoint], for one [shapes[i]]. *)
Definition scaleByPoint_body (k : R) (p : point_t) (shape : Shape) : Shape :=
  let first_pos := pos (getFrameRect shape) in
  let shape := move shape p in
  let second_pos := pos (getFrameRect shape) in
  let dx := k * (x first_pos - x second_pos) in
  let dy := k * (y first_pos - y second_pos) in
  let shape := move_by shape dx dy in
  scale shape k.

(** [scaleByPoint(shapes, count, k, p)]: the shapes after the call and the
    exception that left it, if one did. *)
Definition scaleByPoint (shapes : list Shape) (k : R) (p : point_t)
  : list Shape * option exception :=
  if Rleb k 0
  then (shapes, Some (invalid_argument "k must be positive"))
  else (map (scaleByPoint_body k p) shapes, None).

Definition total_step (b : bounds) (frame : rectangle_t) : bounds :=
  {| min_x := Rmin (min_x b) (x (pos frame) - width frame / 2);
     min_y := Rmin (min_y b) (y (pos frame) - height frame / 2);
     max_x := Rmax (max_x b) (x (pos frame) + width frame / 2);
     max_y := Rmax (max_y b) (y (pos frame) + height frame / 2) |}.

(** [getTotalFrameRect(shapes, count)].  [shapes[0]] is read before any test
    of [count]: on an empty array the call has no defined result ([None]). *)
Definition getTotalFrameRect (shapes : list Shape) : option rectangle_t :=
  match shapes with
  | [] => None
  | shape0 :: rest =>
      let frame := getFrameRect shape0 in
      let min_x := x (pos frame) - width frame / 2 in
      let min_y := y (pos frame) - height frame / 2 in
      let max_x := min_x + width frame in
      let max_y := min_y + height frame in
      let b0 := {| min_x := min_x; min_y := min_y;
                   max_x := max_x; max_y := max_y |} in
      Some (frame_of_bounds
              (fold_left total_step (map getFrameRect rest) b0))
  end.

(** ** The shapes of [main] *)

Definition rectangle1 : Rectangle.t := Rectangle.mk 5 6 (mk_point 1 2).
Definition rectangle2 : Rectangle.t := Rectangle.mk 10 2 (mk_point (-10) 3).

Definition points1 : list point_t :=
  [mk_point 0 0; mk_point 1 0; mk_point 1 1; mk_point 0 1].

Definition polygon1 : Polygon.t :=
  Polygon.mk points1 (Polygon.getCentroid (Polygon.mk points1 (mk_point 0 0))).

Definition points2 : list point_t :=
  [mk_point 0 0; mk_point 4 1; mk_point 5 4; mk_point 5 8;
   mk_point 4 10; mk_point 3 8; mk_point 2 5; mk_point (-1) 1].

Definition polygon2 : Polygon.t :=
  Polygon.mk points2 (Polygon.getCentroid (Polygon.mk points2 (mk_point 0 0))).

Definition bubble : Bubble.t := Bubble.mk 10 (mk_point 0 0) (mk_point 2 2).

(** The array [shapes] of [main], once all five constructors have returned. *)
Definition main_shapes : list Shape :=
  [ARectangle rectangle1; ARectangle rectangle2;
   APolygon polygon1; APolygon polygon2; ABubble bubble].

(** Three vertices on the line [y = x]: a degenerate polygon. *)
Definition collinear3 : list point_t :=
  [mk_point 0 0; mk_point 1 1; mk_point 2 2].

(** ** Output: [printShapeInfo], [printShapesInfo]

    A [std::ostream] is the list of the values inserted into it with [<<],
    oldest first: a string literal or name as it is written in the source
    (escapes such as [\n] are kept as written), a double as its value (how the
    stream formats it is outside the model). *)

Open Scope list_scope.

Inductive item : Type :=
| Text (s : string)
| Num (d : R).

Definition ostream : Type := list item.

Definition printShapeInfo (out : ostream) (shape : Shape) (name : string) : ostream :=
  let out := out ++ [Text name; Text ":\n"] in
  let out := out ++ [Text "  area: "; Num (getArea shape); Text "\n"] in
  let frame := getFrameRect shape in
  let out := out ++ [Text "  frame rectangle:\n"] in
  let out := out ++ [Text "    width: "; Num (width frame); Text "\n"] in
  let out := out ++ [Text "    height: "; Num (height frame); Text "\n"] in
  out ++ [Text "    position: ("; Num (x (pos frame)); Text "; ";
          Num (y (pos frame)); Text ")\n"].

(** The loop of [printShapesInfo]: the stream and [total_area] after it.
    [names[i]] is read for every [i < count]; where the array of names is
    shorter than the array of shapes the read is outside it and the call has
    no defined result ([None]). *)
Fixpoint printShapesInfo_loop (out : ostream) (total_area : R)
         (shapes : list Shape) (names : list string) : option (ostream * R) :=
  match shapes with
  | [] => Some (out, total_area)
  | shape :: shapes' =>
      match names with
      | [] => None
      | name :: names' =>
          let out := printShapeInfo out shape name ++ [Text "\n"] in
          let total_area := total_area + getArea shape in
          printShapesInfo_loop out total_area shapes' names'
      end
  end.

Definition printShapesInfo (out : ostream) (shapes : list Shape) (names : list string)
  : option ostream :=
  let total_area := 0 in
  match printShapesInfo_loop out total_area shapes names with
  | None => None
  | Some (out, total_area) =>
      let out := out ++ [Text "Total area: "; Num total_area; Text "\n"] in
      match getTotalFrameRect shapes with
      | None => None
      | Some frame =>
          let out := out ++ [Text "Total frame rectangle:\n"] in
          let out := out ++ [Text "  width: "; Num (width frame); Text "\n"] in
          let out := out ++ [Text "  height: "; Num (height frame); Text "\n"] in
          Some (out ++ [Text "  position: ("; Num (x (pos frame)); Text "; ";
                        Num (y (pos frame)); Text ")\n"])
      end
  end.

(** ** The driver: [main]

    [std::cin] is what the extractions [std::cin >> x >> y >> k] find: the
    triples read while the extraction succeeds, then, at the extraction that
    fails, whether the stream is at end of file and the value that [k] holds
    afterwards.  How text is parsed into doubles is outside the model. *)

Record triple : Type := mk_triple { tx : R; ty : R; tk : R }.

Record istream : Type :=
  mk_istream { reads : list triple; at_eof : bool; k_after : R }.

(** How [main] ends: [return result], an exception nobody catches, or a
    call without defined result. *)
Inductive ending : Type :=
| Return (result : Z)
| Uncaught (e : exception)
| Undefined.

Record main_state : Type :=
  mk_main_state { cout : ostream; cerr : ostream; shapes_now : list Shape }.

Definition names : list string :=
  ["Rectangle 1"; "Rectangle 2"; "Polygon 1"; "Polygon 2"; "Bubble"].

(** The five [new] expressions of [main], in order; the first constructor
    that throws ends the sequence. *)
Definition construct_shapes : result (list Shape) :=
  match Rectangle.ctor 5 6 (mk_point 1 2) with
  | Throw e => Throw e
  | Ok r1 =>
  match Rectangle.ctor 10 2 (mk_point (-10) 3) with
  | Throw e => Throw e
  | Ok r2 =>
  match Polygon.ctor points1 with
  | Throw e => Throw e
  | Ok p1 =>
  match Polygon.ctor points2 with
  | Throw e => Throw e
  | Ok p2 =>
  match Bubble.ctor 10 (mk_point 0 0) (mk_point 2 2) with
  | Throw e => Throw e
  | Ok b => Ok [ARectangle r1; ARectangle r2; APolygon p1; APolygon p2; ABubble b]
  end end end end end.

(** The [while] loop of [main] and the test that follows it. *)
Fixpoint main_loop (rs : list triple) (eof : bool) (k_end : R) (st : main_state)
  : main_state * ending :=
  match rs with
  | [] =>
      if (negb eof || Reqb k_end 0)%bool
      then ({| cout := cout st; cerr := cerr st ++ [Text "bad input\n"];
               shapes_now := shapes_now st |}, Return 1%Z)
      else (st, Return 0%Z)
  | t :: rs' =>
      if Rleb (tk t) 0
      then ({| cout := cout st;
               cerr := cerr st ++ [Text "k cannot be less than or equal to zero\n"];
               shapes_now := shapes_now st |}, Return 1%Z)
      else
        match scaleByPoint (shapes_now st) (tk t) {| x := tx t; y := ty t |} with
        | (shapes, Some e) =>
            ({| cout := cout st; cerr := cerr st; shapes_now := shapes |}, Uncaught e)
        | (shapes, None) =>
            let out := cout st ++ [Text "\n\n"] in
            match printShapesInfo out shapes names with
            | None => ({| cout := out; cerr := cerr st; shapes_now := shapes |}, Undefined)
            | Some out =>
                main_loop rs' eof k_end
                          {| cout := out ++ [Text "\n\nEnter x, y and k: "];
                             cerr := cerr st; shapes_now := shapes |}
            end
        end
  end.

Definition main (input : istream) : main_state * ending :=
  match construct_shapes with
  | Throw e => ({| cout := []; cerr := []; shapes_now := [] |}, Uncaught e)
  | Ok shapes =>
      match printShapesInfo [] shapes names with
      | None => ({| cout := []; cerr := []; shapes_now := shapes |}, Undefined)
      | Some out =>
          main_loop (reads input) (at_eof input) (k_after input)
                    {| cout := out ++ [Text "\n\nEnter x, y and k: "];
                       cerr := []; shapes_now := shapes |}
      end
  end.

(** The triples before the first one whose [k] is not positive: the ones
    [main] acts on. *)
Fixpoint accepted (rs : list triple) : list triple :=
  match rs with
  | [] => []
  | t :: rs' => if Rleb (tk t) 0 then [] else t :: accepted rs'
  end.

(** ** The vertex buffer of a Polygon in memory

    The special member functions of [Polygon] (constructor, destructor, copy
    and move) are about who owns the array behind [verts].  For them a
    Polygon is modelled as the object it is: a pointer, a count and a center,
    in a store of objects, beside a store of arrays.

    - An array lives at an address; [new point_t[n]] returns an address never
      used before, with [n] elements that hold no value yet; [delete []]
      ends the life of the array.  [nullptr] is [None].
    - Reading an element that holds no value, reading or writing outside an
      array or in an array whose life has ended, and [delete []] of such an
      array have no defined result; [delete []] of [nullptr] does nothing.
    - An object is known by its place in the store of objects; [this == &p]
      compares places. *)

Module Heap.

Abbreviation addr := nat (only parsing).

(** An array of [point_t]: each element holds a value or none yet. *)
Abbreviation cell := (list (option point_t)) (only parsing).

Record object : Type :=
  mk_object { verts : option addr; count : nat; center : point_t }.

(** [buffers]: the arrays by address, [None] once deleted.  [objects]: the
    Polygon objects by place. *)
Record state : Type :=
  mk_state { buffers : list (option cell); objects : list object }.

Inductive outcome (A : Type) : Type :=
| Normal (a : A)
| Thrown (e : exception).

Arguments Normal {A} a.
Arguments Thrown {A} e.

(** A computation on the stores: no defined result ([None]), or an outcome
    and the stores after it. *)
Definition M (A : Type) : Type := state -> option (outcome A * state).

Definition ret {A : Type} (a : A) : M A := fun st => Some (Normal a, st).

Definition throw {A : Type} (e : exception) : M A := fun st => Some (Thrown e, st).

Definition undefined {A : Type} : M A := fun _ => None.

Definition bind {A B : Type} (c : M A) (k : A -> M B) : M B :=
  fun st =>
    match c st with
    | None => None
    | Some (Thrown e, st') => Some (Thrown e, st')
    | Some (Normal a, st') => k a st'
    end.

Notation "x <- c ;; k" := (bind c (fun x => k))
  (at level 61, c at next level, right associativity).
Notation "c ;;; k" := (bind c (fun _ => k))
  (at level 61, right associativity).

(** [l] with the element of index [i] replaced by [v]. *)
Fixpoint update {A : Type} (l : list A) (i : nat) (v : A) : list A :=
  match l, i with
  | [], _ => []
  | _ :: l', O => v :: l'
  | a :: l', S i' => a :: update l' i' v
  end.

(** [new point_t[n]] *)
Definition new_array (n : nat) : M addr :=
  fun st =>
    Some (Normal (length (buffers st)),
          {| buffers := buffers st ++ [Some (repeat None n)];
             objects := objects st |}).

(** [delete [] p] *)
Definition delete_array (p : option addr) : M unit :=
  fun st =>
    match p with
    | None => Some (Normal tt, st)
    | Some a =>
        match nth_error (buffers st) a with
        | Some (Some _) =>
            Some (Normal tt,
                  {| buffers := update (buffers st) a None; objects := objects st |})
        | _ => None
        end
    end.

(** [p[i]] as a value *)
Definition load (p : option addr) (i : nat) : M point_t :=
  fun st =>
    match p with
    | None => None
    | Some a =>
        match nth_error (buffers st) a with
        | Some (Some c) =>
            match nth_error c i with
            | Some (Some v) => Some (Normal v, st)
            | _ => None
            end
        | _ => None
        end
    end.

(** [p[i] = v] *)
Definition store (p : option addr) (i : nat) (v : point_t) : M unit :=
  fun st =>
    match p with
    | None => None
    | Some a =>
        match nth_error (buffers st) a with
        | Some (Some c) =>
            if (i <? length c)%nat
            then Some (Normal tt,
                       {| buffers := update (buffers st) a (Some (update c i (Some v)));
                          objects := objects st |})
            else None
        | _ => None
        end
    end.

(** The members of the object at place [id]; writing them; a new object. *)
Definition get_object (id : nat) : M object :=
  fun st =>
    match nth_error (objects st) id with
    | Some o => Some (Normal o, st)
    | None => None
    end.

Definition set_object (id : nat) (o : object) : M unit :=
  fun st =>
    match nth_error (objects st) id with
    | Some _ =>
        Some (Normal tt, {| buffers := buffers st; objects := update (objects st) id o |})
    | None => None
    end.

Definition new_object (o : object) : M nat :=
  fun st =>
    Some (Normal (length (objects st)),
          {| buffers := buffers st; objects := objects st ++ [o] |}).

(** [for (size_t i = 0; i < n; ++i) body(i)], given the indices. *)
Fixpoint for_each (indices : list nat) (body : nat -> M unit) : M unit :=
  match indices with
  | [] => ret tt
  | i :: indices' => body i ;;; for_each indices' body
  end.

(** The [n] values of the array at [p], as the const member functions read
    them. *)
Fixpoint read_all (p : option addr) (indices : list nat) : M (list point_t) :=
  match indices with
  | [] => ret []
  | i :: indices' => v <- load p i ;; vs <- read_all p indices' ;; ret (v :: vs)
  end.

(** [Polygon::Polygon(point_t * points, size_t size)].  The array is
    allocated by the member initializer, before the test of [count]. *)
Definition ctor (points : list point_t) : M nat :=
  let size := length points in
  a <- new_array size ;;
  let count := size in
  if (count <? 3)%nat
  then throw (invalid_argument "the count must not be less than 3")
  else
    for_each (seq 0 count)
             (fun i => store (Some a) i (nth i points (mk_point 0 0))) ;;;
    vs <- read_all (Some a) (seq 0 count) ;;
    let center := Polygon.getCentroid (Polygon.mk vs (mk_point 0 0)) in
    new_object {| verts := Some a; count := count; center := center |}.

(** [Polygon::~Polygon()] *)
Definition dtor (this : nat) : M unit :=
  t <- get_object this ;;
  delete_array (verts t).

(** [Polygon::Polygon(const Polygon & p)] *)
Definition copy_ctor (p : nat) : M nat :=
  src <- get_object p ;;
  a <- new_array (count src) ;;
  for_each (seq 0 (count src))
           (fun i => v <- load (verts src) i ;; store (Some a) i v) ;;;
  new_object {| verts := Some a; count := count src; center := center src |}.

(** [Polygon & Polygon::operator=(const Polygon & p)] *)
Definition copy_assign (this p : nat) : M unit :=
  if (this =? p)%nat then ret tt
  else
    src <- get_object p ;;
    points <- new_array (count src) ;;
    for_each (seq 0 (count src))
             (fun i => v <- load (verts src) i ;; store (Some points) i v) ;;;
    t <- get_object this ;;
    delete_array (verts t) ;;;
    set_object this {| verts := Some points; count := count src; center := center src |}.

(** [Polygon::Polygon(Polygon && p)] *)
Definition move_ctor (p : nat) : M nat :=
  src <- get_object p ;;
  this <- new_object {| verts := verts src; count := count src; center := center src |} ;;
  set_object p {| verts := None; count := count src; center := center src |} ;;;
  ret this.

(** [Polygon & Polygon::operator=(Polygon && p)] *)
Definition move_assign (this p : nat) : M unit :=
  if (this =? p)%nat then ret tt
  else
    t <- get_object this ;;
    delete_array (verts t) ;;;
    src <- get_object p ;;
    set_object this {| verts := verts src; count := count src; center := center src |} ;;;
    set_object p {| verts := None; count := count src; center := center src |}.

(** [void Polygon::move(double dx, double dy)], on the array in place. *)
Definition move_by (this : nat) (dx dy : R) : M unit :=
  t <- get_object this ;;
  for_each (seq 0 (count t))
           (fun i =>
              v <- load (verts t) i ;;
              store (verts t) i {| x := x v + dx; y := y v + dy |}) ;;;
  set_object this
             {| verts := verts t; count := count t;
                center := {| x := x (center t) + dx; y := y (center t) + dy |} |}.

(** The Polygon that the object at place [id] stands for: its array, read
    in full, and its center.  [None] when the object has no array of [count]
    values to read. *)
Definition values (c : cell) : option (list point_t) :=
  fold_right (fun e acc =>
                match e, acc with
                | Some v, Some vs => Some (v :: vs)
                | _, _ => None
                end) (Some []) c.

Definition view (st : state) (id : nat) : option Polygon.t :=
  match nth_error (objects st) id with
  | Some o =>
      match verts o with
      | Some a =>
          match nth_error (buffers st) a with
          | Some (Some c) =>
              match values c with
              | Some vs =>
                  if (length vs =? count o)%nat
                  then Some (Polygon.mk vs (center o))
                  else None
              | None => None
              end
          | _ => None
          end
      | None => None
      end
  | None => None
  end.

(** The addresses of the arrays that are alive. *)
Definition live (st : state) : list addr :=
  filter (fun a => match nth_error (buffers st) a with
                   | Some (Some _) => true
                   | _ => false
                   end)
         (seq 0 (length (buffers st))).

(** The arrays that some object points to. *)
Definition owned (st : state) : list addr :=
  flat_map (fun o => match verts o with Some a => [a] | None => [] end) (objects st).

End Heap.

(** ** The program on binary64 doubles

    The same functions once more, with [double] read as the IEEE 754 binary64
    numbers of Rocq's primitive [float]: every [+ - * /] rounds to nearest,
    ties to even, a comparison with NaN is false, and overflow gives an
    infinity.  The definitions follow the source line by line, as the ones
    above do. *)

Module B64.

Local Open Scope float_scope.

Record point_t : Type := mk_point { x : float; y : float }.

Record rectangle_t : Type := mk_rectangle { width : float; height : float; pos : point_t }.

Record bounds : Type :=
  mk_bounds { min_x : float; min_y : float; max_x : float; max_y : float }.

(** [a > b] *)
Definition gtb (a b : float) : bool := b <? a.

(** [std::min(a, b)] is [b] when [b < a] and [a] otherwise; [std::max(a, b)]
    is [b] when [a < b] and [a] otherwise. *)
Definition min (a b : float) : float := if b <? a then b else a.
Definition max (a b : float) : float := if a <? b then b else a.

Definition frame_of_bounds (b : bounds) : rectangle_t :=
  let width := max_x b - min_x b in
  let height := max_y b - min_y b in
  {| width := width; height := height;
     pos := {| x := min_x b + width / 2; y := min_y b + height / 2 |} |}.

(** *** [struct Rectangle] *)

Module Rectangle.

Record t : Type := mk { side_x : float; side_y : float; center : point_t }.

(** [Rectangle::Rectangle(double a, double b, point_t o)] *)
Definition ctor (a b : float) (o : point_t) : result t :=
  if ((a <=? 0) || (b <=? 0))%bool
  then Throw (invalid_argument "the side must be greater than 0")
  else Ok {| side_x := a; side_y := b; center := o |}.

Definition getArea (r : t) : float := side_x r * side_y r.

Definition getFrameRect (r : t) : rectangle_t :=
  {| width := side_x r; height := side_y r; pos := center r |}.

(** [void move(point_t p)] *)
Definition move (r : t) (p : point_t) : t :=
  {| side_x := side_x r; side_y := side_y r; center := p |}.

(** [void move(double dx, double dy)] *)
Definition move_by (r : t) (dx dy : float) : t :=
  move r {| x := x (center r) + dx; y := y (center r) + dy |}.

Definition scale (r : t) (k : float) : t :=
  {| side_x := side_x r * k; side_y := side_y r * k; center := center r |}.

End Rectangle.

(** *** [struct Polygon] *)

Module Polygon.

Record t : Type := mk { verts : list point_t; center : point_t }.

Definition count (p : t) : nat := length (verts p).

Definition vert (p : t) (i : nat) : point_t := nth i (verts p) (mk_point 0 0).

Definition getSignedArea (p : t) : float :=
  let n := count p in
  let area :=
    fold_left
      (fun area i =>
         let area := area + x (vert p i) * y (vert p ((i + 1) mod n)) in
         area - y (vert p i) * x (vert p ((i + 1) mod n)))
      (seq 0 n) 0 in
  area * 0.5.

Definition getArea (p : t) : float := abs (getSignedArea p).

Definition bounds_step (b : bounds) (v : point_t) : bounds :=
  {| min_x := min (min_x b) (x v);
     min_y := min (min_y b) (y v);
     max_x := max (max_x b) (x v);
     max_y := max (max_y b) (y v) |}.

Definition getFrameRect (p : t) : rectangle_t :=
  let v0 := vert p 0 in
  let b0 := {| min_x := x v0; min_y := y v0; max_x := x v0; max_y := y v0 |} in
  frame_of_bounds (fold_left bounds_step (verts p) b0).

(** [void move(double dx, double dy)] *)
Definition move_by (p : t) (dx dy : float) : t :=
  {| verts := map (fun v => {| x := x v + dx; y := y v + dy |}) (verts p);
     center := {| x := x (center p) + dx; y := y (center p) + dy |} |}.

(** [void move(point_t p)] *)
Definition move (p : t) (q : point_t) : t :=
  let dx := x q - x (center p) in
  let dy := y q - y (center p) in
  move_by p dx dy.

Definition scale (p : t) (k : float) : t :=
  {| verts :=
       map (fun v =>
              let dx := k * (x v - x (center p)) in
              let dy := k * (y v - y (center p)) in
              {| x := x (center p) + dx; y := y (center p) + dy |})
           (verts p);
     center := center p |}.

(** The divisor of both coordinates in [getCentroid]. *)
Definition centroid_divisor (p : t) : float := 6 * getSignedArea p.

Definition getCentroid (p : t) : point_t :=
  let n := count p in
  let '(cx, cy) :=
    fold_left
      (fun '(cx, cy) i =>
         let x0 := x (vert p i) in
         let y0 := y (vert p i) in
         let x1 := x (vert p ((i + 1) mod n)) in
         let y1 := y (vert p ((i + 1) mod n)) in
         let cross := x0 * y1 - x1 * y0 in
         (cx + (x0 + x1) * cross, cy + (y0 + y1) * cross))
      (seq 0 n) (0, 0) in
  {| x := cx / centroid_divisor p; y := cy / centroid_divisor p |}.

(** [Polygon::Polygon(point_t * points, size_t size)] *)
Definition ctor (points : list point_t) : result t :=
  if (length points <? 3)%nat
  then Throw (invalid_argument "the count must not be less than 3")
  else
    let this := {| verts := points; center := {| x := 0; y := 0 |} |} in
    Ok {| verts := verts this; center := getCentroid this |}.

End Polygon.

(** *** [struct Bubble] *)

Module Bubble.

Record t : Type := mk { radius : float; center : point_t; anchor : point_t }.

(** What [acos(-1.0)] returns: the double nearest to pi. *)
Definition PI : float := 0x1.921fb54442d18p+1.

(** [Bubble::Bubble(double r, point_t o, point_t a)] *)
Definition ctor (r : float) (o a : point_t) : result t :=
  if gtb ((x o - x a) * (x o - x a) + (y o - y a) * (y o - y a)) (r * r)
  then Throw (invalid_argument Bubble.msg_inside)
  else if ((x o =? x a) && (y o =? y a))%bool
  then Throw (invalid_argument Bubble.msg_equal)
  else if r <=? 0
  then Throw (invalid_argument Bubble.msg_radius)
  else Ok {| radius := r; center := o; anchor := a |}.

Definition getArea (b : t) : float :=
  let area := PI * radius b * radius b in
  area.

Definition getFrameRect (b : t) : rectangle_t :=
  let size := 2 * radius b in
  {| width := size; height := size; pos := center b |}.

(** [void move(double dx, double dy)] *)
Definition move_by (b : t) (dx dy : float) : t :=
  {| radius := radius b;
     center := {| x := x (center b) + dx; y := y (center b) + dy |};
     anchor := {| x := x (anchor b) + dx; y := y (anchor b) + dy |} |}.

(** [void move(point_t p)] *)
Definition move (b : t) (p : point_t) : t :=
  let dx := x p - x (anchor b) in
  let dy := y p - y (anchor b) in
  move_by b dx dy.

Definition scale (b : t) (k : float) : t :=
  let radius' := radius b * k in
  let dx := x (center b) - x (anchor b) in
  let dy := y (center b) - y (anchor b) in
  {| radius := radius';
     center := {| x := x (anchor b) + k * dx; y := y (anchor b) + k * dy |};
     anchor := anchor b |}.

End Bubble.

(** *** [struct Shape] and the aggregate operations *)

Inductive Shape : Type :=
| ARectangle (r : Rectangle.t)
| APolygon (p : Polygon.t)
| ABubble (b : Bubble.t).

Definition getArea (s : Shape) : float :=
  match s with
  | ARectangle r => Rectangle.getArea r
  | APolygon p => Polygon.getArea p
  | ABubble b => Bubble.getArea b
  end.

Definition getFrameRect (s : Shape) : rectangle_t :=
  match s with
  | ARectangle r => Rectangle.getFrameRect r
  | APolygon p => Polygon.getFrameRect p
  | ABubble b => Bubble.getFrameRect b
  end.

Definition move (s : Shape) (p : point_t) : Shape :=
  match s with
  | ARectangle r => ARectangle (Rectangle.move r p)
  | APolygon q => APolygon (Polygon.move q p)
  | ABubble b => ABubble (Bubble.move b p)
  end.

Definition move_by (s : Shape) (dx dy : float) : Shape :=
  match s with
  | ARectangle r => ARectangle (Rectangle.move_by r dx dy)
  | APolygon q => APolygon (Polygon.move_by q dx dy)
  | ABubble b => ABubble (Bubble.move_by b dx dy)
  end.

Definition scale (s : Shape) (k : float) : Shape :=
  match s with
  | ARectangle r => ARectangle (Rectangle.scale r k)
  | APolygon q => APolygon (Polygon.scale q k)
  | ABubble b => ABubble (Bubble.scale b k)
  end.

(** The body of the loop of [scaleByPoint], for one [shapes[i]]. *)
Definition scaleByPoint_body (k : float) (p : point_t) (shape : Shape) : Shape :=
  let first_pos := pos (getFrameRect shape) in
  let shape := move shape p in
  let second_pos := pos (getFrameRect shape) in
  let dx := k * (x first_pos - x second_pos) in
  let dy := k * (y first_pos - y second_pos) in
  let shape := move_by shape dx dy in
  scale shape k.

Definition scaleByPoint (shapes : list Shape) (k : float) (p : point_t)
  : list Shape * option exception :=
  if k <=? 0
  then (shapes, Some (invalid_argument "k must be positive"))
  else (map (scaleByPoint_body k p) shapes, None).

Definition total_step (b : bounds) (frame : rectangle_t) : bounds :=
  {| min_x := min (min_x b) (x (pos frame) - width frame / 2);
     min_y := min (min_y b) (y (pos frame) - height frame / 2);
     max_x := max (max_x b) (x (pos frame) + width frame / 2);
     max_y := max (max_y b) (y (pos frame) + height frame / 2) |}.

(** [shapes[0]] is read before any test of [count]: on an empty array the
    call has no defined result ([None]). *)
Definition getTotalFrameRect (shapes : list Shape) : option rectangle_t :=
  match shapes with
  | [] => None
  | shape0 :: rest =>
      let frame := getFrameRect shape0 in
      let min_x := x (pos frame) - width frame / 2 in
      let min_y := y (pos frame) - height frame / 2 in
      let max_x := min_x + width frame in
      let max_y := min_y + height frame in
      let b0 := {| min_x := min_x; min_y := min_y;
                   max_x := max_x; max_y := max_y |} in
      Some (frame_of_bounds
              (fold_left total_step (map getFrameRect rest) b0))
  end.

(** *** The shapes of [main] *)

Definition rectangle1 : Rectangle.t := Rectangle.mk 5 6 (mk_point 1 2).
Definition rectangle2 : Rectangle.t := Rectangle.mk 10 2 (mk_point (-10) 3).

Definition points1 : list point_t :=
  [mk_point 0 0; mk_point 1 0; mk_point 1 1; mk_point 0 1].

Definition polygon1 : Polygon.t :=
  Polygon.mk points1 (Polygon.getCentroid (Polygon.mk points1 (mk_point 0 0))).

Definition points2 : list point_t :=
  [mk_point 0 0; mk_point 4 1; mk_point 5 4; mk_point 5 8;
   mk_point 4 10; mk_point 3 8; mk_point 2 5; mk_point (-1) 1].

Definition polygon2 : Polygon.t :=
  Polygon.mk points2 (Polygon.getCentroid (Polygon.mk points2 (mk_point 0 0))).

Definition bubble : Bubble.t := Bubble.mk 10 (mk_point 0 0) (mk_point 2 2).

Definition main_shapes : list Shape :=
  [ARectangle rectangle1; ARectangle rectangle2;
   APolygon polygon1; APolygon polygon2; ABubble bubble].

(** Three vertices on the line [y = x]: a degenerate polygon. *)
Definition collinear3 : list point_t :=
  [mk_point 0 0; mk_point 1 1; mk_point 2 2].

(** The unit square whose lower left corner is [(1e10, 1e10)]. *)
Definition far_square : list point_t :=
  [mk_point 1e10 1e10; mk_point 10000000001 1e10;
   mk_point 10000000001 10000000001; mk_point 1e10 10000000001].

(** *** Vocabulary of the specification, on doubles *)

(** The reference point of a shape. *)
Definition pivot (s : Shape) : point_t :=
  match s with
  | ARectangle r => Rectangle.center r
  | APolygon p => Polygon.center p
  | ABubble b => Bubble.anchor b
  end.

(** A shape as one of the three constructors returns it. *)
Inductive constructed : Shape -> Prop :=
| constructed_rectangle a b o r :
    Rectangle.ctor a b o = Ok r -> constructed (ARectangle r)
| constructed_polygon points p :
    Polygon.ctor points = Ok p -> constructed (APolygon p)
| constructed_bubble r o a b :
    Bubble.ctor r o a = Ok b -> constructed (ABubble b).

(** A shape after any sequence of [move(p)], [move(dx, dy)] and [scale(k)]
    whose factors [k] all satisfy [allowed]. *)
Inductive reachable (allowed : float -> Prop) : Shape -> Prop :=
| reach_new s : constructed s -> reachable allowed s
| reach_move s p : reachable allowed s -> reachable allowed (move s p)
| reach_move_by s dx dy : reachable allowed s -> reachable allowed (move_by s dx dy)
| reach_scale s k : allowed k -> reachable allowed s -> reachable allowed (scale s k).

Definition any_factor (k : float) : Prop := True.
Definition positive_factor (k : float) : Prop := (0 <? k) = true.

(** The squared distance as the Bubble constructor computes it, and its test
    [o.x == a.x && o.y == a.y]. *)
Definition dist2 (o a : point_t) : float :=
  (x o - x a) * (x o - x a) + (y o - y a) * (y o - y a).

Definition same_point (o a : point_t) : bool := ((x o =? x a) && (y o =? y a))%bool.

(** What every operation keeps, whatever the factor: a Polygon has the three
    vertices its constructor asks for. *)
Definition well_formed (s : Shape) : Prop :=
  match s with
  | APolygon p => (3 <= Polygon.count p)%nat
  | _ => True
  end.

(** The running minimum and maximum of a loop over [l] that starts at [a]. *)
Definition lo (l : list float) (a : float) : float := fold_left min l a.
Definition hi (l : list float) (a : float) : float := fold_left max l a.

End B64.

(** ** Vocabulary of the specification *)

(** The reference point of a shape: the center of a Rectangle or a Polygon,
    the anchor of a Bubble. *)
Definition pivot (s : Shape) : point_t :=
  match s with
  | ARectangle r => Rectangle.center r
  | APolygon p => Polygon.center p
  | ABubble b => Bubble.anchor b
  end.

(** A shape as one of the three constructors returns it. *)
Inductive constructed : Shape -> Prop :=
| constructed_rectangle a b o r :
    Rectangle.ctor a b o = Ok r -> constructed (ARectangle r)
| constructed_polygon points p :
    Polygon.ctor points = Ok p -> constructed (APolygon p)
| constructed_bubble r o a b :
    Bubble.ctor r o a = Ok b -> constructed (ABubble b).

(** A shape after any sequence of [move(p)], [move(dx, dy)] and [scale(k)]
    whose factors [k] all satisfy [allowed]. *)
Inductive reachable (allowed : R -> Prop) : Shape -> Prop :=
| reach_new s : constructed s -> reachable allowed s
| reach_move s p : reachable allowed s -> reachable allowed (move s p)
| reach_move_by s dx dy : reachable allowed s -> reachable allowed (move_by s dx dy)
| reach_scale s k : allowed k -> reachable allowed s -> reachable allowed (scale s k).

Definition any_factor (k : R) : Prop := True.
Definition positive_factor (k : R) : Prop := 0 < k.

(** The image of [q] under the scaling by [k] about [p]. *)
Definition scaled_about (p : point_t) (k : R) (q : point_t) : point_t :=
  {| x := x p + k * (x q - x p); y := y p + k * (y q - y p) |}.

(** The shape [s] scaled by [k] about [p]: every defining point goes through
    [scaled_about p k], every length is multiplied by [k]. *)
Definition scaled_shape (p : point_t) (k : R) (s : Shape) : Shape :=
  match s with
  | ARectangle r =>
      ARectangle {| Rectangle.side_x := k * Rectangle.side_x r;
                    Rectangle.side_y := k * Rectangle.side_y r;
                    Rectangle.center := scaled_about p k (Rectangle.center r) |}
  | APolygon q =>
      APolygon {| Polygon.verts := map (scaled_about p k) (Polygon.verts q);
                  Polygon.center := scaled_about p k (Polygon.center q) |}
  | ABubble b =>
      ABubble {| Bubble.radius := k * Bubble.radius b;
                 Bubble.center := scaled_about p k (Bubble.center b);
                 Bubble.anchor := scaled_about p k (Bubble.anchor b) |}
  end.

(** The four edges of a frame, whose position is its center. *)
Definition left_edge (f : rectangle_t) : R := x (pos f) - width f / 2.
Definition right_edge (f : rectangle_t) : R := x (pos f) + width f / 2.
Definition bottom_edge (f : rectangle_t) : R := y (pos f) - height f / 2.
Definition top_edge (f : rectangle_t) : R := y (pos f) + height f / 2.

(** The box [outer] encloses the box [inner]. *)
Definition encloses (outer inner : rectangle_t) : Prop :=
  left_edge outer <= left_edge inner /\ right_edge inner <= right_edge outer /\
  bottom_edge outer <= bottom_edge inner /\ top_edge inner <= top_edge outer.

(** Squared distance of two points. *)
Definition dist2 (o a : point_t) : R :=
  (x o - x a) * (x o - x a) + (y o - y a) * (y o - y a).

(** What the Bubble constructor checks, as a property of a Bubble. *)
Definition bubble_valid (b : Bubble.t) : Prop :=
  dist2 (Bubble.center b) (Bubble.anchor b) <= Bubble.radius b * Bubble.radius b /\
  Bubble.center b <> Bubble.anchor b /\
  0 < Bubble.radius b.

(** The shoelace formula as the specification writes it:
    [0.5 * sum (x_i * y_(i+1) - y_i * x_(i+1))], indices modulo the count. *)
Fixpoint sum_upto (f : nat -> R) (n : nat) : R :=
  match n with
  | O => 0
  | S m => sum_upto f m + f m
  end.


(** ** Auxiliary notions of the proofs *)

(** The term of index [i] in the loop of [getSignedArea]. *)
Definition cross_term (vs : list point_t) (i : nat) : R :=
  let n := length vs in
  let v j := nth j vs (mk_point 0 0) in
  x (v i) * y (v ((i + 1) mod n)) - y (v i) * x (v ((i + 1) mod n)).

(** The map [v |-> (a + k * v.x, b + k * v.y)]: every [move] and [scale] acts
    on the vertices of a Polygon as one of these. *)
Definition affine (a b k : R) (v : point_t) : point_t :=
  {| x := a + k * x v; y := b + k * y v |}.

(** The running minimum and maximum of a loop over [l] that starts at [a]. *)
Definition lo (l : list R) (a : R) : R := fold_left Rmin l a.
Definition hi (l : list R) (a : R) : R := fold_left Rmax l a.

(** The sum of the areas, accumulated as the loop of [printShapesInfo] does. *)
Definition total_area (shapes : list Shape) : R :=
  fold_left (fun total_area shape => total_area + getArea shape) shapes 0.

(** What [printShapesInfo] inserts for one shape, and after the loop. *)
Definition shape_block (sn : Shape * string) : ostream :=
  printShapeInfo [] (fst sn) (snd sn) ++ [Text "\n"].

Definition total_block (total : R) (frame : rectangle_t) : ostream :=
  [Text "Total area: "; Num total; Text "\n";
   Text "Total frame rectangle:\n";
   Text "  width: "; Num (width frame); Text "\n";
   Text "  height: "; Num (height frame); Text "\n";
   Text "  position: ("; Num (x (pos frame)); Text "; ";
   Num (y (pos frame)); Text ")\n"].

(** The shapes of [main] after the scalings that the triples ask for. *)
Definition scaled_by (shapes : list Shape) (ts : list triple) : list Shape :=
  fold_left
    (fun shapes t => map (scaled_shape {| x := tx t; y := ty t |} (tk t)) shapes)
    ts shapes.

(** What the constructors establish and every positive scaling keeps. *)
Definition shape_valid (s : Shape) : Prop :=
  match s with
  | ARectangle r => 0 < Rectangle.side_x r /\ 0 < Rectangle.side_y r
  | APolygon p => (3 <= Polygon.count p)%nat
  | ABubble b => bubble_valid b
  end.

(** What every operation keeps, whatever the factor: a Polygon has the three
    vertices its constructor asks for. *)
Definition well_formed (s : Shape) : Prop :=
  match s with
  | APolygon p => (3 <= Polygon.count p)%nat
  | _ => True
  end.

(** The shapes of [main] at any turn of the loop: five, each well formed. *)
Definition main_invariant (shapes : list Shape) : Prop :=
  Forall well_formed shapes /\ length shapes = 5%nat.

(** Every triple read has a positive [k]. *)
Definition all_positive (rs : list triple) : Prop := Forall (fun t => 0 < tk t) rs.

(** The object at place [id] points to the live array at [a], which holds the
    vertices of [P], and has the count and the center of [P]: what [view]
    reads. *)
Definition holds (st : Heap.state) (id : nat) (a : Heap.addr) (P : Polygon.t) : Prop :=
  nth_error (Heap.objects st) id =
    Some (Heap.mk_object (Some a) (length (Polygon.verts P)) (Polygon.center P)) /\
  nth_error (Heap.buffers st) a = Some (Some (map Some (Polygon.verts P))).

(** Every pointer of an object was returned by [new]; no two objects point
    to the same array. *)
Definition in_range (st : Heap.state) : Prop :=
  forall a, In a (Heap.owned st) -> (a < length (Heap.buffers st))%nat.

(** The object at place [id] points to the array at [a]. *)
Definition points_to (objs : list Heap.object) (id : nat) (a : nat) : Prop :=
  exists o, nth_error objs id = Some o /\ Heap.verts o = Some a.

(** Ownership is exclusive: two objects that point to the same array are
    the same object, and every pointer was returned by [new]. *)
Definition exclusive (st : Heap.state) : Prop :=
  (forall id1 id2 a,
      points_to (Heap.objects st) id1 a -> points_to (Heap.objects st) id2 a ->
      id1 = id2) /\
  (forall id a, points_to (Heap.objects st) id a -> (a < length (Heap.buffers st))%nat).

(** One call of a constructor, destructor, assignment or [move(dx, dy)] of
    [Polygon], and what it does to the stores. *)
Inductive call : Type :=
| CallCtor (points : list point_t)
| CallDtor (this : nat)
| CallCopyCtor (p : nat)
| CallCopyAssign (this p : nat)
| CallMoveCtor (p : nat)
| CallMoveAssign (this p : nat)
| CallMoveBy (this : nat) (dx dy : R).

Definition stores_after {A : Type} (c : Heap.M A) (st : Heap.state) : option Heap.state :=
  match c st with
  | Some (_, st') => Some st'
  | None => None
  end.

Definition exec (c : call) (st : Heap.state) : option Heap.state :=
  match c with
  | CallCtor points => stores_after (Heap.ctor points) st
  | CallDtor this => stores_after (Heap.dtor this) st
  | CallCopyCtor p => stores_after (Heap.copy_ctor p) st
  | CallCopyAssign this p => stores_after (Heap.copy_assign this p) st
  | CallMoveCtor p => stores_after (Heap.move_ctor p) st
  | CallMoveAssign this p => stores_after (Heap.move_assign this p) st
  | CallMoveBy this dx dy => stores_after (Heap.move_by this dx dy) st
  end.

(** A sequence of calls, first call first; [None] as soon as one call has
    no defined result. *)
Fixpoint exec_all (cs : list call) (st : Heap.state) : option Heap.state :=
  match cs with
  | [] => Some st
  | c :: cs' =>
      match exec c st with
      | Some st' => exec_all cs' st'
      | None => None
      end
  end.

(** A computation that changes neither the objects nor the number of
    arrays. *)
Definition keeps {A : Type} (c : Heap.M A) : Prop :=
  forall st r st',
    c st = Some (r, st') ->
    Heap.objects st' = Heap.objects st /\
    length (Heap.buffers st') = length (Heap.buffers st).

(** The stores once [Polygon(points1, 4)] and then [Polygon(points2, 8)] have
    been built on empty stores. *)
Definition one_polygon : Heap.state :=
  Heap.mk_state [Some (map Some points1)]
                [Heap.mk_object (Some 0%nat) 4 (Polygon.center polygon1)].

Definition two_polygons : Heap.state :=
  Heap.mk_state [Some (map Some points1); Some (map Some points2)]
                [Heap.mk_object (Some 0%nat) 4 (Polygon.center polygon1);
                 Heap.mk_object (Some 1%nat) 8 (Polygon.center polygon2)].

(** What each call does to the list of objects and to the number of
    arrays, whenever it has a defined result. *)
Inductive effect (st st' : Heap.state) : Prop :=
| effect_none :
    Heap.objects st' = Heap.objects st ->
    (length (Heap.buffers st) <= length (Heap.buffers st'))%nat ->
    effect st st'
| effect_new_object a n c :
    Heap.objects st' = Heap.objects st ++ [Heap.mk_object (Some a) n c] ->
    (length (Heap.buffers st) <= a < length (Heap.buffers st'))%nat ->
    effect st st'
| effect_repoint this a n c :
    (this < length (Heap.objects st))%nat ->
    Heap.objects st' = Heap.update (Heap.objects st) this (Heap.mk_object (Some a) n c) ->
    (length (Heap.buffers st) <= a < length (Heap.buffers st'))%nat ->
    effect st st'
| effect_same_pointer this o n c :
    nth_error (Heap.objects st) this = Some o ->
    Heap.objects st' =
      Heap.update (Heap.objects st) this (Heap.mk_object (Heap.verts o) n c) ->
    length (Heap.buffers st') = length (Heap.buffers st) ->
    effect st st'
| effect_move_new p src :
    nth_error (Heap.objects st) p = Some src ->
    Heap.objects st' =
      Heap.update
        (Heap.objects st
         ++ [Heap.mk_object (Heap.verts src) (Heap.count src) (Heap.center src)])
        p (Heap.mk_object None (Heap.count src) (Heap.center src)) ->
    length (Heap.buffers st') = length (Heap.buffers st) ->
    effect st st'
| effect_move_into this p src :
    this <> p ->
    (this < length (Heap.objects st))%nat ->
    nth_error (Heap.objects st) p = Some src ->
    Heap.objects st' =
      Heap.update
        (Heap.update (Heap.objects st) this
           (Heap.mk_object (Heap.verts src) (Heap.count src) (Heap.center src)))
        p (Heap.mk_object None (Heap.count src) (Heap.center src)) ->
    length (Heap.buffers st') = length (Heap.buffers st) ->
    effect st st'.

(** ** Doubles as the numbers they stand for *)

(** A double that is neither an infinity nor NaN. *)
Definition finite (f : float) : bool :=
  match Prim2SF f with
  | S754_zero _ | S754_finite _ _ _ => true
  | _ => false
  end.

(** The rational number that a finite double stands for: sign, mantissa [m]
    and exponent [e] stand for [+/- m * 2^e]; both zeros stand for 0. *)
Definition valQ (f : float) : Q :=
  match Prim2SF f with
  | S754_finite s m e =>
      Qred ((if s then -1 else 1) * inject_Z (Zpos m) * Qpower 2 e)
  | _ => 0%Q
  end.

Definition val (f : float) : R := Q2R (valQ f).

(** [v >= 0], or [v] is NaN: the comparison [v < 0] is false. *)
Definition nonneg_or_nan (v : float) : Prop :=
  (0 <=? v)%float = true \/ is_nan v = true.

Definition finite_point (p : B64.point_t) : bool :=
  (finite (B64.x p) && finite (B64.y p))%bool.

Definition val_point (p : B64.point_t) : point_t :=
  {| x := val (B64.x p); y := val (B64.y p) |}.

Definition finite_rect (f : B64.rectangle_t) : bool :=
  (finite (B64.width f) && finite (B64.height f) && finite_point (B64.pos f))%bool.

Definition val_rect (f : B64.rectangle_t) : rectangle_t :=
  {| width := val (B64.width f); height := val (B64.height f);
     pos := val_point (B64.pos f) |}.

Definition finite_shape (s : B64.Shape) : bool :=
  match s with
  | B64.ARectangle r =>
      (finite (B64.Rectangle.side_x r) && finite (B64.Rectangle.side_y r) &&
       finite_point (B64.Rectangle.center r))%bool
  | B64.APolygon p =>
      (forallb finite_point (B64.Polygon.verts p) && finite_point (B64.Polygon.center p))%bool
  | B64.ABubble b =>
      (finite (B64.Bubble.radius b) && finite_point (B64.Bubble.center b) &&
       finite_point (B64.Bubble.anchor b))%bool
  end.

(** The shape on doubles as a shape on real numbers, member by member. *)
Definition val_shape (s : B64.Shape) : Shape :=
  match s with
  | B64.ARectangle r =>
      ARectangle {| Rectangle.side_x := val (B64.Rectangle.side_x r);
                    Rectangle.side_y := val (B64.Rectangle.side_y r);
                    Rectangle.center := val_point (B64.Rectangle.center r) |}
  | B64.APolygon p =>
      APolygon {| Polygon.verts := map val_point (B64.Polygon.verts p);
                  Polygon.center := val_point (B64.Polygon.center p) |}
  | B64.ABubble b =>
      ABubble {| Bubble.radius := val (B64.Bubble.radius b);
                 Bubble.center := val_point (B64.Bubble.center b);
                 Bubble.anchor := val_point (B64.Bubble.anchor b) |}
  end.

(** ** Operations on doubles that return the exact result

    Each of the following says that one call, on the given doubles, returned
    finite doubles that stand for exactly what the same call returns in exact
    arithmetic: no rounding, overflow or NaN shows in the result. *)

(** The area of [s] in exact arithmetic, with the double that the code uses
    for pi. *)
Definition ideal_area (s : B64.Shape) : R :=
  match s with
  | B64.ABubble b =>
      val B64.Bubble.PI * val (B64.Bubble.radius b) * val (B64.Bubble.radius b)
  | _ => getArea (val_shape s)
  end.

Definition exact_area (s : B64.Shape) : Prop :=
  finite (B64.getArea s) = true /\ val (B64.getArea s) = ideal_area s.

Definition exact_frame (s : B64.Shape) : Prop :=
  finite_rect (B64.getFrameRect s) = true /\
  val_rect (B64.getFrameRect s) = getFrameRect (val_shape s).

Definition exact_move (s : B64.Shape) (p : B64.point_t) : Prop :=
  finite_point p = true /\ finite_shape (B64.move s p) = true /\
  val_shape (B64.move s p) = move (val_shape s) (val_point p).

Definition exact_move_by (s : B64.Shape) (dx dy : float) : Prop :=
  finite dx = true /\ finite dy = true /\ finite_shape (B64.move_by s dx dy) = true /\
  val_shape (B64.move_by s dx dy) = move_by (val_shape s) (val dx) (val dy).

Definition exact_scale (s : B64.Shape) (k : float) : Prop :=
  finite k = true /\ finite_shape (B64.scale s k) = true /\
  val_shape (B64.scale s k) = scale (val_shape s) (val k).

Definition exact_scaleByPoint (k : float) (p : B64.point_t) (s : B64.Shape) : Prop :=
  finite k = true /\ finite_point p = true /\
  finite_shape (B64.scaleByPoint_body k p s) = true /\
  val_shape (B64.scaleByPoint_body k p s) =
  scaleByPoint_body (val k) (val_point p) (val_shape s).

Definition exact_total (shapes : list B64.Shape) (f : B64.rectangle_t) : Prop :=
  finite_rect f = true /\
  getTotalFrameRect (map val_shape shapes) = Some (val_rect f).

(** A shape on doubles whose constructor and every later [move(p)],
    [move(dx, dy)] and [scale(k)] returned the exact result, the factors
    satisfying [allowed]. *)
Inductive exact_run (allowed : R -> Prop) : B64.Shape -> Prop :=
| exact_new s :
    B64.constructed s -> finite_shape s = true -> constructed (val_shape s) ->
    exact_run allowed s
| exact_after_move s p :
    exact_run allowed s -> exact_move s p -> exact_run allowed (B64.move s p)
| exact_after_move_by s dx dy :
    exact_run allowed s -> exact_move_by s dx dy ->
    exact_run allowed (B64.move_by s dx dy)
| exact_after_scale s k :
    exact_run allowed s -> allowed (val k) -> exact_scale s k ->
    exact_run allowed (B64.scale s k).

(** ** Frames and signs on doubles *)

(** [b] holds, in each direction, a least and a greatest coordinate of the
    vertices [vs]: each bound is the coordinate of a vertex, and no vertex
    lies below the lower or above the upper bound. *)
Definition extent_of (vs : list B64.point_t) (b : B64.bounds) : Prop :=
  In (B64.min_x b) (map B64.x vs) /\ In (B64.max_x b) (map B64.x vs) /\
  In (B64.min_y b) (map B64.y vs) /\ In (B64.max_y b) (map B64.y vs) /\
  forall v, In v vs ->
    (B64.x v <? B64.min_x b)%float = false /\ (B64.max_x b <? B64.x v)%float = false /\
    (B64.y v <? B64.min_y b)%float = false /\ (B64.max_y b <? B64.y v)%float = false.

(** What [getFrameRect] returns, in terms of the geometry of the shape: the
    sides and center of a Rectangle; twice the radius, about the center of a
    Bubble; for a Polygon the extent of its vertices, returned as
    [(max - min, min + (max - min) / 2)] in double arithmetic. *)
Definition frame_consistent (s : B64.Shape) : Prop :=
  match s with
  | B64.ARectangle r =>
      B64.getFrameRect s =
      {| B64.width := B64.Rectangle.side_x r; B64.height := B64.Rectangle.side_y r;
         B64.pos := B64.Rectangle.center r |}
  | B64.APolygon p =>
      exists b, extent_of (B64.Polygon.verts p) b /\
                B64.getFrameRect s = B64.frame_of_bounds b
  | B64.ABubble b =>
      B64.getFrameRect s =
      {| B64.width := (2 * B64.Bubble.radius b)%float;
         B64.height := (2 * B64.Bubble.radius b)%float;
         B64.pos := B64.Bubble.center b |}
  end.

(** The sides of a Rectangle never have opposite signs. *)
Definition sides_agree (r : B64.Rectangle.t) : Prop :=
  ~ ((B64.Rectangle.side_x r <? 0)%float = true /\ (0 <? B64.Rectangle.side_y r)%float = true) /\
  ~ ((0 <? B64.Rectangle.side_x r)%float = true /\ (B64.Rectangle.side_y r <? 0)%float = true).

(** What every operation keeps, whatever the factor. *)
Definition B64_sound (s : B64.Shape) : Prop :=
  match s with
  | B64.ARectangle r => sides_agree r
  | B64.APolygon p => (3 <= B64.Polygon.count p)%nat
  | B64.ABubble _ => True
  end.

(** What every operation with a positive factor keeps. *)
Definition B64_positive (s : B64.Shape) : Prop :=
  match s with
  | B64.ARectangle r =>
      (B64.Rectangle.side_x r <? 0)%float = false /\ (B64.Rectangle.side_y r <? 0)%float = false
  | B64.APolygon p => True
  | B64.ABubble b => (B64.Bubble.radius b <? 0)%float = false
  end.

(** A Bubble of radius 2, and three shapes of [main], one of each kind: on
    them the operations used below are exact. *)
Definition B64_small_bubble : B64.Bubble.t :=
  B64.Bubble.mk 2 (B64.mk_point 0 0) (B64.mk_point 1 1).

Definition B64_exact_shapes : list B64.Shape :=
  [B64.ARectangle B64.rectangle1; B64.APolygon B64.polygon1; B64.ABubble B64.bubble].

(** The shapes after the calls [scaleByPoint(shapes, 5, k, {x, y})] that the
    triples ask for, first triple first. *)
Definition scaleByPoint_calls (shapes : list Shape) (ts : list triple) : list Shape :=
  fold_left
    (fun shapes t => fst (scaleByPoint shapes (tk t) {| x := tx t; y := ty t |}))
    ts shapes.

(** * Proofs: control flow and the exact reading *)

(** ** Comparisons *)

Lemma Rleb_true a b : Rleb a b = true <-> a <= b.
Proof. unfold Rleb; destruct (Rle_dec a b); split; intros; try discriminate; tauto. Qed.

Lemma Rleb_false a b : Rleb a b = false <-> b < a.
Proof.
  unfold Rleb; destruct (Rle_dec a b); split; intros; try discriminate; try lra; auto.
Qed.

Lemma Rgtb_true a b : Rgtb a b = true <-> a > b.
Proof. unfold Rgtb; destruct (Rgt_dec a b); split; intros; try discriminate; tauto. Qed.

Lemma Rgtb_false a b : Rgtb a b = false <-> a <= b.
Proof.
  unfold Rgtb; destruct (Rgt_dec a b); split; intros; try discriminate; try lra; auto.
Qed.

Lemma Reqb_true a b : Reqb a b = true <-> a = b.
Proof. unfold Reqb; destruct (Req_dec_T a b); split; intros; try discriminate; tauto. Qed.

Lemma Reqb_false a b : Reqb a b = false <-> a <> b.
Proof. unfold Reqb; destruct (Req_dec_T a b); split; intros; try discriminate; tauto. Qed.

Lemma point_eq (p q : point_t) : x p = x q -> y p = y q -> p = q.
Proof. destruct p, q; simpl; intros; subst; reflexivity. Qed.

Lemma point_neq (p q : point_t) : p <> q <-> (x p <> x q \/ y p <> y q).
Proof.
  split.
  - intros H. destruct (Req_dec_T (x p) (x q)) as [E|E]; [|now left].
    right. intros E'. apply H. now apply point_eq.
  - intros [H|H] E; subst; now apply H.
Qed.

Lemma point_eq_dec (p q : point_t) : {p = q} + {p <> q}.
Proof.
  destruct (Req_dec_T (x p) (x q)) as [Ex|Ex].
  - destruct (Req_dec_T (y p) (y q)) as [Ey|Ey].
    + left. now apply point_eq.
    + right. apply point_neq. now right.
  - right. apply point_neq. now left.
Qed.

(** Splits a goal on the outcome of each comparison the code makes in it. *)
Ltac cmp_cases :=
  repeat match goal with
    | |- context [Rleb ?a ?b] =>
        let E := fresh "E" in
        destruct (Rleb a b) eqn:E; [apply Rleb_true in E | apply Rleb_false in E]
    | |- context [Rgtb ?a ?b] =>
        let E := fresh "E" in
        destruct (Rgtb a b) eqn:E; [apply Rgtb_true in E | apply Rgtb_false in E]
    | |- context [Reqb ?a ?b] =>
        let E := fresh "E" in
        destruct (Reqb a b) eqn:E; [apply Reqb_true in E | apply Reqb_false in E]
    end.

(** ** The Bubble constructor *)

Lemma Bubble_ctor_inside r o a :
  dist2 o a > r * r -> Bubble.ctor r o a = Throw (invalid_argument Bubble.msg_inside).
Proof.
  unfold Bubble.ctor, dist2. intros H. cmp_cases; simpl; try reflexivity; lra.
Qed.

Lemma Bubble_ctor_equal r o a :
  dist2 o a <= r * r -> o = a ->
  Bubble.ctor r o a = Throw (invalid_argument Bubble.msg_equal).
Proof.
  unfold Bubble.ctor, dist2. intros H ->.
  cmp_cases; simpl; try reflexivity; try lra; congruence.
Qed.

Lemma Bubble_ctor_radius r o a :
  dist2 o a <= r * r -> o <> a -> r <= 0 ->
  Bubble.ctor r o a = Throw (invalid_argument Bubble.msg_radius).
Proof.
  unfold Bubble.ctor, dist2. intros H Hne Hr. apply point_neq in Hne.
  cmp_cases; simpl; try reflexivity; try lra; tauto.
Qed.

Lemma Bubble_ctor_ok r o a :
  dist2 o a <= r * r -> o <> a -> 0 < r ->
  Bubble.ctor r o a = Ok {| Bubble.radius := r; Bubble.center := o; Bubble.anchor := a |}.
Proof.
  unfold Bubble.ctor, dist2. intros H Hne Hr. apply point_neq in Hne.
  cmp_cases; simpl; try reflexivity; try lra; tauto.
Qed.

Lemma Bubble_ctor_cases r o a :
  (dist2 o a > r * r /\
   Bubble.ctor r o a = Throw (invalid_argument Bubble.msg_inside)) \/
  (dist2 o a <= r * r /\ o = a /\
   Bubble.ctor r o a = Throw (invalid_argument Bubble.msg_equal)) \/
  (dist2 o a <= r * r /\ o <> a /\ r <= 0 /\
   Bubble.ctor r o a = Throw (invalid_argument Bubble.msg_radius)) \/
  (dist2 o a <= r * r /\ o <> a /\ 0 < r /\
   Bubble.ctor r o a =
     Ok {| Bubble.radius := r; Bubble.center := o; Bubble.anchor := a |}).
Proof.
  destruct (Rgt_dec (dist2 o a) (r * r)) as [H|H].
  { left. split; [exact H | now apply Bubble_ctor_inside]. }
  assert (Hle : dist2 o a <= r * r) by lra.
  destruct (point_eq_dec o a) as [Heq|Hne].
  - right; left. repeat split; auto using Bubble_ctor_equal.
  - destruct (Rle_dec r 0) as [Hr|Hr]; right; right; [left | right].
    + repeat split; auto using Bubble_ctor_radius.
    + assert (0 < r) by lra. repeat split; auto using Bubble_ctor_ok.
Qed.

Lemma Bubble_ctor_valid r o a b : Bubble.ctor r o a = Ok b -> bubble_valid b.
Proof.
  intros H.
  destruct (Bubble_ctor_cases r o a) as [[_ E]|[(_ & _ & E)|[(_ & _ & _ & E)|(H1 & H2 & H3 & E)]]];
    rewrite E in H; try discriminate.
  injection H as <-. unfold bubble_valid; simpl. tauto.
Qed.

(** ** C2: the guard of [scaleByPoint] *)

(** C2. For every collection of shapes, pivot [p] and factor [k]: when
    [k <= 0], [scaleByPoint] throws [invalid_argument] and the shapes after the
    call are the shapes before it; when [0 < k] it does not throw. *)
Theorem scaleByPoint_guard (shapes : list Shape) (k : R) (p : point_t) :
  (k <= 0 ->
   exists what,
     scaleByPoint shapes k p = (shapes, Some (invalid_argument what))) /\
  (0 < k -> snd (scaleByPoint shapes k p) = None).
Proof.
  unfold scaleByPoint. split; intros H; cmp_cases; try lra.
  - eexists; reflexivity.
  - reflexivity.
Qed.

Lemma scaleByPoint_guard_witness :
  (exists what,
      scaleByPoint main_shapes 0 (mk_point 1 1) =
      (main_shapes, Some (invalid_argument what))) /\
  snd (scaleByPoint main_shapes 2 (mk_point 1 1)) = None.
Proof.
  split.
  - apply (scaleByPoint_guard main_shapes 0 (mk_point 1 1)). lra.
  - apply (scaleByPoint_guard main_shapes 2 (mk_point 1 1)). lra.
Defined.

(** ** Sums over the indices of a loop *)

Lemma fold_left_sum (F : R -> nat -> R) (h : nat -> R) :
  (forall acc i, F acc i = acc + h i) ->
  forall n a, fold_left F (seq 0 n) a = a + sum_upto h n.
Proof.
  intros HF. induction n as [|n IH]; intros a.
  - simpl. lra.
  - rewrite seq_S, fold_left_app. simpl. rewrite HF, IH. lra.
Qed.

Lemma sum_upto_ext (f g : nat -> R) n :
  (forall i, (i < n)%nat -> f i = g i) -> sum_upto f n = sum_upto g n.
Proof.
  induction n as [|n IH]; intros H; simpl; [reflexivity|].
  rewrite IH, H; auto.
Qed.

Lemma sum_upto_shift (h : nat -> R) n :
  sum_upto h (S n) = h O + sum_upto (fun i => h (S i)) n.
Proof.
  induction n as [|n IH].
  - simpl. lra.
  - change (sum_upto h (S (S n))) with (sum_upto h (S n) + h (S n)).
    rewrite IH. simpl. lra.
Qed.

(** One turn around the cycle visits every index once. *)
Lemma sum_upto_cyclic (h : nat -> R) n :
  sum_upto (fun i => h ((i + 1) mod n)%nat) n = sum_upto h n.
Proof.
  destruct n as [|m]; [reflexivity|].
  rewrite (sum_upto_shift h).
  change (sum_upto (fun i => h ((i + 1) mod S m)%nat) (S m)) with
    (sum_upto (fun i => h ((i + 1) mod S m)%nat) m + h ((m + 1) mod S m)%nat).
  replace ((m + 1) mod S m)%nat with O
    by (replace (m + 1)%nat with (S m) by lia; now rewrite Nat.Div0.mod_same).
  rewrite (sum_upto_ext _ (fun i => h (S i))); [lra|].
  intros i Hi. f_equal. rewrite Nat.mod_small; lia.
Qed.

Lemma sum_upto_combine (f g g' h h' : nat -> R) (c1 c2 c3 : R) n :
  sum_upto (fun i => c1 * f i + c2 * (g' i - g i) + c3 * (h i - h' i)) n =
  c1 * sum_upto f n + c2 * (sum_upto g' n - sum_upto g n)
  + c3 * (sum_upto h n - sum_upto h' n).
Proof.
  induction n as [|n IH]; simpl; [|rewrite IH]; lra.
Qed.

(** ** The signed area of a Polygon *)

Lemma getSignedArea_sum (p : Polygon.t) :
  Polygon.getSignedArea p =
  0.5 * sum_upto (cross_term (Polygon.verts p)) (Polygon.count p).
Proof.
  unfold Polygon.getSignedArea.
  rewrite (fold_left_sum _ (cross_term (Polygon.verts p))).
  - lra.
  - intros acc i. unfold cross_term, Polygon.vert, Polygon.count. lra.
Qed.

Lemma nth_affine a b k vs i :
  (i < length vs)%nat ->
  nth i (map (affine a b k) vs) (mk_point 0 0) = affine a b k (nth i vs (mk_point 0 0)).
Proof.
  intros Hi.
  rewrite (nth_indep _ _ (affine a b k (mk_point 0 0))) by (now rewrite length_map).
  apply map_nth.
Qed.

Lemma cross_sum_affine a b k vs :
  sum_upto (cross_term (map (affine a b k) vs)) (length vs) =
  k * k * sum_upto (cross_term vs) (length vs).
Proof.
  set (n := length vs).
  set (X := fun i => x (nth i vs (mk_point 0 0))).
  set (Y := fun i => y (nth i vs (mk_point 0 0))).
  rewrite (sum_upto_ext _
    (fun i => k * k * cross_term vs i
              + a * k * (Y ((i + 1) mod n)%nat - Y i)
              + b * k * (X i - X ((i + 1) mod n)%nat))).
  - rewrite sum_upto_combine.
    rewrite (sum_upto_cyclic Y n), (sum_upto_cyclic X n). lra.
  - intros i Hi. unfold cross_term. rewrite length_map. fold n.
    assert (Hm : ((i + 1) mod n < n)%nat) by (apply Nat.mod_upper_bound; lia).
    rewrite !nth_affine by assumption.
    unfold X, Y, affine. simpl. lra.
Qed.

Lemma getSignedArea_affine a b k vs c c' :
  Polygon.getSignedArea (Polygon.mk (map (affine a b k) vs) c') =
  k * k * Polygon.getSignedArea (Polygon.mk vs c).
Proof.
  rewrite !getSignedArea_sum. unfold Polygon.count. simpl.
  rewrite length_map, cross_sum_affine. lra.
Qed.

(** [move(dx, dy)] and [scale(k)] as affine maps of the vertices. *)
Lemma Polygon_move_by_affine p dx dy :
  Polygon.verts (Polygon.move_by p dx dy) = map (affine dx dy 1) (Polygon.verts p).
Proof.
  unfold Polygon.move_by. simpl. apply map_ext. intros v.
  apply point_eq; simpl; lra.
Qed.

Lemma Polygon_scale_affine p k :
  Polygon.verts (Polygon.scale p k) =
  map (affine ((1 - k) * x (Polygon.center p)) ((1 - k) * y (Polygon.center p)) k)
      (Polygon.verts p).
Proof.
  unfold Polygon.scale. simpl. apply map_ext. intros v.
  apply point_eq; simpl; lra.
Qed.

Lemma Polygon_eta p : p = Polygon.mk (Polygon.verts p) (Polygon.center p).
Proof. now destruct p. Qed.

Lemma getSignedArea_move_by p dx dy :
  Polygon.getSignedArea (Polygon.move_by p dx dy) = Polygon.getSignedArea p.
Proof.
  rewrite (Polygon_eta (Polygon.move_by p dx dy)), Polygon_move_by_affine.
  rewrite (getSignedArea_affine _ _ _ _ (Polygon.center p)), <- Polygon_eta. lra.
Qed.

Lemma getSignedArea_scale p k :
  Polygon.getSignedArea (Polygon.scale p k) = k * k * Polygon.getSignedArea p.
Proof.
  rewrite (Polygon_eta (Polygon.scale p k)), Polygon_scale_affine.
  rewrite (getSignedArea_affine _ _ _ _ (Polygon.center p)), <- Polygon_eta. lra.
Qed.

(** ** Running minima and maxima *)

Lemma Rmin_affine a k s t : 0 <= k -> Rmin (a + k * s) (a + k * t) = a + k * Rmin s t.
Proof. intros Hk. unfold Rmin. repeat destruct Rle_dec; nra. Qed.

Lemma Rmax_affine a k s t : 0 <= k -> Rmax (a + k * s) (a + k * t) = a + k * Rmax s t.
Proof. intros Hk. unfold Rmax. repeat destruct Rle_dec; nra. Qed.

Lemma lo_affine a k l t :
  0 <= k -> lo (map (fun u => a + k * u) l) (a + k * t) = a + k * lo l t.
Proof.
  intros Hk. revert t. unfold lo.
  induction l as [|u l IH]; intros t; simpl; [reflexivity|].
  now rewrite Rmin_affine, IH.
Qed.

Lemma hi_affine a k l t :
  0 <= k -> hi (map (fun u => a + k * u) l) (a + k * t) = a + k * hi l t.
Proof.
  intros Hk. revert t. unfold hi.
  induction l as [|u l IH]; intros t; simpl; [reflexivity|].
  now rewrite Rmax_affine, IH.
Qed.

Lemma lo_le_start l a : lo l a <= a.
Proof.
  revert a. unfold lo. induction l as [|u l IH]; intros a; simpl; [lra|].
  specialize (IH (Rmin a u)). pose proof (Rmin_l a u). lra.
Qed.

Lemma hi_ge_start l a : a <= hi l a.
Proof.
  revert a. unfold hi. induction l as [|u l IH]; intros a; simpl; [lra|].
  specialize (IH (Rmax a u)). pose proof (Rmax_l a u). lra.
Qed.

Lemma lo_le_in l a t : In t l -> lo l a <= t.
Proof.
  revert a. induction l as [|u l IH]; intros a; simpl; [tauto|].
  intros [->|H].
  - pose proof (lo_le_start l (Rmin a t)). pose proof (Rmin_r a t).
    unfold lo in *. lra.
  - now apply IH.
Qed.

Lemma hi_ge_in l a t : In t l -> t <= hi l a.
Proof.
  revert a. induction l as [|u l IH]; intros a; simpl; [tauto|].
  intros [->|H].
  - pose proof (hi_ge_start l (Rmax a t)). pose proof (Rmax_r a t).
    unfold hi in *. lra.
  - now apply IH.
Qed.

(** The running minimum is the start or an element: nothing smaller encloses. *)
Lemma lo_greatest l a m : m <= a -> (forall t, In t l -> m <= t) -> m <= lo l a.
Proof.
  revert a. unfold lo. induction l as [|u l IH]; intros a Ha H; simpl; [exact Ha|].
  apply IH.
  - apply Rmin_glb; [exact Ha | apply H; now left].
  - intros t Ht. apply H. now right.
Qed.

Lemma hi_least l a m : a <= m -> (forall t, In t l -> t <= m) -> hi l a <= m.
Proof.
  revert a. unfold hi. induction l as [|u l IH]; intros a Ha H; simpl; [exact Ha|].
  apply IH.
  - apply Rmax_lub; [exact Ha | apply H; now left].
  - intros t Ht. apply H. now right.
Qed.

(** ** The frame of a Polygon *)

Lemma fold_bounds_step vs b :
  fold_left Polygon.bounds_step vs b =
  {| min_x := lo (map x vs) (min_x b); min_y := lo (map y vs) (min_y b);
     max_x := hi (map x vs) (max_x b); max_y := hi (map y vs) (max_y b) |}.
Proof.
  revert b. induction vs as [|v vs IH]; intros b; simpl.
  - now destruct b.
  - rewrite IH. reflexivity.
Qed.

Lemma Polygon_frame_bounds p :
  Polygon.getFrameRect p =
  let v0 := Polygon.vert p 0 in
  frame_of_bounds
    {| min_x := lo (map x (Polygon.verts p)) (x v0);
       min_y := lo (map y (Polygon.verts p)) (y v0);
       max_x := hi (map x (Polygon.verts p)) (x v0);
       max_y := hi (map y (Polygon.verts p)) (y v0) |}.
Proof. unfold Polygon.getFrameRect. now rewrite fold_bounds_step. Qed.

Lemma rectangle_eq (f g : rectangle_t) :
  width f = width g -> height f = height g ->
  x (pos f) = x (pos g) -> y (pos f) = y (pos g) -> f = g.
Proof.
  destruct f as [w h [px py]], g as [w' h' [px' py']]; simpl.
  intros; subst; reflexivity.
Qed.

Lemma map_x_affine a b k vs : map x (map (affine a b k) vs) = map (fun u => a + k * u) (map x vs).
Proof. rewrite !map_map. reflexivity. Qed.

Lemma map_y_affine a b k vs : map y (map (affine a b k) vs) = map (fun u => b + k * u) (map y vs).
Proof. rewrite !map_map. reflexivity. Qed.

Lemma Polygon_frame_affine a b k vs c c' :
  vs <> [] -> 0 <= k ->
  Polygon.getFrameRect (Polygon.mk (map (affine a b k) vs) c') =
  let f := Polygon.getFrameRect (Polygon.mk vs c) in
  {| width := k * width f; height := k * height f; pos := affine a b k (pos f) |}.
Proof.
  intros Hne Hk. destruct vs as [|v0 vs]; [congruence|].
  rewrite !Polygon_frame_bounds. unfold Polygon.vert.
  cbn [Polygon.verts nth].
  rewrite map_x_affine, map_y_affine.
  change (map (affine a b k) (v0 :: vs)) with (affine a b k v0 :: map (affine a b k) vs).
  cbn [nth affine x y].
  rewrite !lo_affine, !hi_affine by assumption.
  apply rectangle_eq; cbn; lra.
Qed.

(** ** Constructors and reachable shapes *)

Lemma Rectangle_ctor_ok a b o r :
  Rectangle.ctor a b o = Ok r -> r = Rectangle.mk a b o /\ 0 < a /\ 0 < b.
Proof.
  unfold Rectangle.ctor. cmp_cases; simpl; intros Hr; try discriminate.
  injection Hr as <-. repeat split; lra.
Qed.

Lemma Rectangle_ctor_pos a b o :
  0 < a -> 0 < b -> Rectangle.ctor a b o = Ok (Rectangle.mk a b o).
Proof. unfold Rectangle.ctor. intros. cmp_cases; simpl; try reflexivity; lra. Qed.

Lemma Polygon_ctor_ok points p :
  Polygon.ctor points = Ok p ->
  (3 <= length points)%nat /\ Polygon.verts p = points /\
  Polygon.center p = Polygon.getCentroid (Polygon.mk points (mk_point 0 0)).
Proof.
  unfold Polygon.ctor.
  destruct (Nat.ltb_spec (length points) 3) as [Hlt|Hge]; intros Hp.
  - discriminate.
  - injection Hp as <-. simpl. auto.
Qed.

Lemma constructed_valid s : constructed s -> shape_valid s.
Proof.
  intros [a b o r H | points p H | r o a b H]; simpl.
  - apply Rectangle_ctor_ok in H as (-> & Ha & Hb). simpl. auto.
  - apply Polygon_ctor_ok in H as (Hn & Hv & _). unfold Polygon.count. now rewrite Hv.
  - eapply Bubble_ctor_valid; eauto.
Qed.

Lemma valid_well_formed s : shape_valid s -> well_formed s.
Proof. destruct s; simpl; auto. Qed.

Lemma move_by_well_formed s dx dy : well_formed s -> well_formed (move_by s dx dy).
Proof.
  destruct s; simpl; auto. unfold Polygon.count. simpl. now rewrite length_map.
Qed.

Lemma move_well_formed s p : well_formed s -> well_formed (move s p).
Proof.
  destruct s; simpl; auto. unfold Polygon.count. simpl. now rewrite length_map.
Qed.

Lemma scale_well_formed s k : well_formed s -> well_formed (scale s k).
Proof.
  destruct s; simpl; auto. unfold Polygon.count. simpl. now rewrite length_map.
Qed.

Lemma reachable_well_formed allowed s : reachable allowed s -> well_formed s.
Proof.
  induction 1 as [s Hs | | |].
  - now apply valid_well_formed, constructed_valid.
  - now apply move_well_formed.
  - now apply move_by_well_formed.
  - now apply scale_well_formed.
Qed.

Lemma bubble_valid_move_by b dx dy : bubble_valid b -> bubble_valid (Bubble.move_by b dx dy).
Proof.
  unfold bubble_valid, dist2. intros (Hd & Hne & Hr). simpl. repeat split.
  - replace (x (Bubble.center b) + dx - (x (Bubble.anchor b) + dx))
      with (x (Bubble.center b) - x (Bubble.anchor b)) by lra.
    replace (y (Bubble.center b) + dy - (y (Bubble.anchor b) + dy))
      with (y (Bubble.center b) - y (Bubble.anchor b)) by lra.
    exact Hd.
  - apply point_neq in Hne. apply point_neq. simpl. destruct Hne; [left | right]; lra.
  - exact Hr.
Qed.

Lemma bubble_valid_scale b k : 0 < k -> bubble_valid b -> bubble_valid (Bubble.scale b k).
Proof.
  unfold bubble_valid, dist2. intros Hk (Hd & Hne & Hr). simpl. repeat split.
  - set (u := x (Bubble.center b) - x (Bubble.anchor b)) in *.
    set (v := y (Bubble.center b) - y (Bubble.anchor b)) in *.
    set (r := Bubble.radius b) in *.
    replace (x (Bubble.anchor b) + k * u - x (Bubble.anchor b)) with (k * u) by lra.
    replace (y (Bubble.anchor b) + k * v - y (Bubble.anchor b)) with (k * v) by lra.
    replace (k * u * (k * u) + k * v * (k * v)) with (k * k * (u * u + v * v)) by lra.
    replace (r * k * (r * k)) with (k * k * (r * r)) by lra.
    apply Rmult_le_compat_l; [nra | exact Hd].
  - apply point_neq in Hne. apply point_neq. simpl.
    destruct Hne as [Hx|Hy]; [left | right]; intros E; [apply Hx | apply Hy];
      apply (Rmult_eq_reg_l k); lra.
  - nra.
Qed.

Lemma reachable_valid s : reachable positive_factor s -> shape_valid s.
Proof.
  induction 1 as [s Hs | s p _ IH | s dx dy _ IH | s k Hk _ IH].
  - now apply constructed_valid.
  - destruct s; simpl in *; auto.
    + unfold Polygon.count. simpl. now rewrite length_map.
    + now apply bubble_valid_move_by.
  - destruct s; simpl in *; auto.
    + unfold Polygon.count. simpl. now rewrite length_map.
    + now apply bubble_valid_move_by.
  - unfold positive_factor in Hk. destruct s; simpl in *.
    + split; nra.
    + unfold Polygon.count. simpl. now rewrite length_map.
    + now apply bubble_valid_scale.
Qed.

Lemma well_formed_verts p : well_formed (APolygon p) -> Polygon.verts p <> [].
Proof.
  simpl. unfold Polygon.count. destruct (Polygon.verts p); simpl; [lia | discriminate].
Qed.

(** ** The shapes of [main] come from their constructors *)

Lemma rectangle1_constructed : Rectangle.ctor 5 6 (mk_point 1 2) = Ok rectangle1.
Proof. apply Rectangle_ctor_pos; lra. Qed.

Lemma rectangle2_constructed : Rectangle.ctor 10 2 (mk_point (-10) 3) = Ok rectangle2.
Proof. apply Rectangle_ctor_pos; lra. Qed.

Lemma polygon1_constructed : Polygon.ctor points1 = Ok polygon1.
Proof. reflexivity. Qed.

Lemma bubble_constructed : Bubble.ctor 10 (mk_point 0 0) (mk_point 2 2) = Ok bubble.
Proof.
  apply Bubble_ctor_ok; unfold dist2; simpl; try lra.
  apply point_neq; simpl; lra.
Qed.

Lemma polygon2_constructed : Polygon.ctor points2 = Ok polygon2.
Proof. reflexivity. Qed.

Lemma main_shapes_reachable allowed : Forall (reachable allowed) main_shapes.
Proof.
  repeat constructor.
  - eapply constructed_rectangle, rectangle1_constructed.
  - eapply constructed_rectangle, rectangle2_constructed.
  - eapply constructed_polygon, polygon1_constructed.
  - eapply constructed_polygon, polygon2_constructed.
  - eapply constructed_bubble, bubble_constructed.
Qed.

(** ** How each operation acts on area, frame and pivot *)

Lemma getArea_move_by s dx dy : getArea (move_by s dx dy) = getArea s.
Proof.
  destruct s as [r|p|b]; simpl; try reflexivity.
  unfold Polygon.getArea. now rewrite getSignedArea_move_by.
Qed.

Lemma getArea_move s p : getArea (move s p) = getArea s.
Proof.
  destruct s as [r|q|b]; simpl; try reflexivity.
  unfold Polygon.getArea, Polygon.move. now rewrite getSignedArea_move_by.
Qed.

Lemma getArea_scale s k : getArea (scale s k) = k * k * getArea s.
Proof.
  destruct s as [r|p|b]; simpl.
  - unfold Rectangle.getArea. simpl. lra.
  - unfold Polygon.getArea. rewrite getSignedArea_scale, Rabs_mult.
    rewrite (Rabs_pos_eq (k * k)) by nra. reflexivity.
  - unfold Bubble.getArea. simpl. lra.
Qed.

Lemma pivot_move s p : pivot (move s p) = p.
Proof. destruct s as [r|q|b]; simpl; try reflexivity; apply point_eq; simpl; lra. Qed.

Lemma pivot_move_by s dx dy :
  pivot (move_by s dx dy) = {| x := x (pivot s) + dx; y := y (pivot s) + dy |}.
Proof. destruct s as [r|q|b]; reflexivity. Qed.

Lemma pivot_scale s k : pivot (scale s k) = pivot s.
Proof. destruct s as [r|q|b]; reflexivity. Qed.

Lemma frame_move_by s dx dy :
  well_formed s ->
  getFrameRect (move_by s dx dy) =
  {| width := width (getFrameRect s); height := height (getFrameRect s);
     pos := {| x := x (pos (getFrameRect s)) + dx; y := y (pos (getFrameRect s)) + dy |} |}.
Proof.
  destruct s as [r|q|b]; intros Hwf; try reflexivity.
  apply well_formed_verts in Hwf. cbn [getFrameRect move_by].
  rewrite (Polygon_eta (Polygon.move_by q dx dy)), Polygon_move_by_affine.
  rewrite (Polygon_frame_affine _ _ _ _ (Polygon.center q)) by (auto; lra).
  rewrite <- Polygon_eta. apply rectangle_eq; cbn; lra.
Qed.

Lemma frame_move s p :
  well_formed s ->
  getFrameRect (move s p) =
  {| width := width (getFrameRect s); height := height (getFrameRect s);
     pos := {| x := x (pos (getFrameRect s)) + (x p - x (pivot s));
               y := y (pos (getFrameRect s)) + (y p - y (pivot s)) |} |}.
Proof.
  destruct s as [r|q|b]; intros Hwf.
  - apply rectangle_eq; cbn; lra.
  - exact (frame_move_by (APolygon q) _ _ Hwf).
  - reflexivity.
Qed.

(** [scale(k)] scales the frame about the shape's own pivot. *)
Lemma frame_scale s k :
  well_formed s -> 0 <= k ->
  getFrameRect (scale s k) =
  {| width := k * width (getFrameRect s); height := k * height (getFrameRect s);
     pos := {| x := x (pivot s) + k * (x (pos (getFrameRect s)) - x (pivot s));
               y := y (pivot s) + k * (y (pos (getFrameRect s)) - y (pivot s)) |} |}.
Proof.
  destruct s as [r|q|b]; intros Hwf Hk.
  - apply rectangle_eq; cbn; lra.
  - apply well_formed_verts in Hwf. cbn [getFrameRect scale pivot].
    rewrite (Polygon_eta (Polygon.scale q k)), Polygon_scale_affine.
    rewrite (Polygon_frame_affine _ _ _ _ (Polygon.center q)) by auto.
    rewrite <- Polygon_eta. apply rectangle_eq; cbn; lra.
  - apply rectangle_eq; cbn; lra.
Qed.

(** ** The body of the loop of [scaleByPoint] *)

Lemma scaleByPoint_body_spec s k p :
  well_formed s -> 0 <= k ->
  pos (getFrameRect (scaleByPoint_body k p s)) = scaled_about p k (pos (getFrameRect s)) /\
  width (getFrameRect (scaleByPoint_body k p s)) = k * width (getFrameRect s) /\
  height (getFrameRect (scaleByPoint_body k p s)) = k * height (getFrameRect s) /\
  pivot (scaleByPoint_body k p s) = scaled_about p k (pivot s).
Proof.
  intros Hwf Hk. unfold scaleByPoint_body.
  assert (Hwf1 : well_formed (move s p)) by now apply move_well_formed.
  rewrite pivot_scale, pivot_move_by, pivot_move.
  rewrite frame_scale by (auto using move_by_well_formed).
  rewrite pivot_move_by, pivot_move.
  rewrite frame_move_by by assumption.
  rewrite frame_move by assumption.
  unfold scaled_about. cbn [width height pos x y].
  repeat split; try apply point_eq; cbn [x y]; lra.
Qed.

Lemma scaleByPoint_body_scaled s k p :
  well_formed s -> scaleByPoint_body k p s = scaled_shape p k s.
Proof.
  intros Hwf. unfold scaleByPoint_body.
  rewrite (frame_move s p Hwf). cbn [pos x y].
  destruct s as [r|q|b]; cbn [move move_by scale scaled_shape pivot getFrameRect].
  - f_equal. unfold Rectangle.scale, Rectangle.move_by, Rectangle.move, scaled_about.
    cbn. f_equal; [lra | lra | apply point_eq; cbn; lra].
  - f_equal. unfold Polygon.scale, Polygon.move_by, Polygon.move. cbn.
    f_equal.
    + rewrite !map_map. apply map_ext. intros v.
      apply point_eq; cbn; lra.
    + apply point_eq; cbn; lra.
  - f_equal. unfold Bubble.scale, Bubble.move_by, Bubble.move, scaled_about.
    cbn. f_equal; [lra | apply point_eq; cbn; lra | apply point_eq; cbn; lra].
Qed.

(** ** C7: the area of a Polygon is the shoelace formula *)





(** ** The running extremes of [getTotalFrameRect] *)

Lemma fold_total_step frames b :
  fold_left total_step frames b =
  {| min_x := lo (map left_edge frames) (min_x b);
     min_y := lo (map bottom_edge frames) (min_y b);
     max_x := hi (map right_edge frames) (max_x b);
     max_y := hi (map top_edge frames) (max_y b) |}.
Proof.
  revert b. induction frames as [|f frames IH]; intros b; simpl.
  - now destruct b.
  - rewrite IH. reflexivity.
Qed.

Lemma edges_of_bounds b :
  left_edge (frame_of_bounds b) = min_x b /\
  right_edge (frame_of_bounds b) = max_x b /\
  bottom_edge (frame_of_bounds b) = min_y b /\
  top_edge (frame_of_bounds b) = max_y b.
Proof.
  unfold left_edge, right_edge, bottom_edge, top_edge, frame_of_bounds. cbn.
  repeat split; lra.
Qed.

Lemma getTotalFrameRect_edges shape0 rest :
  exists f,
    getTotalFrameRect (shape0 :: rest) = Some f /\
    left_edge f = lo (map left_edge (map getFrameRect rest)) (left_edge (getFrameRect shape0)) /\
    right_edge f = hi (map right_edge (map getFrameRect rest)) (right_edge (getFrameRect shape0)) /\
    bottom_edge f = lo (map bottom_edge (map getFrameRect rest)) (bottom_edge (getFrameRect shape0)) /\
    top_edge f = hi (map top_edge (map getFrameRect rest)) (top_edge (getFrameRect shape0)).
Proof.
  eexists. split; [reflexivity|].
  rewrite fold_total_step.
  destruct (edges_of_bounds
    {| min_x := lo (map left_edge (map getFrameRect rest))
                   (x (pos (getFrameRect shape0)) - width (getFrameRect shape0) / 2);
       min_y := lo (map bottom_edge (map getFrameRect rest))
                   (y (pos (getFrameRect shape0)) - height (getFrameRect shape0) / 2);
       max_x := hi (map right_edge (map getFrameRect rest))
                   (x (pos (getFrameRect shape0)) - width (getFrameRect shape0) / 2
                    + width (getFrameRect shape0));
       max_y := hi (map top_edge (map getFrameRect rest))
                   (y (pos (getFrameRect shape0)) - height (getFrameRect shape0) / 2
                    + height (getFrameRect shape0)) |}) as (Hl & Hr & Hb & Ht).
  cbn [min_x min_y max_x max_y] in *.
  rewrite Hl, Hr, Hb, Ht. unfold left_edge, right_edge, bottom_edge, top_edge.
  repeat split; try reflexivity; apply (f_equal (hi _)); lra.
Qed.

Lemma getTotalFrameRect_main :
  getTotalFrameRect [ARectangle rectangle1; ARectangle rectangle2] =
  Some {| width := 18.5; height := 6; pos := {| x := -5.75; y := 2 |} |}.
Proof.
  unfold getTotalFrameRect. f_equal. cbn.
  unfold frame_of_bounds, total_step, Rectangle.getFrameRect, rectangle2. cbn.
  replace (Rmin (1 - 5 / 2) (-10 - 10 / 2)) with (-15)
    by (unfold Rmin; destruct Rle_dec; lra).
  replace (Rmin (2 - 6 / 2) (3 - 2 / 2)) with (-1)
    by (unfold Rmin; destruct Rle_dec; lra).
  replace (Rmax (1 - 5 / 2 + 5) (-10 + 10 / 2)) with 3.5
    by (unfold Rmax; destruct Rle_dec; lra).
  replace (Rmax (2 - 6 / 2 + 6) (3 + 2 / 2)) with 5
    by (unfold Rmax; destruct Rle_dec; lra).
  apply rectangle_eq; cbn; lra.
Qed.

(** * Further properties of the code *)

(** ** Equal shapes, and moves that change nothing *)

Lemma Rectangle_eq (r r' : Rectangle.t) :
  Rectangle.side_x r = Rectangle.side_x r' ->
  Rectangle.side_y r = Rectangle.side_y r' ->
  Rectangle.center r = Rectangle.center r' -> r = r'.
Proof. destruct r, r'; simpl; intros; subst; reflexivity. Qed.

Lemma Bubble_eq (b b' : Bubble.t) :
  Bubble.radius b = Bubble.radius b' ->
  Bubble.center b = Bubble.center b' ->
  Bubble.anchor b = Bubble.anchor b' -> b = b'.
Proof. destruct b, b'; simpl; intros; subst; reflexivity. Qed.

Lemma Polygon_eq (p p' : Polygon.t) :
  Polygon.verts p = Polygon.verts p' ->
  Polygon.center p = Polygon.center p' -> p = p'.
Proof. destruct p, p'; simpl; intros; subst; reflexivity. Qed.






(** ** [scaleByPoint] about the reference point of a shape *)

Lemma scaled_shape_well_formed p k s : well_formed s -> well_formed (scaled_shape p k s).
Proof.
  destruct s; simpl; auto. unfold Polygon.count. simpl. now rewrite length_map.
Qed.

Lemma scaleByPoint_positive shapes k p :
  0 < k -> Forall well_formed shapes ->
  scaleByPoint shapes k p = (map (scaled_shape p k) shapes, None).
Proof.
  intros Hk Hwf. unfold scaleByPoint. cmp_cases; [lra|]. f_equal.
  induction Hwf as [|s shapes Hs _ IH]; simpl; [reflexivity|].
  now rewrite IH, scaleByPoint_body_scaled.
Qed.

Lemma Forall_reachable_well_formed allowed shapes :
  Forall (reachable allowed) shapes -> Forall well_formed shapes.
Proof. apply Forall_impl. intros s. apply reachable_well_formed. Qed.

Lemma Forall_scaled_well_formed p k shapes :
  Forall well_formed shapes -> Forall well_formed (map (scaled_shape p k) shapes).
Proof.
  induction 1; simpl; constructor; auto using scaled_shape_well_formed.
Qed.



(** ** The constructor of a Rectangle *)

(** X8. [Rectangle(a, b, o)] throws [invalid_argument] exactly when [a <= 0]
    or [b <= 0]; otherwise it builds the rectangle with sides [a], [b] and
    center [o], whose area is [a * b] and whose frame is [{a, b, o}]. *)
Theorem Rectangle_ctor_spec (a b : R) (o : point_t) :
  ((exists e, Rectangle.ctor a b o = Throw e) <-> (a <= 0 \/ b <= 0)) /\
  (0 < a /\ 0 < b ->
   exists r,
     Rectangle.ctor a b o = Ok r /\
     Rectangle.side_x r = a /\ Rectangle.side_y r = b /\ Rectangle.center r = o /\
     Rectangle.getArea r = a * b /\
     Rectangle.getFrameRect r = {| width := a; height := b; pos := o |}).
Proof.
  split; [split|].
  - intros [e He]. unfold Rectangle.ctor in He.
    destruct (Rle_dec a 0) as [Ha|Ha]; [now left|].
    destruct (Rle_dec b 0) as [Hb|Hb]; [now right|].
    exfalso. revert He. cmp_cases; simpl; try discriminate; lra.
  - intros H. unfold Rectangle.ctor.
    cmp_cases; simpl; try (eexists; reflexivity); lra.
  - intros [Ha Hb]. exists (Rectangle.mk a b o).
    rewrite Rectangle_ctor_pos by assumption. repeat split.
Qed.

(** ** The total frame is the least box around all frames *)

Lemma total_frame_encloses shapes f s :
  getTotalFrameRect shapes = Some f -> In s shapes -> encloses f (getFrameRect s).
Proof.
  destruct shapes as [|shape0 rest]; [discriminate|]. intros Hf Hs.
  destruct (getTotalFrameRect_edges shape0 rest) as (f' & Hf' & Hl & Hr & Hb & Ht).
  rewrite Hf in Hf'. injection Hf' as <-.
  unfold encloses. rewrite Hl, Hr, Hb, Ht. destruct Hs as [<-|Hs].
  - auto using lo_le_start, hi_ge_start.
  - pose proof (in_map getFrameRect _ _ Hs) as Hs'.
    repeat split; [apply lo_le_in | apply hi_ge_in | apply lo_le_in | apply hi_ge_in];
      now apply in_map.
Qed.

Lemma total_frame_least shapes f g :
  getTotalFrameRect shapes = Some f ->
  (forall s, In s shapes -> encloses g (getFrameRect s)) -> encloses g f.
Proof.
  destruct shapes as [|shape0 rest]; [discriminate|]. intros Hf Hg.
  destruct (getTotalFrameRect_edges shape0 rest) as (f' & Hf' & Hl & Hr & Hb & Ht).
  rewrite Hf in Hf'. injection Hf' as <-.
  unfold encloses. rewrite Hl, Hr, Hb, Ht.
  pose proof (Hg shape0 (or_introl eq_refl)) as (H1 & H2 & H3 & H4).
  repeat split; [apply lo_greatest | apply hi_least | apply lo_greatest | apply hi_least];
    try assumption;
    intros t Ht'; apply in_map_iff in Ht' as (f' & <- & Hf');
    apply in_map_iff in Hf' as (s & <- & Hs);
    specialize (Hg s (or_intror Hs)); unfold encloses in Hg; tauto.
Qed.

Lemma total_frame_defined shapes :
  shapes <> [] -> exists f, getTotalFrameRect shapes = Some f.
Proof. destruct shapes; [congruence|]. intros _. eexists. reflexivity. Qed.

(** ** What [printShapesInfo] writes *)

Lemma printShapeInfo_app out shape name :
  printShapeInfo out shape name = out ++ printShapeInfo [] shape name.
Proof. unfold printShapeInfo. cbn [app]. now rewrite <- !app_assoc. Qed.

Lemma fold_area_start shapes a :
  fold_left (fun total shape => total + getArea shape) shapes a = a + total_area shapes.
Proof.
  unfold total_area. revert a.
  induction shapes as [|s shapes IH]; intros a; simpl; [lra|].
  rewrite IH, (IH (0 + getArea s)). lra.
Qed.

Lemma printShapesInfo_loop_spec shapes : forall names out a,
  (length shapes <= length names)%nat ->
  printShapesInfo_loop out a shapes names =
  Some (out ++ concat (map shape_block (combine shapes names)),
        fold_left (fun total shape => total + getArea shape) shapes a).
Proof.
  induction shapes as [|s shapes IH]; intros names out a Hlen.
  - simpl. now rewrite app_nil_r.
  - destruct names as [|n names]; [simpl in Hlen; lia|].
    cbn [printShapesInfo_loop]. rewrite IH by (simpl in Hlen; lia).
    cbn [combine map concat fold_left]. unfold shape_block at 2. cbn [fst snd].
    rewrite (printShapeInfo_app out). now rewrite <- !app_assoc.
Qed.

Lemma printShapesInfo_loop_short shapes : forall names out a,
  (length names < length shapes)%nat -> printShapesInfo_loop out a shapes names = None.
Proof.
  induction shapes as [|s shapes IH]; intros names out a Hlen; [simpl in Hlen; lia|].
  destruct names as [|n names]; [reflexivity|].
  cbn [printShapesInfo_loop]. apply IH. simpl in Hlen. lia.
Qed.

Lemma printShapesInfo_some out shapes names f :
  (length shapes <= length names)%nat ->
  getTotalFrameRect shapes = Some f ->
  printShapesInfo out shapes names =
  Some (out ++ concat (map shape_block (combine shapes names))
            ++ total_block (total_area shapes) f).
Proof.
  intros Hlen Hf. unfold printShapesInfo.
  rewrite printShapesInfo_loop_spec, Hf by assumption.
  rewrite fold_area_start. replace (0 + total_area shapes) with (total_area shapes) by lra.
  unfold total_block. now rewrite <- !app_assoc.
Qed.

(** X18. [printShapesInfo] has a defined result exactly when the collection
    is not empty and there is a name for every shape.  It then only appends
    to the stream: one block per shape, in order, each with the shape's
    name, area and frame, then the sum of the areas and the total frame. *)
Theorem printShapesInfo_spec (out : ostream) (shapes : list Shape) (names : list string) :
  (printShapesInfo out shapes names <> None <->
   shapes <> [] /\ (length shapes <= length names)%nat) /\
  (forall out',
      printShapesInfo out shapes names = Some out' ->
      exists f,
        getTotalFrameRect shapes = Some f /\
        out' = out ++ concat (map shape_block (combine shapes names))
                   ++ total_block (total_area shapes) f).
Proof.
  destruct (Nat.le_gt_cases (length shapes) (length names)) as [Hlen|Hlen].
  - destruct shapes as [|s0 rest].
    + split.
      * split; [|intros [H _]; congruence].
        unfold printShapesInfo. simpl. congruence.
      * unfold printShapesInfo. simpl. discriminate.
    + destruct (total_frame_defined (s0 :: rest)) as [f Hf]; [discriminate|].
      rewrite (printShapesInfo_some out _ _ f Hlen Hf). split.
      * split; [intros _; split; [discriminate | exact Hlen] | discriminate].
      * intros out' H. injection H as <-. exists f. auto.
  - unfold printShapesInfo. rewrite printShapesInfo_loop_short by assumption. split.
    + split; [congruence | intros [_ H]; lia].
    + discriminate.
Qed.

(** ** The driver *)

Lemma construct_shapes_ok : construct_shapes = Ok main_shapes.
Proof.
  unfold construct_shapes.
  rewrite rectangle1_constructed, rectangle2_constructed, polygon1_constructed,
    polygon2_constructed, bubble_constructed.
  reflexivity.
Qed.

Lemma printShapesInfo_defined out shapes names :
  shapes <> [] -> (length shapes <= length names)%nat ->
  exists out', printShapesInfo out shapes names = Some out'.
Proof.
  intros Hne Hlen. destruct (total_frame_defined shapes Hne) as [f Hf].
  eexists. apply printShapesInfo_some; eauto.
Qed.

Lemma main_invariant_scaled p k shapes :
  main_invariant shapes -> main_invariant (map (scaled_shape p k) shapes).
Proof.
  intros [Hwf Hlen]. split; [now apply Forall_scaled_well_formed|].
  now rewrite length_map.
Qed.

Lemma main_invariant_print out shapes :
  main_invariant shapes -> exists out', printShapesInfo out shapes names = Some out'.
Proof.
  intros [_ Hlen]. apply printShapesInfo_defined.
  - destruct shapes; [discriminate | discriminate].
  - rewrite Hlen. simpl. lia.
Qed.

Lemma main_loop_spec rs eof k_end : forall st,
  main_invariant (shapes_now st) ->
  exists st' code,
    main_loop rs eof k_end st = (st', Return code) /\
    shapes_now st' = scaled_by (shapes_now st) (accepted rs) /\
    (exists more, cout st' = cout st ++ more) /\
    ((code = 0%Z /\ cerr st' = cerr st /\
      all_positive rs /\ eof = true /\ k_end <> 0) \/
     (code = 1%Z /\ cerr st' = cerr st ++ [Text "bad input\n"] /\
      all_positive rs /\ (eof = false \/ k_end = 0)) \/
     (code = 1%Z /\
      cerr st' = cerr st ++ [Text "k cannot be less than or equal to zero\n"] /\
      ~ all_positive rs)).
Proof.
  induction rs as [|t rs IH]; intros st Hinv.
  - cbn [main_loop accepted]. unfold scaled_by. cbn [fold_left].
    destruct eof; cbn [negb orb].
    + destruct (Reqb k_end 0) eqn:E;
        [apply Reqb_true in E | apply Reqb_false in E];
        do 2 eexists; (split; [reflexivity|]); cbn [shapes_now cout cerr];
        (split; [reflexivity|]); (split; [exists []; now rewrite app_nil_r|]).
      * right; left. repeat split; auto. constructor.
      * left. repeat split; auto. constructor.
    + do 2 eexists. split; [reflexivity|]. cbn [shapes_now cout cerr].
      split; [reflexivity|]. split; [exists []; now rewrite app_nil_r|].
      right; left. repeat split; auto. constructor.
  - cbn [main_loop accepted].
    destruct (Rleb (tk t) 0) eqn:E; [apply Rleb_true in E | apply Rleb_false in E].
    + do 2 eexists. split; [reflexivity|]. cbn [shapes_now cout cerr].
      split; [reflexivity|]. split; [exists []; now rewrite app_nil_r|].
      right; right. repeat split; auto.
      intros H. inversion H; subst. lra.
    + destruct Hinv as [Hwf Hlen].
      rewrite (scaleByPoint_positive _ _ _ E Hwf).
      set (shapes := map (scaled_shape {| x := tx t; y := ty t |} (tk t)) (shapes_now st)).
      assert (Hinv' : main_invariant shapes) by (apply main_invariant_scaled; now split).
      destruct (main_invariant_print (cout st ++ [Text "\n\n"]) shapes Hinv') as [out Hout].
      rewrite Hout.
      assert (Hext : exists more, out = cout st ++ more).
      { destruct (printShapesInfo_spec (cout st ++ [Text "\n\n"]) shapes names) as [_ H].
        destruct (H out Hout) as (f & _ & ->).
        eexists. rewrite <- app_assoc. reflexivity. }
      destruct (IH {| cout := out ++ [Text "\n\nEnter x, y and k: "];
                      cerr := cerr st; shapes_now := shapes |} Hinv')
        as (st' & code & Hrun & Hshapes & [more Hcout] & Hcases).
      exists st', code. split; [exact Hrun|]. cbn [shapes_now cout cerr] in *.
      split; [exact Hshapes|]. split.
      * destruct Hext as [more0 ->]. rewrite Hcout. eexists.
        rewrite <- !app_assoc. reflexivity.
      * destruct Hcases as [(Hc & He & Hall & Hrest)|[(Hc & He & Hall & Hrest)|(Hc & He & Hall)]].
        -- left. repeat split; try tauto. now constructor.
        -- right; left. repeat split; try tauto. now constructor.
        -- right; right. repeat split; auto.
           intros H. apply Hall. now inversion H.
Qed.

Lemma main_invariant_start : main_invariant main_shapes.
Proof.
  split; [|reflexivity].
  apply (Forall_reachable_well_formed any_factor), main_shapes_reachable.
Qed.

Lemma main_spec input :
  exists st code,
    main input = (st, Return code) /\
    shapes_now st = scaled_by main_shapes (accepted (reads input)) /\
    ((code = 0%Z /\ cerr st = [] /\
      all_positive (reads input) /\ at_eof input = true /\ k_after input <> 0) \/
     (code = 1%Z /\ cerr st = [Text "bad input\n"] /\
      all_positive (reads input) /\ (at_eof input = false \/ k_after input = 0)) \/
     (code = 1%Z /\ cerr st = [Text "k cannot be less than or equal to zero\n"] /\
      ~ all_positive (reads input))).
Proof.
  unfold main. rewrite construct_shapes_ok.
  destruct (main_invariant_print [] main_shapes main_invariant_start) as [out Hout].
  rewrite Hout.
  destruct (main_loop_spec (reads input) (at_eof input) (k_after input)
              {| cout := out ++ [Text "\n\nEnter x, y and k: "];
                 cerr := []; shapes_now := main_shapes |} main_invariant_start)
    as (st & code & Hrun & Hshapes & _ & Hcases).
  exists st, code. split; [exact Hrun|]. split; [exact Hshapes|].
  cbn [cerr app] in Hcases. exact Hcases.
Qed.

(** X20. [main] always returns: no constructor of its five shapes throws,
    [scaleByPoint] is never called with [k <= 0] and so never throws, and no
    call is without defined result.  It returns 0 or 1, and 0 exactly when
    every triple read has [0 < k] and the input ends at end of file with
    [k] not zero.  When it returns 0 nothing is written to [std::cerr];
    when it returns 1 exactly one message is: the one about [k] if some
    triple has [k <= 0], "bad input" otherwise. *)
Theorem main_returns (input : istream) :
  exists st code,
    main input = (st, Return code) /\
    (code = 0%Z \/ code = 1%Z) /\
    (code = 0%Z <->
     all_positive (reads input) /\ at_eof input = true /\ k_after input <> 0) /\
    (code = 0%Z -> cerr st = []) /\
    (code = 1%Z -> all_positive (reads input) -> cerr st = [Text "bad input\n"]) /\
    (~ all_positive (reads input) ->
     cerr st = [Text "k cannot be less than or equal to zero\n"]).
Proof.
  destruct (main_spec input) as (st & code & Hmain & _ & Hcases).
  exists st, code. split; [exact Hmain|].
  destruct Hcases as [(-> & He & Hall & Heof & Hk)
                     |[(-> & He & Hall & Hbad)|(-> & He & Hall)]].
  - repeat split; auto; try discriminate. intros H. contradiction.
  - repeat split; auto; try discriminate; try contradiction.
    intros (_ & Heof & Hk). destruct Hbad; congruence.
  - repeat split; auto; try discriminate; try tauto.
Qed.

Lemma accepted_positive rs : all_positive (accepted rs).
Proof.
  induction rs as [|t rs IH]; cbn [accepted]; [constructor|].
  destruct (Rleb (tk t) 0) eqn:E; [constructor|].
  apply Rleb_false in E. constructor; [lra | exact IH].
Qed.

Lemma accepted_prefix ts t ts' :
  all_positive ts -> tk t <= 0 -> accepted (ts ++ t :: ts') = ts.
Proof.
  intros Hall Ht. induction Hall as [|t0 ts H0 _ IH]; cbn [app accepted].
  - destruct (Rleb (tk t) 0) eqn:E; [reflexivity|]. apply Rleb_false in E. lra.
  - destruct (Rleb (tk t0) 0) eqn:E; [apply Rleb_true in E; lra|]. now rewrite IH.
Qed.

Lemma scaled_by_calls shapes ts :
  Forall well_formed shapes -> all_positive ts ->
  scaled_by shapes ts = scaleByPoint_calls shapes ts.
Proof.
  intros Hwf Hall. revert shapes Hwf.
  induction Hall as [|t ts Ht _ IH]; intros shapes Hwf; [reflexivity|].
  unfold scaled_by, scaleByPoint_calls in *. cbn [fold_left].
  rewrite (scaleByPoint_positive shapes (tk t) _ Ht Hwf). cbn [fst].
  apply IH. now apply Forall_scaled_well_formed.
Qed.

(** X21. The shapes when [main] ends are what the calls of [scaleByPoint]
    leave of its five initial shapes, one call for each triple read before
    the first one with [k <= 0], in the order read, with the [k] and the
    point [(x, y)] of the triple; the triple with [k <= 0] and everything
    after it change nothing. *)
Theorem main_final_shapes (input : istream) :
  shapes_now (fst (main input)) =
    scaleByPoint_calls main_shapes (accepted (reads input)) /\
  (forall ts t ts',
      reads input = ts ++ t :: ts' -> all_positive ts -> tk t <= 0 ->
      shapes_now (fst (main input)) = scaleByPoint_calls main_shapes ts).
Proof.
  destruct (main_spec input) as (st & code & Hmain & Hshapes & _).
  rewrite Hmain. cbn [fst].
  assert (Hwf : Forall well_formed main_shapes) by apply main_invariant_start.
  split.
  - rewrite Hshapes. apply scaled_by_calls; [exact Hwf | apply accepted_positive].
  - intros ts t ts' Hreads Hall Ht.
    rewrite Hshapes, Hreads, accepted_prefix by assumption.
    now apply scaled_by_calls.
Qed.

(** ** The arrays behind [verts] *)

Section ListUpdate.

Context {A : Type}.

Lemma length_update (l : list A) i v : length (Heap.update l i v) = length l.
Proof.
  revert i. induction l as [|a l IH]; intros [|i]; simpl; auto.
Qed.

Lemma nth_error_update_eq (l : list A) i v :
  (i < length l)%nat -> nth_error (Heap.update l i v) i = Some v.
Proof.
  revert i. induction l as [|a l IH]; intros [|i] Hi; simpl in *; try lia; auto.
  apply IH. lia.
Qed.

Lemma nth_error_update_neq (l : list A) i j v :
  i <> j -> nth_error (Heap.update l i v) j = nth_error l j.
Proof.
  revert i j. induction l as [|a l IH]; intros [|i] [|j] H; simpl; auto; try congruence.
Qed.

Lemma update_update (l : list A) i v w :
  Heap.update (Heap.update l i v) i w = Heap.update l i w.
Proof.
  revert i. induction l as [|a l IH]; intros [|i]; simpl; auto. now rewrite IH.
Qed.

Lemma update_same (l : list A) i v : nth_error l i = Some v -> Heap.update l i v = l.
Proof.
  revert i. induction l as [|a l IH]; intros [|i] H; simpl in *; auto; try congruence.
  now rewrite IH.
Qed.

Lemma update_app_length (l : list A) c v : Heap.update (l ++ [c]) (length l) v = l ++ [v].
Proof. induction l as [|a l IH]; simpl; auto. now rewrite IH. Qed.

Lemma nth_error_app_length (l : list A) c : nth_error (l ++ [c]) (length l) = Some c.
Proof. induction l as [|a l IH]; simpl; auto. Qed.

Lemma nth_error_app_old (l : list A) c i :
  (i < length l)%nat -> nth_error (l ++ [c]) i = nth_error l i.
Proof. intros Hi. now apply nth_error_app1. Qed.

Lemma nth_error_in_range (l : list A) i v : nth_error l i = Some v -> (i < length l)%nat.
Proof. intros H. apply nth_error_Some. congruence. Qed.

End ListUpdate.

Lemma values_map_Some vs : Heap.values (map Some vs) = Some vs.
Proof. induction vs as [|v vs IH]; simpl; [reflexivity|]. now rewrite IH. Qed.

Lemma values_Some c vs : Heap.values c = Some vs -> c = map Some vs.
Proof.
  revert vs. induction c as [|e c IH]; intros vs H; simpl in H.
  - injection H as <-. reflexivity.
  - destruct e as [v|]; [|discriminate].
    destruct (Heap.values c) as [vs'|]; [|discriminate].
    injection H as <-. simpl. now rewrite (IH vs').
Qed.

Lemma view_holds st id P :
  Heap.view st id = Some P <-> exists a, holds st id a P.
Proof.
  unfold Heap.view, holds. split.
  - destruct (nth_error (Heap.objects st) id) as [[[a|] n c]|] eqn:Ho; try discriminate.
    cbn [Heap.verts Heap.count Heap.center].
    destruct (nth_error (Heap.buffers st) a) as [[cl|]|] eqn:Hb; try discriminate.
    destruct (Heap.values cl) as [vs|] eqn:Hv; try discriminate.
    destruct (Nat.eqb_spec (length vs) n) as [<-|]; try discriminate.
    intros H. injection H as <-. exists a. apply values_Some in Hv. subst cl.
    cbn [Polygon.verts Polygon.center]. split; [reflexivity | assumption].
  - intros (a & Ho & Hb). rewrite Ho. cbn [Heap.verts Heap.count Heap.center].
    rewrite Hb, values_map_Some, Nat.eqb_refl. now destruct P.
Qed.

Lemma get_object_run st id o :
  nth_error (Heap.objects st) id = Some o ->
  Heap.get_object id st = Some (Heap.Normal o, st).
Proof. unfold Heap.get_object. now intros ->. Qed.

(** One turn of a loop [dst[i] = f(src[i])], where the first [i] elements
    of [dst] are done and [rest] is what follows them. *)
Lemma update_done_prefix (done : list point_t) (rest : Heap.cell) e v n :
  n = length done ->
  Heap.update (map Some done ++ e :: rest) n (Some v)
  = map Some (done ++ [v]) ++ rest.
Proof.
  intros ->. induction done as [|d done IH]; simpl; [reflexivity|]. now rewrite IH.
Qed.

Lemma load_run bufs objs a c i v :
  nth_error bufs a = Some (Some c) -> nth_error c i = Some (Some v) ->
  Heap.load (Some a) i (Heap.mk_state bufs objs)
  = Some (Heap.Normal v, Heap.mk_state bufs objs).
Proof. unfold Heap.load. simpl. intros Ha Hc. now rewrite Ha, Hc. Qed.

Lemma store_run bufs objs a c i v :
  nth_error bufs a = Some (Some c) -> (i < length c)%nat ->
  Heap.store (Some a) i v (Heap.mk_state bufs objs)
  = Some (Heap.Normal tt,
          Heap.mk_state (Heap.update bufs a (Some (Heap.update c i (Some v)))) objs).
Proof.
  unfold Heap.store. simpl. intros Ha Hi. rewrite Ha.
  apply Nat.ltb_lt in Hi. now rewrite Hi.
Qed.

Lemma nth_error_middle (done : list point_t) v todo :
  nth_error (map Some (done ++ v :: todo)) (length done) = Some (Some v).
Proof. induction done as [|d done IH]; simpl; auto. Qed.

(** The loop [dst[i] = f(src[i])] between two different arrays. *)
Lemma transfer_loop (f : point_t -> point_t) todo : forall done bufs objs a_s a_d rest,
  a_s <> a_d ->
  nth_error bufs a_s = Some (Some (map Some (done ++ todo))) ->
  nth_error bufs a_d = Some (Some (map Some (map f done) ++ rest)) ->
  length rest = length todo ->
  Heap.for_each (seq (length done) (length todo))
                (fun i => Heap.bind (Heap.load (Some a_s) i)
                                    (fun v => Heap.store (Some a_d) i (f v)))
                (Heap.mk_state bufs objs)
  = Some (Heap.Normal tt,
          Heap.mk_state (Heap.update bufs a_d (Some (map Some (map f (done ++ todo))))) objs).
Proof.
  induction todo as [|v todo IH]; intros done bufs objs a_s a_d rest Hne Hs Hd Hlen.
  - destruct rest; [|discriminate]. cbn [length seq Heap.for_each]. unfold Heap.ret.
    rewrite !app_nil_r in *. now rewrite (update_same bufs a_d _ Hd).
  - destruct rest as [|e rest]; [discriminate|].
    cbn [length seq Heap.for_each].
    unfold Heap.bind at 1.
    unfold Heap.bind at 1.
    rewrite (load_run bufs objs a_s _ (length done) v Hs (nth_error_middle done v todo)).
    rewrite (store_run bufs objs a_d _ (length done) (f v) Hd)
      by (rewrite length_app, !length_map; simpl; lia).
    rewrite (update_done_prefix (map f done) rest e (f v) (length done))
      by (now rewrite length_map).
    replace (S (length done)) with (length (done ++ [v]))
      by (rewrite length_app; simpl; lia).
    assert (Ha : (a_d < length bufs)%nat) by (eapply nth_error_in_range; eauto).
    rewrite (IH (done ++ [v]) _ objs a_s a_d rest).
    + rewrite update_update, <- app_assoc. reflexivity.
    + exact Hne.
    + rewrite nth_error_update_neq by auto. rewrite <- app_assoc. exact Hs.
    + rewrite nth_error_update_eq by assumption. rewrite (map_app f). reflexivity.
    + simpl in Hlen. lia.
Qed.

(** The loop [a[i] = f(a[i])] within one array. *)
Lemma in_place_loop (f : point_t -> point_t) todo : forall done bufs objs a,
  nth_error bufs a = Some (Some (map Some (map f done ++ todo))) ->
  Heap.for_each (seq (length done) (length todo))
                (fun i => Heap.bind (Heap.load (Some a) i)
                                    (fun v => Heap.store (Some a) i (f v)))
                (Heap.mk_state bufs objs)
  = Some (Heap.Normal tt,
          Heap.mk_state (Heap.update bufs a (Some (map Some (map f (done ++ todo))))) objs).
Proof.
  induction todo as [|v todo IH]; intros done bufs objs a Ha.
  - cbn [length seq Heap.for_each]. unfold Heap.ret.
    rewrite !app_nil_r in *. now rewrite (update_same bufs a _ Ha).
  - cbn [length seq Heap.for_each].
    unfold Heap.bind at 1.
    unfold Heap.bind at 1.
    assert (Hl : length (map f done) = length done) by apply length_map.
    rewrite (load_run bufs objs a _ (length done) v Ha)
      by (rewrite <- Hl; apply nth_error_middle).
    rewrite (store_run bufs objs a _ (length done) (f v) Ha)
      by (rewrite length_map, length_app, length_map; simpl; lia).
    rewrite map_app. cbn [map].
    rewrite (update_done_prefix (map f done) (map Some todo) (Some v) (f v) (length done))
      by (now rewrite length_map).
    replace (S (length done)) with (length (done ++ [v]))
      by (rewrite length_app; simpl; lia).
    assert (Hlt : (a < length bufs)%nat) by (eapply nth_error_in_range; eauto).
    rewrite (IH (done ++ [v])).
    + rewrite update_update, <- app_assoc. reflexivity.
    + rewrite nth_error_update_eq by assumption.
      rewrite !map_app. cbn [map]. now rewrite <- !app_assoc.
Qed.

Lemma In_live st a :
  In a (Heap.live st) <-> exists c, nth_error (Heap.buffers st) a = Some (Some c).
Proof.
  unfold Heap.live. rewrite filter_In, in_seq. split.
  - intros [_ H]. destruct (nth_error (Heap.buffers st) a) as [[c|]|]; try discriminate.
    now exists c.
  - intros [c Hc]. rewrite Hc. split; [|reflexivity].
    apply nth_error_in_range in Hc. lia.
Qed.

Lemma not_live_fresh st : ~ In (length (Heap.buffers st)) (Heap.live st).
Proof.
  rewrite In_live. intros [c Hc]. apply nth_error_in_range in Hc. lia.
Qed.

(** The loop [a[i] = points[i]] of the constructor. *)
Lemma fill_loop todo : forall done bufs objs a rest,
  nth_error bufs a = Some (Some (map Some done ++ rest)) ->
  length rest = length todo ->
  Heap.for_each (seq (length done) (length todo))
                (fun i => Heap.store (Some a) i (nth i (done ++ todo) (mk_point 0 0)))
                (Heap.mk_state bufs objs)
  = Some (Heap.Normal tt,
          Heap.mk_state (Heap.update bufs a (Some (map Some (done ++ todo)))) objs).
Proof.
  induction todo as [|v todo IH]; intros done bufs objs a rest Ha Hlen.
  - destruct rest; [|discriminate]. cbn [length seq Heap.for_each]. unfold Heap.ret.
    rewrite !app_nil_r in *. now rewrite (update_same bufs a _ Ha).
  - destruct rest as [|e rest]; [discriminate|].
    cbn [length seq Heap.for_each]. unfold Heap.bind at 1.
    rewrite (store_run bufs objs a _ (length done) _ Ha)
      by (rewrite length_app, length_map; simpl; lia).
    rewrite (update_done_prefix done rest e _ (length done)) by reflexivity.
    rewrite app_nth2, Nat.sub_diag by lia. cbn [nth].
    replace (S (length done)) with (length (done ++ [v]))
      by (rewrite length_app; simpl; lia).
    assert (Hlt : (a < length bufs)%nat) by (eapply nth_error_in_range; eauto).
    assert (Hbody :
              (fun i => Heap.store (Some a) i (nth i (done ++ v :: todo) (mk_point 0 0)))
              = (fun i => Heap.store (Some a) i (nth i ((done ++ [v]) ++ todo) (mk_point 0 0))))
      by (now rewrite <- app_assoc).
    rewrite Hbody, (IH (done ++ [v]) _ objs a rest).
    + rewrite update_update, <- app_assoc. reflexivity.
    + now rewrite nth_error_update_eq by assumption.
    + simpl in Hlen. lia.
Qed.

Lemma read_all_run todo : forall done bufs objs a,
  nth_error bufs a = Some (Some (map Some (done ++ todo))) ->
  Heap.read_all (Some a) (seq (length done) (length todo)) (Heap.mk_state bufs objs)
  = Some (Heap.Normal todo, Heap.mk_state bufs objs).
Proof.
  induction todo as [|v todo IH]; intros done bufs objs a Ha; [reflexivity|].
  cbn [length seq Heap.read_all]. unfold Heap.bind at 1.
  rewrite (load_run bufs objs a _ (length done) v Ha (nth_error_middle done v todo)).
  unfold Heap.bind at 1.
  replace (S (length done)) with (length (done ++ [v]))
    by (rewrite length_app; simpl; lia).
  rewrite (IH (done ++ [v])) by (now rewrite <- app_assoc).
  reflexivity.
Qed.

Lemma repeat_None_length n : length (repeat (@None point_t) n) = n.
Proof. apply repeat_length. Qed.

(** ** The constructor, on the stores *)

Lemma Heap_ctor_run points bufs objs P :
  Polygon.ctor points = Ok P ->
  Heap.ctor points (Heap.mk_state bufs objs) =
  Some (Heap.Normal (length objs),
        Heap.mk_state
          (bufs ++ [Some (map Some points)])
          (objs ++ [Heap.mk_object (Some (length bufs)) (length points)
                                   (Polygon.center P)])).
Proof.
  intros HP. apply Polygon_ctor_ok in HP as (Hn & _ & Hc).
  unfold Heap.ctor. unfold Heap.bind at 1. unfold Heap.new_array.
  cbn [Heap.buffers Heap.objects].
  destruct (Nat.ltb_spec (length points) 3) as [Hlt|_]; [lia|].
  unfold Heap.bind at 1.
  rewrite (fill_loop points [] _ objs (length bufs) (repeat None (length points)))
    by (rewrite ?nth_error_app_length, ?repeat_None_length; reflexivity).
  cbn [app]. rewrite update_app_length.
  unfold Heap.bind at 1.
  rewrite (read_all_run points [] _ objs (length bufs))
    by (cbn [app]; apply nth_error_app_length).
  unfold Heap.new_object. cbn [Heap.buffers Heap.objects]. now rewrite Hc.
Qed.

Lemma holds_view st id a P : holds st id a P -> Heap.view st id = Some P.
Proof. intros H. apply view_holds. now exists a. Qed.

(** X22. On the stores, [Polygon(points, size)] allocates the array before
    it tests the count.  With fewer than three points it throws
    [invalid_argument] and creates no object, but the array it allocated
    stays alive, and no object points to it: nothing can delete it any more.
    With three points or more it creates one object that owns a new array
    with exactly the given points and whose center is their centroid, the
    Polygon that the constructor on values returns; every other array and
    every other object is left as it was. *)
Theorem Heap_ctor_spec (points : list point_t) (st : Heap.state) :
  ((length points < 3)%nat ->
   exists e st',
     Heap.ctor points st = Some (Heap.Thrown e, st') /\
     Heap.objects st' = Heap.objects st /\
     ~ In (length (Heap.buffers st)) (Heap.live st) /\
     In (length (Heap.buffers st)) (Heap.live st') /\
     (forall a, In a (Heap.live st) -> In a (Heap.live st')) /\
     (in_range st -> ~ In (length (Heap.buffers st)) (Heap.owned st'))) /\
  (forall P,
      Polygon.ctor points = Ok P ->
      exists st',
        Heap.ctor points st = Some (Heap.Normal (length (Heap.objects st)), st') /\
        Heap.buffers st' = Heap.buffers st ++ [Some (map Some points)] /\
        Heap.objects st' =
          Heap.objects st
          ++ [Heap.mk_object (Some (length (Heap.buffers st))) (length points)
                             (Polygon.center P)] /\
        Heap.view st' (length (Heap.objects st)) = Some P).
Proof.
  destruct st as [bufs objs]. cbn [Heap.buffers Heap.objects]. split.
  - intros Hlt. unfold Heap.ctor, Heap.bind, Heap.new_array, Heap.throw.
    cbn [Heap.buffers Heap.objects].
    apply Nat.ltb_lt in Hlt. rewrite Hlt.
    do 2 eexists. split; [reflexivity|]. cbn [Heap.objects].
    split; [reflexivity|]. split; [apply (not_live_fresh (Heap.mk_state bufs objs))|].
    split; [|split].
    + apply In_live. cbn [Heap.buffers]. eexists. apply nth_error_app_length.
    + intros a Ha. apply In_live in Ha as [c Hc]. apply In_live. exists c.
      cbn [Heap.buffers] in *. rewrite nth_error_app_old; auto.
      eapply nth_error_in_range; eauto.
    + intros Hr Hin. apply Hr in Hin. cbn [Heap.buffers] in Hin. lia.
  - intros P HP. eexists. split; [apply Heap_ctor_run; exact HP|].
    cbn [Heap.buffers Heap.objects]. split; [reflexivity|]. split; [reflexivity|].
    apply (holds_view _ _ (length bufs)). unfold holds. cbn [Heap.buffers Heap.objects].
    pose proof (Polygon_ctor_ok _ _ HP) as (_ & Hv & _).
    rewrite Hv, !nth_error_app_length. split; reflexivity.
Qed.

(** ** Copying *)

Lemma copy_loop vs bufs objs a_s a_d :
  a_s <> a_d ->
  nth_error bufs a_s = Some (Some (map Some vs)) ->
  nth_error bufs a_d = Some (Some (repeat None (length vs))) ->
  Heap.for_each (seq 0 (length vs))
                (fun i => Heap.bind (Heap.load (Some a_s) i)
                                    (fun v => Heap.store (Some a_d) i v))
                (Heap.mk_state bufs objs)
  = Some (Heap.Normal tt,
          Heap.mk_state (Heap.update bufs a_d (Some (map Some vs))) objs).
Proof.
  intros Hne Hs Hd.
  pose proof (transfer_loop (fun v => v) vs [] bufs objs a_s a_d
                (repeat None (length vs)) Hne Hs Hd (repeat_None_length _)) as H.
  cbn [app map length] in H. rewrite map_id in H. exact H.
Qed.

Lemma shift_loop dx dy vs bufs objs a :
  nth_error bufs a = Some (Some (map Some vs)) ->
  Heap.for_each (seq 0 (length vs))
                (fun i => Heap.bind (Heap.load (Some a) i)
                                    (fun v => Heap.store (Some a) i
                                                {| x := x v + dx; y := y v + dy |}))
                (Heap.mk_state bufs objs)
  = Some (Heap.Normal tt,
          Heap.mk_state
            (Heap.update bufs a
               (Some (map Some (map (fun v => {| x := x v + dx; y := y v + dy |}) vs))))
            objs).
Proof.
  intros Ha.
  exact (in_place_loop (fun v => {| x := x v + dx; y := y v + dy |}) vs [] bufs objs a Ha).
Qed.

Lemma set_object_run bufs objs id o o' :
  nth_error objs id = Some o ->
  Heap.set_object id o' (Heap.mk_state bufs objs)
  = Some (Heap.Normal tt, Heap.mk_state bufs (Heap.update objs id o')).
Proof. unfold Heap.set_object. simpl. now intros ->. Qed.

Lemma delete_array_run bufs objs a c :
  nth_error bufs a = Some (Some c) ->
  Heap.delete_array (Some a) (Heap.mk_state bufs objs)
  = Some (Heap.Normal tt, Heap.mk_state (Heap.update bufs a None) objs).
Proof. unfold Heap.delete_array. simpl. now intros ->. Qed.

Lemma Heap_move_by_run bufs objs id a P dx dy :
  holds (Heap.mk_state bufs objs) id a P ->
  Heap.move_by id dx dy (Heap.mk_state bufs objs) =
  Some (Heap.Normal tt,
        Heap.mk_state
          (Heap.update bufs a (Some (map Some (Polygon.verts (Polygon.move_by P dx dy)))))
          (Heap.update objs id
             (Heap.mk_object (Some a) (length (Polygon.verts P))
                             (Polygon.center (Polygon.move_by P dx dy))))).
Proof.
  intros [Ho Hb]. cbn [Heap.buffers Heap.objects] in *.
  unfold Heap.move_by. unfold Heap.bind at 1.
  rewrite (get_object_run (Heap.mk_state bufs objs) _ _ Ho). cbn [Heap.verts Heap.count Heap.center].
  unfold Heap.bind at 1.
  rewrite (shift_loop dx dy _ bufs objs a Hb).
  apply (set_object_run _ objs id _ _ Ho).
Qed.

Lemma holds_after_move_by bufs objs id a P dx dy :
  holds (Heap.mk_state bufs objs) id a P ->
  holds (Heap.mk_state
           (Heap.update bufs a (Some (map Some (Polygon.verts (Polygon.move_by P dx dy)))))
           (Heap.update objs id
              (Heap.mk_object (Some a) (length (Polygon.verts P))
                              (Polygon.center (Polygon.move_by P dx dy)))))
        id a (Polygon.move_by P dx dy).
Proof.
  intros [Ho Hb]. cbn [Heap.buffers Heap.objects] in *. split; cbn [Heap.buffers Heap.objects].
  - rewrite nth_error_update_eq by (eapply nth_error_in_range; eauto).
    cbn [Polygon.move_by Polygon.verts Polygon.center]. now rewrite length_map.
  - now rewrite nth_error_update_eq by (eapply nth_error_in_range; eauto).
Qed.

Lemma holds_elsewhere bufs objs id a P id' a' c o :
  holds (Heap.mk_state bufs objs) id a P -> id <> id' -> a <> a' ->
  holds (Heap.mk_state (Heap.update bufs a' c) (Heap.update objs id' o)) id a P.
Proof.
  intros [Ho Hb] Hid Ha. split; cbn [Heap.buffers Heap.objects] in *.
  - now rewrite nth_error_update_neq by auto.
  - now rewrite nth_error_update_neq by auto.
Qed.

Lemma holds_extended bufs objs id a P c o :
  holds (Heap.mk_state bufs objs) id a P ->
  holds (Heap.mk_state (bufs ++ [c]) (objs ++ [o])) id a P.
Proof.
  intros [Ho Hb]. split; cbn [Heap.buffers Heap.objects] in *.
  - rewrite nth_error_app_old; auto. eapply nth_error_in_range; eauto.
  - rewrite nth_error_app_old; auto. eapply nth_error_in_range; eauto.
Qed.

Lemma Heap_copy_ctor_run bufs objs p a P :
  holds (Heap.mk_state bufs objs) p a P ->
  Heap.copy_ctor p (Heap.mk_state bufs objs) =
  Some (Heap.Normal (length objs),
        Heap.mk_state
          (bufs ++ [Some (map Some (Polygon.verts P))])
          (objs ++ [Heap.mk_object (Some (length bufs)) (length (Polygon.verts P))
                                   (Polygon.center P)])).
Proof.
  intros [Ho Hb]. cbn [Heap.buffers Heap.objects] in *.
  unfold Heap.copy_ctor. unfold Heap.bind at 1.
  rewrite (get_object_run (Heap.mk_state bufs objs) _ _ Ho). cbn [Heap.verts Heap.count Heap.center].
  unfold Heap.bind at 1. unfold Heap.new_array. cbn [Heap.buffers Heap.objects].
  unfold Heap.bind at 1.
  assert (Hlt : (a < length bufs)%nat) by (eapply nth_error_in_range; eauto).
  rewrite (copy_loop (Polygon.verts P) _ objs a (length bufs)).
  - rewrite update_app_length. reflexivity.
  - lia.
  - now rewrite nth_error_app_old.
  - apply nth_error_app_length.
Qed.

(** X23. The copy constructor makes a deep copy.  From an object that owns
    an array of vertices it creates a new object with the same count and
    center and with an array of its own, at a new address, holding the same
    vertices; the source is untouched.  A [move(dx, dy)] of the copy then
    changes the copy alone: the source still has its vertices and center. *)
Theorem Heap_copy_ctor_deep (st : Heap.state) (p : nat) (P : Polygon.t) (dx dy : R) :
  Heap.view st p = Some P ->
  exists st' st'',
    Heap.copy_ctor p st = Some (Heap.Normal (length (Heap.objects st)), st') /\
    Heap.view st' (length (Heap.objects st)) = Some P /\
    Heap.view st' p = Some P /\
    (exists a a', holds st' p a P /\ holds st' (length (Heap.objects st)) a' P /\ a <> a') /\
    Heap.move_by (length (Heap.objects st)) dx dy st' = Some (Heap.Normal tt, st'') /\
    Heap.view st'' (length (Heap.objects st)) = Some (Polygon.move_by P dx dy) /\
    Heap.view st'' p = Some P.
Proof.
  intros Hv. apply view_holds in Hv as [a Hh]. destruct st as [bufs objs].
  cbn [Heap.objects].
  pose proof Hh as [Ho Hb]. cbn [Heap.buffers Heap.objects] in Ho, Hb.
  assert (Hlt : (a < length bufs)%nat) by (eapply nth_error_in_range; eauto).
  assert (Hid : (p < length objs)%nat) by (eapply nth_error_in_range; eauto).
  set (o' := Heap.mk_object (Some (length bufs)) (length (Polygon.verts P)) (Polygon.center P)).
  set (st' := Heap.mk_state (bufs ++ [Some (map Some (Polygon.verts P))]) (objs ++ [o'])).
  assert (Hp : holds st' p a P) by (now apply holds_extended).
  assert (Hn : holds st' (length objs) (length bufs) P).
  { split; cbn [Heap.buffers Heap.objects]; apply nth_error_app_length. }
  eexists st', _. split; [exact (Heap_copy_ctor_run bufs objs p a P Hh)|].
  split; [now apply (holds_view _ _ (length bufs))|].
  split; [now apply (holds_view _ _ a)|].
  split; [exists a, (length bufs); repeat split; try apply Hp; try apply Hn; lia|].
  split; [apply (Heap_move_by_run _ _ _ _ _ dx dy Hn)|].
  split.
  - apply (holds_view _ _ (length bufs)). now apply holds_after_move_by.
  - apply (holds_view _ _ a). apply holds_elsewhere; auto; lia.
Qed.

Lemma view_no_array st id n c :
  nth_error (Heap.objects st) id = Some (Heap.mk_object None n c) ->
  Heap.view st id = None.
Proof. unfold Heap.view. now intros ->. Qed.

Lemma view_dead st id a n c :
  nth_error (Heap.objects st) id = Some (Heap.mk_object (Some a) n c) ->
  nth_error (Heap.buffers st) a = Some None ->
  Heap.view st id = None.
Proof. unfold Heap.view. intros -> H. cbn [Heap.verts]. now rewrite H. Qed.

Lemma null_loop_undefined (body : point_t -> nat -> Heap.M unit) n st :
  (0 < n)%nat ->
  Heap.for_each (seq 0 n) (fun i => Heap.bind (Heap.load None i) (fun v => body v i)) st
  = None.
Proof. destruct n; [lia|]. intros _. reflexivity. Qed.

Lemma Heap_copy_ctor_deep_witness :
  exists st' st'',
    Heap.copy_ctor 0 one_polygon
    = Some (Heap.Normal (length (Heap.objects one_polygon)), st') /\
    Heap.view st' (length (Heap.objects one_polygon)) = Some polygon1 /\
    Heap.view st' 0 = Some polygon1 /\
    (exists a a',
        holds st' 0 a polygon1 /\
        holds st' (length (Heap.objects one_polygon)) a' polygon1 /\ a <> a') /\
    Heap.move_by (length (Heap.objects one_polygon)) 7 (-2) st'
    = Some (Heap.Normal tt, st'') /\
    Heap.view st'' (length (Heap.objects one_polygon))
    = Some (Polygon.move_by polygon1 7 (-2)) /\
    Heap.view st'' 0 = Some polygon1.
Proof. apply (Heap_copy_ctor_deep one_polygon 0 polygon1 7 (-2)). reflexivity. Defined.

(** X24. [move(dx, dy)] on the array in place does what [move(dx, dy)] does
    on values: the object then stands for the moved Polygon, no array is
    created or deleted.  On an object that has a count but no array (one
    that was moved from) the call has no defined result. *)
Theorem Heap_move_by_refines (st : Heap.state) (id : nat) (dx dy : R) :
  (forall P,
      Heap.view st id = Some P ->
      exists st',
        Heap.move_by id dx dy st = Some (Heap.Normal tt, st') /\
        Heap.view st' id = Some (Polygon.move_by P dx dy) /\
        (forall a, In a (Heap.live st') <-> In a (Heap.live st))) /\
  (forall n c,
      nth_error (Heap.objects st) id = Some (Heap.mk_object None n c) ->
      (0 < n)%nat ->
      Heap.move_by id dx dy st = None).
Proof.
  destruct st as [bufs objs]. split.
  - intros P Hv. apply view_holds in Hv as [a Hh].
    eexists. split; [exact (Heap_move_by_run bufs objs id a P dx dy Hh)|].
    split; [apply (holds_view _ _ a); now apply holds_after_move_by|].
    destruct Hh as [_ Hb]. cbn [Heap.buffers] in Hb.
    assert (Hlt : (a < length bufs)%nat) by (eapply nth_error_in_range; eauto).
    intros a'. rewrite !In_live. cbn [Heap.buffers].
    destruct (Nat.eq_dec a a') as [<-|Hne].
    + rewrite nth_error_update_eq by assumption. rewrite Hb.
      split; intros _; eexists; reflexivity.
    + now rewrite nth_error_update_neq by assumption.
  - intros n c Ho Hn. cbn [Heap.objects] in Ho.
    unfold Heap.move_by. unfold Heap.bind at 1.
    rewrite (get_object_run (Heap.mk_state bufs objs) _ _ Ho).
    cbn [Heap.verts Heap.count Heap.center]. unfold Heap.bind at 1.
    now rewrite (null_loop_undefined
                   (fun v i => Heap.store None i {| x := x v + dx; y := y v + dy |})).
Qed.

(** ** Destroying *)

(** X25. The destructor of an object that owns an array deletes that array
    and nothing else: the array is no longer alive, every other array is as
    alive as before, and the object stands for no Polygon any more.
    Destroying the same object a second time deletes the same array again
    and has no defined result. *)
Theorem Heap_dtor_spec (st : Heap.state) (id : nat) (P : Polygon.t) :
  Heap.view st id = Some P ->
  exists a st',
    holds st id a P /\
    Heap.dtor id st = Some (Heap.Normal tt, st') /\
    Heap.objects st' = Heap.objects st /\
    ~ In a (Heap.live st') /\
    (forall a', a' <> a -> (In a' (Heap.live st') <-> In a' (Heap.live st))) /\
    Heap.view st' id = None /\
    Heap.dtor id st' = None.
Proof.
  intros Hv. apply view_holds in Hv as [a Hh]. destruct st as [bufs objs].
  pose proof Hh as [Ho Hb]. cbn [Heap.buffers Heap.objects] in Ho, Hb.
  assert (Hlt : (a < length bufs)%nat) by (eapply nth_error_in_range; eauto).
  exists a, (Heap.mk_state (Heap.update bufs a None) objs).
  split; [exact Hh|]. split.
  { unfold Heap.dtor, Heap.bind.
    rewrite (get_object_run (Heap.mk_state bufs objs) _ _ Ho).
    cbn [Heap.verts]. apply (delete_array_run _ _ _ _ Hb). }
  split; [reflexivity|]. split.
  { rewrite In_live. cbn [Heap.buffers]. rewrite nth_error_update_eq by assumption.
    intros [c Hc]. discriminate. }
  split.
  { intros a' Hne. rewrite !In_live. cbn [Heap.buffers].
    now rewrite nth_error_update_neq by auto. }
  split.
  { eapply view_dead; cbn [Heap.buffers Heap.objects]; [exact Ho|].
    now apply nth_error_update_eq. }
  unfold Heap.dtor, Heap.bind.
  rewrite (get_object_run (Heap.mk_state (Heap.update bufs a None) objs) _ _ Ho).
  cbn [Heap.verts]. unfold Heap.delete_array. cbn [Heap.buffers].
  now rewrite nth_error_update_eq by assumption.
Qed.

Lemma Heap_dtor_spec_witness :
  exists a st',
    holds one_polygon 0 a polygon1 /\
    Heap.dtor 0 one_polygon = Some (Heap.Normal tt, st') /\
    Heap.objects st' = Heap.objects one_polygon /\
    ~ In a (Heap.live st') /\
    (forall a', a' <> a -> (In a' (Heap.live st') <-> In a' (Heap.live one_polygon))) /\
    Heap.view st' 0 = None /\
    Heap.dtor 0 st' = None.
Proof. apply (Heap_dtor_spec one_polygon 0 polygon1). reflexivity. Defined.

(** ** Assigning and moving *)

Lemma Heap_copy_assign_run bufs objs this p a_t a_p Pt Pp :
  this <> p -> a_t <> a_p ->
  holds (Heap.mk_state bufs objs) this a_t Pt ->
  holds (Heap.mk_state bufs objs) p a_p Pp ->
  Heap.copy_assign this p (Heap.mk_state bufs objs) =
  Some (Heap.Normal tt,
        Heap.mk_state
          (Heap.update (bufs ++ [Some (map Some (Polygon.verts Pp))]) a_t None)
          (Heap.update objs this
             (Heap.mk_object (Some (length bufs)) (length (Polygon.verts Pp))
                             (Polygon.center Pp)))).
Proof.
  intros Hid Ha [Hot Hbt] [Hop Hbp]. cbn [Heap.buffers Heap.objects] in *.
  unfold Heap.copy_assign.
  destruct (Nat.eqb_spec this p) as [E|_]; [contradiction|].
  unfold Heap.bind at 1.
  rewrite (get_object_run (Heap.mk_state bufs objs) _ _ Hop).
  cbn [Heap.verts Heap.count Heap.center].
  unfold Heap.bind at 1. unfold Heap.new_array. cbn [Heap.buffers Heap.objects].
  assert (Hlp : (a_p < length bufs)%nat) by (eapply nth_error_in_range; eauto).
  assert (Hlt : (a_t < length bufs)%nat) by (eapply nth_error_in_range; eauto).
  unfold Heap.bind at 1.
  rewrite (copy_loop (Polygon.verts Pp) _ objs a_p (length bufs));
    [|lia | now rewrite nth_error_app_old | apply nth_error_app_length].
  rewrite update_app_length.
  unfold Heap.bind at 1.
  rewrite (get_object_run (Heap.mk_state _ objs) _ _ Hot). cbn [Heap.verts].
  unfold Heap.bind at 1.
  rewrite (delete_array_run _ objs a_t (map Some (Polygon.verts Pt)))
    by (now rewrite nth_error_app_old).
  apply (set_object_run _ objs this _ _ Hot).
Qed.

(** X26. Copy assignment [*this = p] between two different objects that own
    different arrays gives [*this] a new array with the vertices of [p], and
    the count and center of [p]; it deletes the array that [*this] owned
    before, so nothing leaks; [p] is untouched.  Assigning an object to
    itself changes nothing at all. *)
Theorem Heap_copy_assign_spec (st : Heap.state) (this p : nat) (Pt Pp : Polygon.t) :
  (forall a_t a_p,
      this <> p -> a_t <> a_p -> holds st this a_t Pt -> holds st p a_p Pp ->
      exists st',
        Heap.copy_assign this p st = Some (Heap.Normal tt, st') /\
        Heap.view st' this = Some Pp /\
        Heap.view st' p = Some Pp /\
        holds st' this (length (Heap.buffers st)) Pp /\
        holds st' p a_p Pp /\
        ~ In a_t (Heap.live st') /\
        (forall a, a <> a_t -> a <> length (Heap.buffers st) ->
                   (In a (Heap.live st') <-> In a (Heap.live st)))) /\
  Heap.copy_assign p p st = Some (Heap.Normal tt, st).
Proof.
  split.
  - intros a_t a_p Hid Ha Ht Hp. destruct st as [bufs objs].
    eexists. split; [exact (Heap_copy_assign_run _ _ _ _ _ _ _ _ Hid Ha Ht Hp)|].
    destruct Ht as [Hot Hbt], Hp as [Hop Hbp]. cbn [Heap.buffers Heap.objects] in *.
    assert (Hlp : (a_p < length bufs)%nat) by (eapply nth_error_in_range; eauto).
    assert (Hlt : (a_t < length bufs)%nat) by (eapply nth_error_in_range; eauto).
    assert (Hit : (this < length objs)%nat) by (eapply nth_error_in_range; eauto).
    assert (H1 : holds
                   (Heap.mk_state
                      (Heap.update (bufs ++ [Some (map Some (Polygon.verts Pp))]) a_t None)
                      (Heap.update objs this
                         (Heap.mk_object (Some (length bufs)) (length (Polygon.verts Pp))
                                         (Polygon.center Pp))))
                   this (length bufs) Pp).
    { split; cbn [Heap.buffers Heap.objects].
      - now apply nth_error_update_eq.
      - rewrite nth_error_update_neq by lia. apply nth_error_app_length. }
    assert (H2 : holds
                   (Heap.mk_state
                      (Heap.update (bufs ++ [Some (map Some (Polygon.verts Pp))]) a_t None)
                      (Heap.update objs this
                         (Heap.mk_object (Some (length bufs)) (length (Polygon.verts Pp))
                                         (Polygon.center Pp))))
                   p a_p Pp).
    { split; cbn [Heap.buffers Heap.objects].
      - now rewrite nth_error_update_neq by auto.
      - rewrite nth_error_update_neq by auto. now rewrite nth_error_app_old. }
    split; [exact (holds_view _ _ _ _ H1)|]. split; [exact (holds_view _ _ _ _ H2)|].
    split; [exact H1|]. split; [exact H2|]. split.
    + rewrite In_live. cbn [Heap.buffers].
      rewrite nth_error_update_eq by (rewrite length_app; simpl; lia).
      intros [c Hc]. discriminate.
    + intros a Hne1 Hne2. rewrite !In_live. cbn [Heap.buffers].
      rewrite nth_error_update_neq by auto.
      destruct (Nat.lt_ge_cases a (length bufs)) as [Hl|Hl].
      * now rewrite nth_error_app_old.
      * assert (Hn1 : nth_error (bufs ++ [Some (map Some (Polygon.verts Pp))]) a = None)
          by (apply nth_error_None; rewrite length_app; simpl; lia).
        assert (Hn2 : nth_error bufs a = None) by (apply nth_error_None; lia).
        rewrite Hn1, Hn2. reflexivity.
  - unfold Heap.copy_assign. now rewrite Nat.eqb_refl.
Qed.

Lemma Heap_move_ctor_run bufs objs p a P :
  holds (Heap.mk_state bufs objs) p a P ->
  Heap.move_ctor p (Heap.mk_state bufs objs) =
  Some (Heap.Normal (length objs),
        Heap.mk_state bufs
          (Heap.update
             (objs ++ [Heap.mk_object (Some a) (length (Polygon.verts P)) (Polygon.center P)])
             p (Heap.mk_object None (length (Polygon.verts P)) (Polygon.center P)))).
Proof.
  intros [Ho Hb]. cbn [Heap.buffers Heap.objects] in *.
  unfold Heap.move_ctor. unfold Heap.bind at 1.
  rewrite (get_object_run (Heap.mk_state bufs objs) _ _ Ho).
  cbn [Heap.verts Heap.count Heap.center].
  unfold Heap.bind at 1. unfold Heap.new_object. cbn [Heap.buffers Heap.objects].
  unfold Heap.bind at 1.
  rewrite (set_object_run bufs _ p
             (Heap.mk_object (Some a) (length (Polygon.verts P)) (Polygon.center P)))
    by (rewrite nth_error_app_old; [exact Ho | eapply nth_error_in_range; eauto]).
  reflexivity.
Qed.

(** X27. The move constructor hands the array over without copying: the new
    object owns the very array the source owned and stands for the same
    Polygon; no array is created or deleted.  The source keeps its count and
    center but its pointer is [nullptr], so it stands for no Polygon;
    destroying it is harmless ([delete []] of [nullptr]), while copying it
    or moving it by [(dx, dy)], when its count is not zero, reads through
    [nullptr] and has no defined result. *)
Theorem Heap_move_ctor_spec (st : Heap.state) (p : nat) (P : Polygon.t) :
  Heap.view st p = Some P ->
  exists a st',
    holds st p a P /\
    Heap.move_ctor p st = Some (Heap.Normal (length (Heap.objects st)), st') /\
    Heap.buffers st' = Heap.buffers st /\
    holds st' (length (Heap.objects st)) a P /\
    Heap.view st' (length (Heap.objects st)) = Some P /\
    nth_error (Heap.objects st') p =
      Some (Heap.mk_object None (length (Polygon.verts P)) (Polygon.center P)) /\
    Heap.view st' p = None /\
    Heap.dtor p st' = Some (Heap.Normal tt, st') /\
    ((0 < length (Polygon.verts P))%nat ->
     Heap.copy_ctor p st' = None /\ forall dx dy, Heap.move_by p dx dy st' = None).
Proof.
  intros Hv. apply view_holds in Hv as [a Hh]. destruct st as [bufs objs].
  pose proof Hh as [Ho Hb]. cbn [Heap.buffers Heap.objects] in Ho, Hb.
  assert (Hip : (p < length objs)%nat) by (eapply nth_error_in_range; eauto).
  set (n := length (Polygon.verts P)). set (c := Polygon.center P).
  set (st' := Heap.mk_state bufs
                (Heap.update (objs ++ [Heap.mk_object (Some a) n c]) p
                             (Heap.mk_object None n c))).
  assert (Hsrc : nth_error (Heap.objects st') p = Some (Heap.mk_object None n c)).
  { cbn [Heap.objects st']. apply nth_error_update_eq. rewrite length_app. simpl. lia. }
  assert (Hnew : holds st' (length objs) a P).
  { split; cbn [Heap.buffers Heap.objects st']; [|exact Hb].
    rewrite nth_error_update_neq by lia. apply nth_error_app_length. }
  exists a, st'. split; [exact Hh|].
  split; [exact (Heap_move_ctor_run bufs objs p a P Hh)|].
  split; [reflexivity|]. split; [exact Hnew|].
  split; [exact (holds_view _ _ _ _ Hnew)|]. split; [exact Hsrc|].
  split; [exact (view_no_array _ _ _ _ Hsrc)|]. split.
  { unfold Heap.dtor, Heap.bind. rewrite (get_object_run st' _ _ Hsrc). reflexivity. }
  intros Hn. split.
  - unfold Heap.copy_ctor. unfold Heap.bind at 1.
    rewrite (get_object_run st' _ _ Hsrc). cbn [Heap.verts Heap.count Heap.center].
    unfold Heap.bind at 1. unfold Heap.new_array. unfold Heap.bind at 1.
    now rewrite (null_loop_undefined
                   (fun v i => Heap.store (Some (length (Heap.buffers st'))) i v)).
  - intros dx dy. unfold Heap.move_by. unfold Heap.bind at 1.
    rewrite (get_object_run st' _ _ Hsrc). cbn [Heap.verts Heap.count Heap.center].
    unfold Heap.bind at 1.
    now rewrite (null_loop_undefined
                   (fun v i => Heap.store None i {| x := x v + dx; y := y v + dy |})).
Qed.

Lemma Heap_move_ctor_spec_witness :
  exists a st',
    holds one_polygon 0 a polygon1 /\
    Heap.move_ctor 0 one_polygon
    = Some (Heap.Normal (length (Heap.objects one_polygon)), st') /\
    Heap.buffers st' = Heap.buffers one_polygon /\
    holds st' (length (Heap.objects one_polygon)) a polygon1 /\
    Heap.view st' (length (Heap.objects one_polygon)) = Some polygon1 /\
    nth_error (Heap.objects st') 0 =
      Some (Heap.mk_object None (length (Polygon.verts polygon1)) (Polygon.center polygon1)) /\
    Heap.view st' 0 = None /\
    Heap.dtor 0 st' = Some (Heap.Normal tt, st') /\
    ((0 < length (Polygon.verts polygon1))%nat ->
     Heap.copy_ctor 0 st' = None /\ forall dx dy, Heap.move_by 0 dx dy st' = None).
Proof. apply (Heap_move_ctor_spec one_polygon 0 polygon1). reflexivity. Defined.

Lemma Heap_copy_assign_spec_witness :
  exists st',
    Heap.copy_assign 0 1 two_polygons = Some (Heap.Normal tt, st') /\
    Heap.view st' 0 = Some polygon2 /\
    Heap.view st' 1 = Some polygon2 /\
    holds st' 0 (length (Heap.buffers two_polygons)) polygon2 /\
    holds st' 1 1 polygon2 /\
    ~ In 0%nat (Heap.live st') /\
    (forall a, a <> 0%nat -> a <> length (Heap.buffers two_polygons) ->
               (In a (Heap.live st') <-> In a (Heap.live two_polygons))).
Proof.
  apply (proj1 (Heap_copy_assign_spec two_polygons 0 1 polygon1 polygon2) 0%nat 1%nat).
  - discriminate.
  - discriminate.
  - split; reflexivity.
  - split; reflexivity.
Defined.

Lemma Heap_move_assign_run bufs objs this p a_t a_p Pt Pp :
  this <> p -> a_t <> a_p ->
  holds (Heap.mk_state bufs objs) this a_t Pt ->
  holds (Heap.mk_state bufs objs) p a_p Pp ->
  Heap.move_assign this p (Heap.mk_state bufs objs) =
  Some (Heap.Normal tt,
        Heap.mk_state
          (Heap.update bufs a_t None)
          (Heap.update
             (Heap.update objs this
                (Heap.mk_object (Some a_p) (length (Polygon.verts Pp)) (Polygon.center Pp)))
             p (Heap.mk_object None (length (Polygon.verts Pp)) (Polygon.center Pp)))).
Proof.
  intros Hid Ha [Hot Hbt] [Hop Hbp]. cbn [Heap.buffers Heap.objects] in *.
  unfold Heap.move_assign.
  destruct (Nat.eqb_spec this p) as [E|_]; [contradiction|].
  unfold Heap.bind at 1.
  rewrite (get_object_run (Heap.mk_state bufs objs) _ _ Hot). cbn [Heap.verts].
  unfold Heap.bind at 1.
  rewrite (delete_array_run bufs objs a_t _ Hbt).
  unfold Heap.bind at 1.
  rewrite (get_object_run (Heap.mk_state _ objs) _ _ Hop).
  cbn [Heap.verts Heap.count Heap.center].
  unfold Heap.bind at 1.
  rewrite (set_object_run _ objs this _ _ Hot).
  apply (set_object_run _ _ p
           (Heap.mk_object (Some a_p) (length (Polygon.verts Pp)) (Polygon.center Pp))).
  now rewrite nth_error_update_neq by auto.
Qed.

(** X28. Move assignment [*this = std::move(p)] between two different objects
    that own different arrays deletes the array that [*this] owned and
    hands it the array of [p], with the count and center of [p]: [*this]
    then stands for the Polygon that [p] stood for, [p] is left with
    [nullptr] and stands for none, and no array is created.  Moving an
    object into itself changes nothing at all. *)
Theorem Heap_move_assign_spec (st : Heap.state) (this p : nat) (Pt Pp : Polygon.t) :
  (forall a_t a_p,
      this <> p -> a_t <> a_p -> holds st this a_t Pt -> holds st p a_p Pp ->
      exists st',
        Heap.move_assign this p st = Some (Heap.Normal tt, st') /\
        holds st' this a_p Pp /\
        Heap.view st' this = Some Pp /\
        Heap.view st' p = None /\
        length (Heap.buffers st') = length (Heap.buffers st) /\
        ~ In a_t (Heap.live st') /\
        (forall a, a <> a_t -> (In a (Heap.live st') <-> In a (Heap.live st)))) /\
  Heap.move_assign p p st = Some (Heap.Normal tt, st).
Proof.
  split.
  - intros a_t a_p Hid Ha Ht Hp. destruct st as [bufs objs].
    eexists. split; [exact (Heap_move_assign_run _ _ _ _ _ _ _ _ Hid Ha Ht Hp)|].
    destruct Ht as [Hot Hbt], Hp as [Hop Hbp]. cbn [Heap.buffers Heap.objects] in *.
    assert (Hlp : (a_p < length bufs)%nat) by (eapply nth_error_in_range; eauto).
    assert (Hlt : (a_t < length bufs)%nat) by (eapply nth_error_in_range; eauto).
    assert (Hit : (this < length objs)%nat) by (eapply nth_error_in_range; eauto).
    assert (Hip : (p < length objs)%nat) by (eapply nth_error_in_range; eauto).
    set (st' := Heap.mk_state _ _).
    assert (H1 : holds st' this a_p Pp).
    { split; cbn [Heap.buffers Heap.objects st'].
      - rewrite nth_error_update_neq by auto. now apply nth_error_update_eq.
      - now rewrite nth_error_update_neq by auto. }
    split; [exact H1|]. split; [exact (holds_view _ _ _ _ H1)|]. split.
    { apply (view_no_array st' p (length (Polygon.verts Pp)) (Polygon.center Pp)).
      cbn [Heap.objects st']. apply nth_error_update_eq. now rewrite length_update. }
    split; [cbn [Heap.buffers st']; apply length_update|]. split.
    + rewrite In_live. cbn [Heap.buffers st']. rewrite nth_error_update_eq by assumption.
      intros [c Hc]. discriminate.
    + intros a Hne. rewrite !In_live. cbn [Heap.buffers st'].
      now rewrite nth_error_update_neq by auto.
  - unfold Heap.move_assign. now rewrite Nat.eqb_refl.
Qed.

Lemma Heap_move_assign_spec_witness :
  exists st',
    Heap.move_assign 0 1 two_polygons = Some (Heap.Normal tt, st') /\
    holds st' 0 1 polygon2 /\
    Heap.view st' 0 = Some polygon2 /\
    Heap.view st' 1 = None /\
    length (Heap.buffers st') = length (Heap.buffers two_polygons) /\
    ~ In 0%nat (Heap.live st') /\
    (forall a, a <> 0%nat -> (In a (Heap.live st') <-> In a (Heap.live two_polygons))).
Proof.
  apply (proj1 (Heap_move_assign_spec two_polygons 0 1 polygon1 polygon2) 0%nat 1%nat).
  - discriminate.
  - discriminate.
  - split; reflexivity.
  - split; reflexivity.
Defined.

(** ** Ownership of the arrays is exclusive *)

Lemma bind_inv {A B : Type} (c : Heap.M A) (k : A -> Heap.M B) st r st' :
  Heap.bind c k st = Some (r, st') ->
  (exists e, c st = Some (Heap.Thrown e, st') /\ r = Heap.Thrown e) \/
  (exists a st1, c st = Some (Heap.Normal a, st1) /\ k a st1 = Some (r, st')).
Proof.
  unfold Heap.bind. destruct (c st) as [[[a|e] st1]|]; intros H; try discriminate.
  - right. now exists a, st1.
  - left. injection H as <- <-. now exists e.
Qed.

Lemma keeps_ret {A : Type} (a : A) : keeps (Heap.ret a).
Proof. intros st r st' H. injection H as _ <-. auto. Qed.

Lemma keeps_load p i : keeps (Heap.load p i).
Proof.
  intros st r st'. unfold Heap.load.
  destruct p as [a|]; [|discriminate].
  destruct (nth_error (Heap.buffers st) a) as [[c|]|]; try discriminate.
  destruct (nth_error c i) as [[v|]|]; try discriminate.
  intros H. injection H as _ <-. auto.
Qed.

Lemma keeps_store p i v : keeps (Heap.store p i v).
Proof.
  intros st r st'. unfold Heap.store.
  destruct p as [a|]; [|discriminate].
  destruct (nth_error (Heap.buffers st) a) as [[c|]|]; try discriminate.
  destruct (i <? length c)%nat; try discriminate.
  intros H. injection H as _ <-. cbn [Heap.objects Heap.buffers].
  split; [reflexivity | apply length_update].
Qed.

Lemma keeps_delete_array p : keeps (Heap.delete_array p).
Proof.
  intros st r st'. unfold Heap.delete_array.
  destruct p as [a|]; [|intros H; injection H as _ <-; auto].
  destruct (nth_error (Heap.buffers st) a) as [[c|]|]; try discriminate.
  intros H. injection H as _ <-. cbn [Heap.objects Heap.buffers].
  split; [reflexivity | apply length_update].
Qed.

Lemma keeps_get_object id : keeps (Heap.get_object id).
Proof.
  intros st r st'. unfold Heap.get_object.
  destruct (nth_error (Heap.objects st) id); try discriminate.
  intros H. injection H as _ <-. auto.
Qed.

Lemma keeps_bind {A B : Type} (c : Heap.M A) (k : A -> Heap.M B) :
  keeps c -> (forall a, keeps (k a)) -> keeps (Heap.bind c k).
Proof.
  intros Hc Hk st r st' H. apply bind_inv in H as [(e & H & _)|(a & st1 & H1 & H2)].
  - exact (Hc _ _ _ H).
  - destruct (Hc _ _ _ H1) as [E1 E2]. destruct (Hk a _ _ _ H2) as [E3 E4].
    split; congruence.
Qed.

Lemma keeps_for_each indices body :
  (forall i, keeps (body i)) -> keeps (Heap.for_each indices body).
Proof.
  intros Hb. induction indices as [|i indices IH]; cbn [Heap.for_each].
  - apply keeps_ret.
  - apply keeps_bind; auto.
Qed.

Lemma keeps_read_all p indices : keeps (Heap.read_all p indices).
Proof.
  induction indices as [|i indices IH]; cbn [Heap.read_all].
  - apply keeps_ret.
  - apply keeps_bind; [apply keeps_load|]. intros v.
    apply keeps_bind; [exact IH|]. intros vs. apply keeps_ret.
Qed.

Lemma get_object_inv id st r st' :
  Heap.get_object id st = Some (r, st') ->
  exists o, nth_error (Heap.objects st) id = Some o /\ r = Heap.Normal o /\ st' = st.
Proof.
  unfold Heap.get_object. destruct (nth_error (Heap.objects st) id) as [o|]; [|discriminate].
  intros H. injection H as <- <-. now exists o.
Qed.

Lemma set_object_inv id o st r st' :
  Heap.set_object id o st = Some (r, st') ->
  (id < length (Heap.objects st))%nat /\
  Heap.objects st' = Heap.update (Heap.objects st) id o /\
  Heap.buffers st' = Heap.buffers st.
Proof.
  unfold Heap.set_object.
  destruct (nth_error (Heap.objects st) id) as [o0|] eqn:E; [|discriminate].
  intros H. injection H as _ <-. cbn. split; auto. eapply nth_error_in_range; eauto.
Qed.

Lemma new_array_inv n st r st' :
  Heap.new_array n st = Some (r, st') ->
  r = Heap.Normal (length (Heap.buffers st)) /\
  Heap.objects st' = Heap.objects st /\
  length (Heap.buffers st') = S (length (Heap.buffers st)).
Proof.
  unfold Heap.new_array. intros H. injection H as <- <-. cbn.
  rewrite length_app. simpl. repeat split. lia.
Qed.

Lemma new_object_inv o st r st' :
  Heap.new_object o st = Some (r, st') ->
  Heap.objects st' = Heap.objects st ++ [o] /\ Heap.buffers st' = Heap.buffers st.
Proof. unfold Heap.new_object. intros H. injection H as _ <-. auto. Qed.

Lemma throw_inv {A : Type} e st (r : Heap.outcome A) st' :
  Heap.throw e st = Some (r, st') -> st' = st.
Proof. unfold Heap.throw. intros H. now injection H as _ <-. Qed.

Lemma ret_inv {A : Type} (a : A) st r st' : Heap.ret a st = Some (r, st') -> st' = st.
Proof. unfold Heap.ret. intros H. now injection H as _ <-. Qed.

Lemma keeps_copy_body p a i :
  keeps (Heap.bind (Heap.load p i) (fun v => Heap.store (Some a) i v)).
Proof. apply keeps_bind; [apply keeps_load | intros v; apply keeps_store]. Qed.

Lemma effect_ctor points st r st' :
  Heap.ctor points st = Some (r, st') -> effect st st'.
Proof.
  unfold Heap.ctor. intros H.
  apply bind_inv in H as [(e & H & _)|(a & st1 & H1 & H)].
  { apply new_array_inv in H as (E & _). discriminate. }
  apply new_array_inv in H1 as (Ea & Eo1 & El1). injection Ea as ->.
  destruct (length points <? 3)%nat.
  { apply throw_inv in H. subst st'. apply effect_none; [exact Eo1 | lia]. }
  apply bind_inv in H as [(e & H & _)|(u & st2 & H2 & H)].
  { destruct (keeps_for_each _ _ (fun i => keeps_store _ i _) _ _ _ H) as [E1 E2].
    apply effect_none; [congruence | lia]. }
  destruct (keeps_for_each _ _ (fun i => keeps_store _ i _) _ _ _ H2) as [Eo2 El2].
  apply bind_inv in H as [(e & H & _)|(vs & st3 & H3 & H)].
  { destruct (keeps_read_all _ _ _ _ _ H) as [E1 E2].
    apply effect_none; [congruence | lia]. }
  destruct (keeps_read_all _ _ _ _ _ H3) as [Eo3 El3].
  apply new_object_inv in H as [Eo Eb].
  eapply effect_new_object.
  - rewrite Eo, Eo3, Eo2, Eo1. reflexivity.
  - rewrite Eb. lia.
Qed.

Lemma effect_dtor this st r st' :
  Heap.dtor this st = Some (r, st') -> effect st st'.
Proof.
  intros H.
  assert (K : keeps (Heap.dtor this)).
  { apply keeps_bind; [apply keeps_get_object | intros t; apply keeps_delete_array]. }
  destruct (K _ _ _ H) as [E1 E2]. apply effect_none; [exact E1 | lia].
Qed.

Lemma effect_copy_ctor p st r st' :
  Heap.copy_ctor p st = Some (r, st') -> effect st st'.
Proof.
  unfold Heap.copy_ctor. intros H.
  apply bind_inv in H as [(e & H & _)|(src & st0 & H0 & H)].
  { apply get_object_inv in H as (o & _ & E & _). discriminate. }
  apply get_object_inv in H0 as (o & Ho & E & ->). injection E as ->.
  apply bind_inv in H as [(e & H & _)|(a & st1 & H1 & H)].
  { apply new_array_inv in H as (E & _). discriminate. }
  apply new_array_inv in H1 as (Ea & Eo1 & El1). injection Ea as ->.
  apply bind_inv in H as [(e & H & _)|(u & st2 & H2 & H)].
  { destruct (keeps_for_each _ _ (fun i => keeps_copy_body _ _ i) _ _ _ H) as [E1 E2].
    apply effect_none; [congruence | lia]. }
  destruct (keeps_for_each _ _ (fun i => keeps_copy_body _ _ i) _ _ _ H2) as [Eo2 El2].
  apply new_object_inv in H as [Eo Eb].
  eapply effect_new_object.
  - rewrite Eo, Eo2, Eo1. reflexivity.
  - rewrite Eb. lia.
Qed.

Lemma effect_copy_assign this p st r st' :
  Heap.copy_assign this p st = Some (r, st') -> effect st st'.
Proof.
  unfold Heap.copy_assign. intros H.
  destruct (this =? p)%nat.
  { apply ret_inv in H. subst st'. apply effect_none; auto. }
  apply bind_inv in H as [(e & H & _)|(src & st0 & H0 & H)].
  { apply get_object_inv in H as (o & _ & E & _). discriminate. }
  apply get_object_inv in H0 as (o & Ho & E & ->). injection E as ->.
  apply bind_inv in H as [(e & H & _)|(a & st1 & H1 & H)].
  { apply new_array_inv in H as (E & _). discriminate. }
  apply new_array_inv in H1 as (Ea & Eo1 & El1). injection Ea as ->.
  apply bind_inv in H as [(e & H & _)|(u & st2 & H2 & H)].
  { destruct (keeps_for_each _ _ (fun i => keeps_copy_body _ _ i) _ _ _ H) as [E1 E2].
    apply effect_none; [congruence | lia]. }
  destruct (keeps_for_each _ _ (fun i => keeps_copy_body _ _ i) _ _ _ H2) as [Eo2 El2].
  apply bind_inv in H as [(e & H & _)|(t & st3 & H3 & H)].
  { apply get_object_inv in H as (t & _ & E & _). discriminate. }
  apply get_object_inv in H3 as (t' & Ht & E & ->). injection E as ->.
  apply bind_inv in H as [(e & H & _)|(u' & st4 & H4 & H)].
  { destruct (keeps_delete_array _ _ _ _ H) as [E1 E2].
    apply effect_none; [congruence | lia]. }
  destruct (keeps_delete_array _ _ _ _ H4) as [Eo4 El4].
  apply set_object_inv in H as (Hlt & Eo & Eb).
  eapply effect_repoint.
  - rewrite Eo4, Eo2, Eo1 in Hlt. exact Hlt.
  - rewrite Eo, Eo4, Eo2, Eo1. reflexivity.
  - rewrite Eb. lia.
Qed.

Lemma effect_move_ctor p st r st' :
  Heap.move_ctor p st = Some (r, st') -> effect st st'.
Proof.
  unfold Heap.move_ctor. intros H.
  apply bind_inv in H as [(e & H & _)|(src & st0 & H0 & H)].
  { apply get_object_inv in H as (o & _ & E & _). discriminate. }
  apply get_object_inv in H0 as (o & Ho & E & ->). injection E as ->.
  apply bind_inv in H as [(e & H & _)|(this & st1 & H1 & H)].
  { unfold Heap.new_object in H. discriminate. }
  apply new_object_inv in H1 as [Eo1 Eb1].
  apply bind_inv in H as [(e & H & _)|(u & st2 & H2 & H)].
  { unfold Heap.set_object in H.
    destruct (nth_error (Heap.objects st1) p); discriminate. }
  apply set_object_inv in H2 as (_ & Eo2 & Eb2).
  apply ret_inv in H. subst st'.
  eapply effect_move_new; [exact Ho | | congruence].
  rewrite Eo2, Eo1. reflexivity.
Qed.

Lemma effect_move_assign this p st r st' :
  Heap.move_assign this p st = Some (r, st') -> effect st st'.
Proof.
  unfold Heap.move_assign. intros H.
  destruct (Nat.eqb_spec this p) as [_|Hne].
  { apply ret_inv in H. subst st'. apply effect_none; auto. }
  apply bind_inv in H as [(e & H & _)|(t & st0 & H0 & H)].
  { apply get_object_inv in H as (o & _ & E & _). discriminate. }
  apply get_object_inv in H0 as (t' & Ht & E & ->). injection E as ->.
  apply bind_inv in H as [(e & H & _)|(u & st1 & H1 & H)].
  { destruct (keeps_delete_array _ _ _ _ H) as [E1 E2].
    apply effect_none; [congruence | lia]. }
  destruct (keeps_delete_array _ _ _ _ H1) as [Eo1 El1].
  apply bind_inv in H as [(e & H & _)|(src & st2 & H2 & H)].
  { apply get_object_inv in H as (o & _ & E & _). discriminate. }
  apply get_object_inv in H2 as (o & Ho & E & ->). injection E as ->.
  apply bind_inv in H as [(e & H & _)|(u' & st3 & H3 & H)].
  { unfold Heap.set_object in H.
    destruct (nth_error (Heap.objects st1) this); discriminate. }
  apply set_object_inv in H3 as (Hlt & Eo3 & Eb3).
  apply set_object_inv in H as (_ & Eo & Eb).
  eapply (effect_move_into st st' this p o Hne).
  - rewrite Eo1 in Hlt. exact Hlt.
  - rewrite <- Eo1. exact Ho.
  - rewrite Eo, Eo3, Eo1. reflexivity.
  - rewrite Eb, Eb3. exact El1.
Qed.

Lemma effect_move_by this dx dy st r st' :
  Heap.move_by this dx dy st = Some (r, st') -> effect st st'.
Proof.
  unfold Heap.move_by. intros H.
  apply bind_inv in H as [(e & H & _)|(t & st0 & H0 & H)].
  { apply get_object_inv in H as (o & _ & E & _). discriminate. }
  apply get_object_inv in H0 as (t' & Ht & E & ->). injection E as ->.
  assert (K : forall i,
             keeps (Heap.bind (Heap.load (Heap.verts t') i)
                      (fun v => Heap.store (Heap.verts t') i
                                  {| x := x v + dx; y := y v + dy |}))).
  { intros i. apply keeps_bind; [apply keeps_load | intros v; apply keeps_store]. }
  apply bind_inv in H as [(e & H & _)|(u & st1 & H1 & H)].
  { destruct (keeps_for_each _ _ K _ _ _ H) as [E1 E2].
    apply effect_none; [congruence | lia]. }
  destruct (keeps_for_each _ _ K _ _ _ H1) as [Eo1 El1].
  apply set_object_inv in H as (_ & Eo & Eb).
  eapply (effect_same_pointer st st' this t'); [exact Ht | | congruence].
  rewrite Eo, Eo1. reflexivity.
Qed.

Lemma points_to_app objs o id a :
  points_to (objs ++ [o]) id a <->
  points_to objs id a \/ (id = length objs /\ Heap.verts o = Some a).
Proof.
  unfold points_to. destruct (Nat.lt_trichotomy id (length objs)) as [Hlt|[->|Hgt]].
  - rewrite nth_error_app_old by assumption. split; [auto | intros [H|[E _]]; [auto | lia]].
  - rewrite nth_error_app_length. split.
    + intros (o' & E & Hv). injection E as <-. auto.
    + intros [(o' & E & _)|[_ Hv]]; [|now exists o].
      apply nth_error_in_range in E. lia.
  - assert (E1 : nth_error (objs ++ [o]) id = None)
      by (apply nth_error_None; rewrite length_app; simpl; lia).
    assert (E2 : nth_error objs id = None) by (apply nth_error_None; lia).
    rewrite E1, E2. split.
    + intros (o' & E & _). discriminate.
    + intros [(o' & E & _)|[E _]]; [discriminate | lia].
Qed.

Lemma points_to_update objs i o id a :
  (i < length objs)%nat ->
  (points_to (Heap.update objs i o) id a <->
   (id <> i /\ points_to objs id a) \/ (id = i /\ Heap.verts o = Some a)).
Proof.
  intros Hi. unfold points_to. destruct (Nat.eq_dec i id) as [<-|Hne].
  - rewrite nth_error_update_eq by assumption. split.
    + intros (o' & E & Hv). injection E as <-. auto.
    + intros [[H _]|[_ Hv]]; [congruence | now exists o].
  - rewrite nth_error_update_neq by assumption. split.
    + intros H. left. split; [congruence | exact H].
    + intros [[_ H]|[E _]]; [exact H | congruence].
Qed.

Lemma exclusive_effect st st' : effect st st' -> exclusive st -> exclusive st'.
Proof.
  intros He [Hu Hr]. unfold exclusive.
  destruct He as [Eo El | a n c Eo Ha | this a n c Hlt Eo Ha
                 | this o n c Ho Eo El | p src Ho Eo El | this p src Hne Hlt Ho Eo El];
    rewrite Eo.
  - split; [exact Hu|]. intros id a H. specialize (Hr id a H). lia.
  - split.
    + intros id1 id2 a'. rewrite !points_to_app. cbn [Heap.verts].
      intros [H1|[-> E1]] [H2|[-> E2]]; auto.
      * eapply Hu; eauto.
      * injection E2 as <-. apply Hr in H1. lia.
      * injection E1 as <-. apply Hr in H2. lia.
    + intros id a'. rewrite points_to_app. cbn [Heap.verts].
      intros [H|[_ E]]; [apply Hr in H; lia | injection E as <-; lia].
  - split.
    + intros id1 id2 a'. rewrite !points_to_update by assumption. cbn [Heap.verts].
      intros [[N1 H1]|[-> E1]] [[N2 H2]|[-> E2]]; auto.
      * eapply Hu; eauto.
      * injection E2 as <-. apply Hr in H1. lia.
      * injection E1 as <-. apply Hr in H2. lia.
    + intros id a'. rewrite points_to_update by assumption. cbn [Heap.verts].
      intros [[_ H]|[_ E]]; [apply Hr in H; lia | injection E as <-; lia].
  - assert (Hlt : (this < length (Heap.objects st))%nat)
      by (eapply nth_error_in_range; eauto).
    assert (Hsame : forall id a,
               points_to (Heap.update (Heap.objects st) this
                            (Heap.mk_object (Heap.verts o) n c)) id a
               <-> points_to (Heap.objects st) id a).
    { intros id a. rewrite points_to_update by assumption. cbn [Heap.verts]. split.
      - intros [[_ H]|[-> E]]; [exact H | now exists o].
      - intros H. destruct (Nat.eq_dec id this) as [->|N]; [|now left].
        right. split; [reflexivity|]. destruct H as (o' & E & Hv). congruence. }
    split.
    + intros id1 id2 a. rewrite !Hsame. apply Hu.
    + intros id a. rewrite Hsame, El. apply Hr.
  - assert (Hlt : (p < length (Heap.objects st))%nat)
      by (eapply nth_error_in_range; eauto).
    assert (Hchar : forall id a,
               points_to
                 (Heap.update
                    (Heap.objects st
                     ++ [Heap.mk_object (Heap.verts src) (Heap.count src) (Heap.center src)])
                    p (Heap.mk_object None (Heap.count src) (Heap.center src))) id a
               <-> id <> p /\
                   (points_to (Heap.objects st) id a \/
                    (id = length (Heap.objects st) /\ points_to (Heap.objects st) p a))).
    { intros id a. rewrite points_to_update by (rewrite length_app; simpl; lia).
      rewrite points_to_app. cbn [Heap.verts]. split.
      - intros [[N [H|[E Hv]]]|[_ E]]; try discriminate.
        + auto.
        + split; [exact N|]. right. split; [exact E|]. now exists src.
      - intros [N [H|[E (o' & Ho' & Hv)]]]; left; (split; [exact N|]); [now left|].
        right. split; [exact E|]. congruence. }
    split.
    + intros id1 id2 a. rewrite !Hchar.
      intros [N1 [H1|[-> H1]]] [N2 [H2|[-> H2]]]; auto.
      * eapply Hu; eauto.
      * elim N1. eapply Hu; eauto.
      * elim N2. eapply Hu; eauto.
    + intros id a. rewrite Hchar, El. intros [_ [H|[_ H]]]; eapply Hr; eauto.
  - assert (Hlp : (p < length (Heap.objects st))%nat)
      by (eapply nth_error_in_range; eauto).
    assert (Hchar : forall id a,
               points_to
                 (Heap.update
                    (Heap.update (Heap.objects st) this
                       (Heap.mk_object (Heap.verts src) (Heap.count src) (Heap.center src)))
                    p (Heap.mk_object None (Heap.count src) (Heap.center src))) id a
               <-> id <> p /\
                   ((id <> this /\ points_to (Heap.objects st) id a) \/
                    (id = this /\ points_to (Heap.objects st) p a))).
    { intros id a. rewrite points_to_update by (now rewrite length_update).
      rewrite points_to_update by assumption. cbn [Heap.verts]. split.
      - intros [[N [[N' H]|[E Hv]]]|[_ E]]; try discriminate.
        + auto.
        + split; [exact N|]. right. split; [exact E|]. now exists src.
      - intros [N [[N' H]|[E (o' & Ho' & Hv)]]]; left; (split; [exact N|]); [now left|].
        right. split; [exact E|]. congruence. }
    split.
    + intros id1 id2 a. rewrite !Hchar.
      intros [N1 [[N1' H1]|[-> H1]]] [N2 [[N2' H2]|[-> H2]]]; auto.
      * eapply Hu; eauto.
      * elim N1. eapply Hu; eauto.
      * elim N2. eapply Hu; eauto.
    + intros id a. rewrite Hchar, El. intros [_ [[_ H]|[_ H]]]; eapply Hr; eauto.
Qed.

Lemma exec_effect c st st' : exec c st = Some st' -> effect st st'.
Proof.
  destruct c; cbn [exec]; unfold stores_after;
    match goal with
    | |- match ?m st with _ => _ end = _ -> _ =>
        destruct (m st) as [[r st1]|] eqn:E; [|discriminate];
        intros H; injection H as <-
    end.
  - eapply effect_ctor; eauto.
  - eapply effect_dtor; eauto.
  - eapply effect_copy_ctor; eauto.
  - eapply effect_copy_assign; eauto.
  - eapply effect_move_ctor; eauto.
  - eapply effect_move_assign; eauto.
  - eapply effect_move_by; eauto.
Qed.

Lemma exclusive_empty : exclusive (Heap.mk_state [] []).
Proof.
  split.
  - intros id1 id2 a (o & E & _). destruct id1; discriminate.
  - intros id a (o & E & _). destruct id; discriminate.
Qed.

(** X29. Ownership of the vertex arrays is exclusive, whatever is called:
    starting from stores without objects, after any sequence of
    constructions, copies, moves, assignments, [move(dx, dy)] and
    destructions that has a defined result, no two Polygon objects point to
    the same array, and every pointer of an object is one that [new]
    returned.  Each single call keeps this from any stores that have it. *)
Theorem Heap_ownership_exclusive :
  (forall c st st', exclusive st -> exec c st = Some st' -> exclusive st') /\
  (forall cs st', exec_all cs (Heap.mk_state [] []) = Some st' -> exclusive st').
Proof.
  assert (Hstep : forall c st st', exclusive st -> exec c st = Some st' -> exclusive st').
  { intros c st st' Hex H. eapply exclusive_effect; eauto using exec_effect. }
  split; [exact Hstep|].
  assert (Hall : forall cs st st', exclusive st -> exec_all cs st = Some st' -> exclusive st').
  { induction cs as [|c cs IH]; intros st st' Hex H; cbn [exec_all] in H.
    - injection H as <-. exact Hex.
    - destruct (exec c st) as [st1|] eqn:E; [|discriminate]. eauto. }
  intros cs st'. apply Hall. exact exclusive_empty.
Qed.

(** Runs a sequence of calls on given stores, leaving the arithmetic on
    doubles as it stands. *)
Ltac run_calls :=
  lazy [exec_all exec stores_after
        Heap.ctor Heap.dtor Heap.copy_ctor Heap.copy_assign Heap.move_ctor
        Heap.move_assign Heap.move_by
        Heap.bind Heap.ret Heap.throw Heap.new_array Heap.delete_array Heap.load
        Heap.store Heap.get_object Heap.set_object Heap.new_object Heap.for_each
        Heap.read_all Heap.update Heap.buffers Heap.objects Heap.verts Heap.count
        Heap.center points1 points2
        length app seq nth nth_error repeat Nat.ltb Nat.leb Nat.eqb];
  reflexivity.

Lemma Heap_ownership_exclusive_witness :
  exists st',
    exec_all [CallCtor points1; CallCopyCtor 0; CallMoveCtor 1; CallCopyAssign 1 0;
              CallMoveBy 2 1 1; CallDtor 2]
             (Heap.mk_state [] []) = Some st' /\
    exclusive st'.
Proof.
  eexists. split.
  - run_calls.
  - apply (proj2 Heap_ownership_exclusive
                 [CallCtor points1; CallCopyCtor 0; CallMoveCtor 1; CallCopyAssign 1 0;
                  CallMoveBy 2 1 1; CallDtor 2]).
    run_calls.
Defined.

(** * The program on binary64 doubles *)

(** ** Signs and order of doubles

    What the proofs need of IEEE 754 arithmetic, from its specification in
    [SpecFloat]: [<] is irreflexive, transitive and never holds with NaN; a
    product is negative only if its factors have opposite signs; a
    difference [a - b] is negative only if [a < b]; [std::abs] is never
    negative. *)

Lemma SF_zero : Prim2SF 0%float = S754_zero false.
Proof. reflexivity. Qed.

Ltac to_spec :=
  rewrite ?FloatAxioms.ltb_spec, ?FloatAxioms.leb_spec, ?FloatAxioms.eqb_spec,
    ?FloatAxioms.mul_spec, ?FloatAxioms.abs_spec, ?FloatAxioms.sub_spec, ?SF_zero in *.

Lemma SFltb_irrefl f : SFltb f f = false.
Proof.
  unfold SFltb, SFcompare.
  destruct f as [s|s| |s m e]; try destruct s; try reflexivity;
    rewrite Z.compare_refl;
    change (Pos.compare_cont Eq m m) with (Pos.compare m m);
    now rewrite Pos.compare_refl.
Qed.

Lemma ltb_irrefl a : (a <? a)%float = false.
Proof. to_spec. apply SFltb_irrefl. Qed.

Lemma pos_not_le k : (0 <? k)%float = true -> (k <=? 0)%float = false.
Proof.
  to_spec. destruct (Prim2SF k) as [s|s| |s m e]; try destruct s; cbn; congruence.
Qed.

Lemma SFeqb_refl_finite s m e : SFeqb (S754_finite s m e) (S754_finite s m e) = true.
Proof.
  unfold SFeqb, SFcompare. rewrite Z.compare_refl.
  change (Pos.compare_cont Eq m m) with (Pos.compare m m).
  rewrite Pos.compare_refl. now destruct s.
Qed.

Lemma is_nan_spec v : is_nan v = match Prim2SF v with S754_nan => true | _ => false end.
Proof.
  unfold is_nan. rewrite FloatAxioms.eqb_spec.
  destruct (Prim2SF v) as [s|s| |s m e]; try destruct s; try reflexivity;
    now rewrite SFeqb_refl_finite.
Qed.

Lemma nonneg_or_nan_iff v : nonneg_or_nan v <-> (v <? 0)%float = false.
Proof.
  unfold nonneg_or_nan. rewrite is_nan_spec. to_spec.
  destruct (Prim2SF v) as [s|s| |s m e]; try destruct s; cbn; intuition congruence.
Qed.

Lemma binary_round_aux_sign s m e l :
  match binary_round_aux prec emax s m e l with
  | S754_zero s' | S754_infinity s' | S754_finite s' _ _ => s' = s
  | S754_nan => True
  end.
Proof.
  unfold binary_round_aux.
  destruct (shr_fexp prec emax m e l) as [mrs' e'].
  destruct (shr_fexp prec emax _ e' loc_Exact) as [mrs'' e''].
  destruct (shr_m mrs''); auto.
  destruct (Z.leb e'' (emax - prec)); auto.
Qed.

Lemma mul_negative a b :
  (a * b <? 0)%float = true ->
  ((a <? 0)%float = true /\ (0 <? b)%float = true) \/
  ((0 <? a)%float = true /\ (b <? 0)%float = true).
Proof.
  to_spec. unfold SF64mul.
  destruct (Prim2SF a) as [s|s| |s m e], (Prim2SF b) as [s'|s'| |s' m' e'];
    try destruct s; try destruct s'; cbn; try (intuition congruence);
    intros H;
    match type of H with
    | context [binary_round_aux prec emax ?s ?m ?e ?l] =>
        pose proof (binary_round_aux_sign s m e l) as Hs;
        destruct (binary_round_aux prec emax s m e l) as [t|t| |t ? ?];
        try subst t; cbn in H; try discriminate; auto
    end.
Qed.

Lemma abs_not_negative a : (abs a <? 0)%float = false.
Proof.
  to_spec. destruct (Prim2SF a) as [s|s| |s m e]; reflexivity.
Qed.

Lemma eqb_not_gt a b : (a =? b)%float = true -> (b <? a)%float = false.
Proof.
  to_spec. unfold SFeqb, SFltb.
  destruct (Prim2SF a) as [s|s| |s m e], (Prim2SF b) as [s'|s'| |s' m' e'];
    try destruct s; try destruct s'; cbn; try congruence.
  - rewrite (Z.compare_antisym e e'). 
    change (Pos.compare_cont Eq m m') with (Pos.compare m m').
    change (Pos.compare_cont Eq m' m) with (Pos.compare m' m).
    rewrite (Pos.compare_antisym m m').
    destruct (e ?= e')%Z; cbn; try congruence.
    destruct (m ?= m')%positive; cbn; congruence.
  - rewrite (Z.compare_antisym e e'). 
    change (Pos.compare_cont Eq m m') with (Pos.compare m m').
    change (Pos.compare_cont Eq m' m) with (Pos.compare m' m).
    rewrite (Pos.compare_antisym m m').
    destruct (e ?= e')%Z; cbn; try congruence.
    destruct (m ?= m')%positive; cbn; congruence.
Qed.

(** The sign of a difference: rounding keeps the sign of the exact result. *)

Lemma digits2_bounds m :
  (2 ^ (Zpos (digits2_pos m) - 1) <= Zpos m < 2 ^ Zpos (digits2_pos m))%Z.
Proof.
  induction m as [m IH|m IH|]; cbn [digits2_pos].
  - rewrite Pos2Z.inj_succ.
    replace (Z.succ (Zpos (digits2_pos m)) - 1)%Z with (Z.succ (Zpos (digits2_pos m) - 1))%Z by lia.
    rewrite !Z.pow_succ_r by lia. lia.
  - rewrite Pos2Z.inj_succ.
    replace (Z.succ (Zpos (digits2_pos m)) - 1)%Z with (Z.succ (Zpos (digits2_pos m) - 1))%Z by lia.
    rewrite !Z.pow_succ_r by lia. lia.
  - cbn. lia.
Qed.

Lemma valid_finite s m e :
  valid_binary (S754_finite s m e) = true ->
  (Zpos m < 2 ^ 53 /\ -1074 <= e /\ (-1074 < e -> 2 ^ 52 <= Zpos m))%Z.
Proof.
  cbn [SpecFloat.valid_binary]. unfold bounded, canonical_mantissa, fexp, emin, prec, emax.
  intros H. apply andb_prop in H as [H _]. apply Z.eqb_eq in H.
  unfold fexp, emin in H.
  pose proof (digits2_bounds m) as [Hlo Hhi].
  assert (Hd : (Zpos (digits2_pos m) <= 53)%Z) by lia.
  repeat split.
  - eapply Z.lt_le_trans; [exact Hhi|]. apply Z.pow_le_mono_r; lia.
  - lia.
  - intros He. assert (Hd' : Zpos (digits2_pos m) = 53%Z) by lia.
    rewrite Hd' in Hlo. exact Hlo.
Qed.

Lemma iter_xO m d : Zpos (Pos.iter xO m d) = (Zpos m * 2 ^ Zpos d)%Z.
Proof.
  apply (Pos.iter_ind _ xO m (fun d r => Zpos r = (Zpos m * 2 ^ Zpos d)%Z)).
  - rewrite Pos2Z.inj_xO. lia.
  - intros p a' IH. rewrite Pos2Z.inj_xO, IH, Pos2Z.inj_succ, Z.pow_succ_r by lia. lia.
Qed.

Lemma shl_align_val mx ex ez :
  (ez <= ex)%Z -> Zpos (fst (shl_align mx ex ez)) = (Zpos mx * 2 ^ (ex - ez))%Z.
Proof.
  intros H. unfold shl_align.
  destruct (ez - ex)%Z as [|d|d] eqn:E; cbn [fst].
  - replace (ex - ez)%Z with 0%Z by lia. lia.
  - lia.
  - rewrite iter_xO. f_equal. f_equal. lia.
Qed.

Lemma binary_normalize_sign z e :
  match binary_normalize prec emax z e false with
  | S754_infinity true | S754_finite true _ _ => (z < 0)%Z
  | _ => True
  end.
Proof.
  destruct z as [|m|m]; cbn [binary_normalize]; auto; unfold binary_round;
    destruct (shl_align m e _) as [mz ez];
    match goal with
    | |- context [binary_round_aux prec emax ?s ?m ?e ?l] =>
        pose proof (binary_round_aux_sign s m e l) as Hs;
        destruct (binary_round_aux prec emax s m e l) as [t|t| |t ? ?]; auto;
        subst t; lia
    end.
Qed.

Lemma pow2_ge_2 n : (1 <= n)%Z -> (2 <= 2 ^ n)%Z.
Proof. intros H. change 2%Z with (2 ^ 1)%Z at 1. apply Z.pow_le_mono_r; lia. Qed.

Ltac bools := repeat match goal with b : bool |- _ => destruct b end.

Lemma SFsub_negative f g :
  valid_binary f = true -> valid_binary g = true ->
  SFltb (SF64sub f g) (S754_zero false) = true -> SFltb f g = true.
Proof.
  intros Hf Hg. unfold SF64sub, SFsub.
  destruct f as [s|s| |s m e], g as [s'|s'| |s' m' e'];
    try solve [bools; cbn; congruence].
  intros H.
  apply valid_finite in Hf as (Hm & He & Hn), Hg as (Hm' & He' & Hn').
  set (ez := Z.min e e') in *.
  pose proof (binary_normalize_sign
    (cond_Zopp s (Zpos (fst (shl_align m e ez))) -
     cond_Zopp s' (Zpos (fst (shl_align m' e' ez)))) ez) as Hz.
  assert (Hneg : (cond_Zopp s (Zpos (fst (shl_align m e ez))) -
     cond_Zopp s' (Zpos (fst (shl_align m' e' ez))) < 0)%Z).
  { destruct (binary_normalize prec emax _ ez false) as [t|t| |t ? ?];
      try destruct t; cbn in H; try discriminate; exact Hz. }
  clear H Hz.
  rewrite !shl_align_val in Hneg by (subst ez; lia).
  unfold SFltb, SFcompare.
  change (Pos.compare_cont Eq m m') with (Pos.compare m m').
  assert (Hp : forall a b : Z, (a <= b)%Z -> (0 < 2 ^ (b - a))%Z)
    by (intros; apply Z.pow_pos_nonneg; lia).
  destruct s, s'; cbn [cond_Zopp] in Hneg; try reflexivity.
  - (* both negative *)
    destruct (Z.compare_spec e e') as [E|E|E]; try reflexivity.
    + subst e'. replace (e - ez)%Z with 0%Z in Hneg by (subst ez; lia).
      rewrite Z.pow_0_r in Hneg.
      destruct (Pos.compare_spec m m') as [E|E|E]; cbn; try reflexivity; lia.
    + exfalso. replace (e - ez)%Z with 0%Z in Hneg by (subst ez; lia).
      rewrite Z.pow_0_r in Hneg.
      assert (He2 : (2 <= 2 ^ (e' - ez))%Z) by (apply pow2_ge_2; subst ez; lia).
      assert (Hm2 : (2 ^ 52 <= Zpos m')%Z) by (apply Hn'; lia).
      nia.
  - exfalso. pose proof (Hp ez e) as H1. pose proof (Hp ez e') as H2.
    assert (0 < Zpos m * 2 ^ (e - ez))%Z by (apply Z.mul_pos_pos; [lia | apply H1; subst ez; lia]).
    assert (0 < Zpos m' * 2 ^ (e' - ez))%Z by (apply Z.mul_pos_pos; [lia | apply H2; subst ez; lia]).
    lia.
  - destruct (Z.compare_spec e e') as [E|E|E]; try reflexivity.
    + subst e'. replace (e - ez)%Z with 0%Z in Hneg by (subst ez; lia).
      rewrite Z.pow_0_r in Hneg.
      destruct (Pos.compare_spec m m') as [E|E|E]; cbn; try reflexivity; lia.
    + exfalso. replace (e' - ez)%Z with 0%Z in Hneg by (subst ez; lia).
      rewrite Z.pow_0_r in Hneg.
      assert (He2 : (2 <= 2 ^ (e - ez))%Z) by (apply pow2_ge_2; subst ez; lia).
      assert (Hm2 : (2 ^ 52 <= Zpos m)%Z) by (apply Hn; lia).
      nia.
Qed.

Lemma sub_negative a b : (a - b <? 0)%float = true -> (a <? b)%float = true.
Proof.
  to_spec. apply SFsub_negative; apply Prim2SF_valid.
Qed.

Lemma SFltb_trans f g h : SFltb f g = true -> SFltb g h = true -> SFltb f h = true.
Proof.
  unfold SFltb, SFcompare.
  destruct f as [s|s| |s m e], g as [s'|s'| |s' m' e'], h as [s''|s''| |s'' m'' e''];
    try solve [bools; cbn; congruence].
  change (Pos.compare_cont Eq m m') with (Pos.compare m m').
  change (Pos.compare_cont Eq m' m'') with (Pos.compare m' m'').
  change (Pos.compare_cont Eq m m'') with (Pos.compare m m'').
  destruct s, s', s''; try congruence;
    destruct (Z.compare_spec e e'), (Z.compare_spec e' e''), (Z.compare_spec e e'');
    try congruence; try lia; subst;
    destruct (Pos.compare_spec m m'), (Pos.compare_spec m' m''), (Pos.compare_spec m m'');
    cbn; try congruence; try lia.
Qed.

Lemma ltb_trans a b c : (a <? b)%float = true -> (b <? c)%float = true -> (a <? c)%float = true.
Proof. to_spec. apply SFltb_trans. Qed.

Lemma mul_positive a b :
  (0 <? a * b)%float = true ->
  ((0 <? a)%float = true /\ (0 <? b)%float = true) \/
  ((a <? 0)%float = true /\ (b <? 0)%float = true).
Proof.
  to_spec. unfold SF64mul.
  destruct (Prim2SF a) as [s|s| |s m e], (Prim2SF b) as [s'|s'| |s' m' e'];
    try destruct s; try destruct s'; cbn; try (intuition congruence);
    intros H;
    match type of H with
    | context [binary_round_aux prec emax ?s ?m ?e ?l] =>
        pose proof (binary_round_aux_sign s m e l) as Hs;
        destruct (binary_round_aux prec emax s m e l) as [t|t| |t ? ?];
        try subst t; cbn in H; try discriminate; auto
    end.
Qed.

Lemma pos_not_neg k : (0 <? k)%float = true -> (k <? 0)%float = false.
Proof.
  to_spec. destruct (Prim2SF k) as [s|s| |s m e]; try destruct s; cbn; congruence.
Qed.

Lemma not_le_not_neg a : (a <=? 0)%float = false -> (a <? 0)%float = false.
Proof.
  to_spec. destruct (Prim2SF a) as [s|s| |s m e]; try destruct s; cbn; congruence.
Qed.

(** A positive finite double stands for a positive number. *)
Lemma finite_pos_val k : finite k = true -> (0 <? k)%float = true -> 0 < val k.
Proof.
  unfold finite, val, valQ. to_spec.
  destruct (Prim2SF k) as [s|s| |s m e]; try destruct s;
    try (cbn [SFltb SFcompare]; congruence).
  intros _ _. rewrite (Qeq_eqR _ _ (Qred_correct _)).
  replace 0 with (Q2R 0) by (unfold Q2R; cbn; lra).
  apply Qlt_Rlt.
  apply Qmult_lt_0_compat.
  - reflexivity.
  - apply Qpower_0_lt. reflexivity.
Qed.

(** ** Values of concrete doubles *)

Lemma val_eq_frac f n d : valQ f = (n # d)%Q -> val f = IZR n / IZR (Zpos d).
Proof. unfold val. intros ->. reflexivity. Qed.

(** Replaces [val f], for each concrete double [f], by the fraction it stands
    for. *)
Ltac val_num :=
  repeat match goal with
         | |- context [val ?f] =>
             let q := eval vm_compute in (valQ f) in
             lazymatch q with
             | (?n # ?d)%Q => rewrite (val_eq_frac f n d) by (vm_compute; reflexivity)
             end
         end.

(** ** The checks of the Bubble constructor *)

Lemma B64_Bubble_ctor_cases r o a :
  (B64.gtb (B64.dist2 o a) (r * r) = true /\
   B64.Bubble.ctor r o a = Throw (invalid_argument Bubble.msg_inside)) \/
  (B64.gtb (B64.dist2 o a) (r * r) = false /\ B64.same_point o a = true /\
   B64.Bubble.ctor r o a = Throw (invalid_argument Bubble.msg_equal)) \/
  (B64.gtb (B64.dist2 o a) (r * r) = false /\ B64.same_point o a = false /\
   (r <=? 0)%float = true /\
   B64.Bubble.ctor r o a = Throw (invalid_argument Bubble.msg_radius)) \/
  (B64.gtb (B64.dist2 o a) (r * r) = false /\ B64.same_point o a = false /\
   (r <=? 0)%float = false /\
   B64.Bubble.ctor r o a = Ok (B64.Bubble.mk r o a)).
Proof.
  unfold B64.Bubble.ctor, B64.same_point, B64.dist2.
  destruct (B64.gtb _ _); [now left|]. right.
  destruct (_ && _)%bool; [now left|]. right.
  destruct (r <=? 0)%float; [now left | now right].
Qed.

(** C6. [Bubble(r, o, a)] throws [std::invalid_argument] if and only if the
    squared distance of [o] and [a] is greater than [r * r], or [o == a],
    or [r <= 0], the squared distance and [r * r] being the doubles that the
    constructor computes.  The checks run in the order containment,
    equality, positivity, and each throws a message of its own, so the
    cause of a failure shows.  [Bubble(10, {0,0}, {2,2})] is built,
    [Bubble(1, {0,0}, {2,2})] throws the message of the containment check,
    and an anchor on the boundary, where the squared distance equals
    [r * r], is accepted, as in [Bubble(5, {0,0}, {3,4})]. *)
Theorem Bubble_ctor_spec :
  (forall r o a,
      (exists e, B64.Bubble.ctor r o a = Throw e) <->
      (B64.gtb (B64.dist2 o a) (r * r) = true \/ B64.same_point o a = true \/
       (r <=? 0)%float = true)) /\
  (forall r o a,
      B64.gtb (B64.dist2 o a) (r * r) = true ->
      B64.Bubble.ctor r o a = Throw (invalid_argument Bubble.msg_inside)) /\
  (forall r o a,
      B64.gtb (B64.dist2 o a) (r * r) = false -> B64.same_point o a = true ->
      B64.Bubble.ctor r o a = Throw (invalid_argument Bubble.msg_equal)) /\
  (forall r o a,
      B64.gtb (B64.dist2 o a) (r * r) = false -> B64.same_point o a = false ->
      (r <=? 0)%float = true ->
      B64.Bubble.ctor r o a = Throw (invalid_argument Bubble.msg_radius)) /\
  (forall r o a,
      B64.gtb (B64.dist2 o a) (r * r) = false -> B64.same_point o a = false ->
      (r <=? 0)%float = false ->
      B64.Bubble.ctor r o a = Ok (B64.Bubble.mk r o a)) /\
  (Bubble.msg_inside <> Bubble.msg_equal /\ Bubble.msg_inside <> Bubble.msg_radius /\
   Bubble.msg_equal <> Bubble.msg_radius) /\
  B64.Bubble.ctor 10 (B64.mk_point 0 0) (B64.mk_point 2 2) =
    Ok (B64.Bubble.mk 10 (B64.mk_point 0 0) (B64.mk_point 2 2)) /\
  B64.Bubble.ctor 1 (B64.mk_point 0 0) (B64.mk_point 2 2) =
    Throw (invalid_argument Bubble.msg_inside) /\
  (forall r o a,
      (B64.dist2 o a =? r * r)%float = true -> B64.same_point o a = false ->
      (r <=? 0)%float = false ->
      B64.Bubble.ctor r o a = Ok (B64.Bubble.mk r o a)) /\
  ((B64.dist2 (B64.mk_point 0 0) (B64.mk_point 3 4) =? 5 * 5)%float = true /\
   B64.Bubble.ctor 5 (B64.mk_point 0 0) (B64.mk_point 3 4) =
     Ok (B64.Bubble.mk 5 (B64.mk_point 0 0) (B64.mk_point 3 4))).
Proof.
  assert (Hcases := B64_Bubble_ctor_cases).
  repeat apply conj; try (vm_compute; reflexivity); try discriminate.
  - intros r o a. split.
    + intros [e He].
      destruct (Hcases r o a) as [(H & _)|[(_ & H & _)|[(_ & _ & H & _)|(_ & _ & _ & H)]]];
        auto; congruence.
    + intros H.
      destruct (Hcases r o a) as [(_ & H')|[(_ & _ & H')|[(_ & _ & _ & H')|(H1 & H2 & H3 & _)]]];
        try (eexists; exact H').
      destruct H as [H|[H|H]]; congruence.
  - intros r o a H.
    destruct (Hcases r o a) as [(_ & H')|[(H' & _)|[(H' & _)|(H' & _)]]]; congruence.
  - intros r o a H1 H2.
    destruct (Hcases r o a) as [(H' & _)|[(_ & _ & H')|[(_ & H' & _)|(_ & H' & _)]]]; congruence.
  - intros r o a H1 H2 H3.
    destruct (Hcases r o a) as [(H' & _)|[(_ & H' & _)|[(_ & _ & _ & H')|(_ & _ & H' & _)]]]; congruence.
  - intros r o a H1 H2 H3.
    destruct (Hcases r o a) as [(H' & _)|[(_ & H' & _)|[(_ & _ & H' & _)|(_ & _ & _ & H')]]]; congruence.
  - intros r o a H1 H2 H3. apply eqb_not_gt in H1.
    destruct (Hcases r o a) as [(H' & _)|[(_ & H' & _)|[(_ & _ & H' & _)|(_ & _ & _ & H')]]];
      unfold B64.gtb in *; congruence.
Qed.

(** X31. Both sides of the containment test are rounded.  The constructor
    accepts [Bubble(1, {0,0}, {1, 1e-9})], whose anchor lies outside the
    circle: its squared distance [1 + 1e-18] rounds to [1].  It accepts
    [Bubble(2^600, {0,0}, {2^601, 0})] as well: both squares overflow to
    infinity, and infinity is not greater than infinity. *)
Theorem Bubble_ctor_rounds :
  B64.Bubble.ctor 1 (B64.mk_point 0 0) (B64.mk_point 1 1e-9) =
    Ok (B64.Bubble.mk 1 (B64.mk_point 0 0) (B64.mk_point 1 1e-9)) /\
  (val 0 - val 1) * (val 0 - val 1) + (val 0 - val 1e-9) * (val 0 - val 1e-9) > val 1 * val 1 /\
  B64.Bubble.ctor 0x1p+600 (B64.mk_point 0 0) (B64.mk_point 0x1p+601 0) =
    Ok (B64.Bubble.mk 0x1p+600 (B64.mk_point 0 0) (B64.mk_point 0x1p+601 0)) /\
  (val 0 - val 0x1p+601) * (val 0 - val 0x1p+601) + (val 0 - val 0) * (val 0 - val 0)
    > val 0x1p+600 * val 0x1p+600.
Proof.
  repeat apply conj; try (vm_compute; reflexivity).
  - val_num. lra.
  - val_num. lra.
Qed.

(** ** The Polygon constructor and the division in [getCentroid] *)

Lemma B64_Polygon_ctor_ok points :
  (3 <= length points)%nat ->
  B64.Polygon.ctor points =
  Ok (B64.Polygon.mk points (B64.Polygon.getCentroid (B64.Polygon.mk points (B64.mk_point 0 0)))).
Proof.
  intros H. unfold B64.Polygon.ctor.
  destruct (Nat.ltb_spec (length points) 3); [lia | reflexivity].
Qed.

Lemma getCentroid_quotients p :
  exists cx cy,
    B64.Polygon.getCentroid p =
    B64.mk_point (cx / B64.Polygon.centroid_divisor p) (cy / B64.Polygon.centroid_divisor p).
Proof.
  unfold B64.Polygon.getCentroid.
  destruct (fold_left _ _ _) as [cx cy]. now exists cx, cy.
Qed.

Lemma eqb_zero_spec d : (d =? 0)%float = true -> exists s, Prim2SF d = S754_zero s.
Proof.
  to_spec. destruct (Prim2SF d) as [s|s| |s m e]; try destruct s; cbn; try congruence;
    intros _; eexists; reflexivity.
Qed.

Lemma div_by_zero_not_finite c d : (d =? 0)%float = true -> finite (c / d) = false.
Proof.
  intros H. apply eqb_zero_spec in H as [s Hs].
  unfold finite. rewrite FloatAxioms.div_spec, Hs. unfold SF64div, SFdiv.
  destruct (Prim2SF c) as [s'|s'| |s' m e]; reflexivity.
Qed.

Lemma mul_zero_is_zero a : (a =? 0)%float = true -> (6 * a =? 0)%float = true.
Proof.
  intros H. apply eqb_zero_spec in H as [s Hs].
  to_spec. rewrite Hs. reflexivity.
Qed.

(** C9. [Polygon(points, size)] throws [std::invalid_argument] if and only
    if [size < 3].  Whenever there are at least three vertices and the
    signed area is zero, the constructor returns the Polygon, with these
    vertices, and [getCentroid] has divided by zero: neither coordinate of
    the center is a finite number.  The collinear vertices (0,0), (1,1),
    (2,2) are such an input: signed area and divisor [6 * signed_area] are
    0, the constructor returns, and the center is (NaN, NaN). *)
Theorem Polygon_ctor_checks_count_only :
  (forall points,
      (exists e, B64.Polygon.ctor points = Throw e) <-> (length points < 3)%nat) /\
  (forall points,
      (3 <= length points)%nat ->
      (B64.Polygon.getSignedArea (B64.Polygon.mk points (B64.mk_point 0 0)) =? 0)%float = true ->
      exists p,
        B64.Polygon.ctor points = Ok p /\ B64.Polygon.verts p = points /\
        finite (B64.x (B64.Polygon.center p)) = false /\
        finite (B64.y (B64.Polygon.center p)) = false) /\
  ((3 <= length B64.collinear3)%nat /\
   B64.Polygon.getSignedArea (B64.Polygon.mk B64.collinear3 (B64.mk_point 0 0)) = 0%float /\
   B64.Polygon.centroid_divisor (B64.Polygon.mk B64.collinear3 (B64.mk_point 0 0)) = 0%float /\
   exists p,
     B64.Polygon.ctor B64.collinear3 = Ok p /\
     is_nan (B64.x (B64.Polygon.center p)) = true /\
     is_nan (B64.y (B64.Polygon.center p)) = true).
Proof.
  repeat apply conj.
  - intros points. unfold B64.Polygon.ctor.
    destruct (Nat.ltb_spec (length points) 3) as [Hlt|Hge]; split.
    + intros _. exact Hlt.
    + intros _. eexists; reflexivity.
    + intros [e He]. discriminate.
    + intros Hlt. lia.
  - intros points Hlen Hzero. eexists. split; [now apply B64_Polygon_ctor_ok|].
    cbn [B64.Polygon.verts B64.Polygon.center]. split; [reflexivity|].
    destruct (getCentroid_quotients (B64.Polygon.mk points (B64.mk_point 0 0)))
      as (cx & cy & ->).
    cbn [B64.x B64.y]. unfold B64.Polygon.centroid_divisor.
    split; apply div_by_zero_not_finite, mul_zero_is_zero, Hzero.
  - simpl. lia.
  - vm_compute. reflexivity.
  - vm_compute. reflexivity.
  - eexists. split; [vm_compute; reflexivity|]. split; vm_compute; reflexivity.
Qed.

(** ** Signs under the operations of the shapes *)

Lemma lt_asym a b : (a <? b)%float = true -> (b <? a)%float = false.
Proof.
  intros H. destruct (b <? a)%float eqn:E; [|reflexivity].
  pose proof (ltb_trans _ _ _ H E) as H'. now rewrite ltb_irrefl in H'.
Qed.

Lemma sides_agree_ctor a b o r : B64.Rectangle.ctor a b o = Ok r -> sides_agree r.
Proof.
  unfold B64.Rectangle.ctor.
  destruct (a <=? 0)%float eqn:Ea; [discriminate|].
  destruct (b <=? 0)%float eqn:Eb; [discriminate|].
  cbn. intros [= <-]. apply not_le_not_neg in Ea, Eb.
  unfold sides_agree; cbn. split; intros [H1 H2]; congruence.
Qed.

Lemma sides_agree_scale r k : sides_agree r -> sides_agree (B64.Rectangle.scale r k).
Proof.
  intros [H1 H2]. unfold sides_agree; cbn. split; intros [Hx Hy].
  - apply mul_negative in Hx. apply mul_positive in Hy.
    destruct Hx as [[Hx Hk]|[Hx Hk]], Hy as [[Hy Hk']|[Hy Hk']]; auto.
    + apply pos_not_neg in Hk. congruence.
    + apply pos_not_neg in Hk'. congruence.
  - apply mul_positive in Hx. apply mul_negative in Hy.
    destruct Hx as [[Hx Hk]|[Hx Hk]], Hy as [[Hy Hk']|[Hy Hk']]; auto.
    + apply pos_not_neg in Hk. congruence.
    + apply pos_not_neg in Hk'. congruence.
Qed.

Lemma Rectangle_area_never_negative r :
  sides_agree r -> nonneg_or_nan (B64.Rectangle.getArea r).
Proof.
  intros [H1 H2]. apply nonneg_or_nan_iff. unfold B64.Rectangle.getArea.
  match goal with |- ?t = false => destruct t eqn:E; [|reflexivity] end.
  apply mul_negative in E. tauto.
Qed.

Lemma Bubble_area_never_negative b : nonneg_or_nan (B64.Bubble.getArea b).
Proof.
  apply nonneg_or_nan_iff. unfold B64.Bubble.getArea.
  match goal with |- ?t = false => destruct t eqn:E; [|reflexivity] end.
  apply mul_negative in E. destruct E as [[H1 H2]|[H1 H2]].
  - apply mul_negative in H1. destruct H1 as [[H1 H3]|[H1 H3]].
    + vm_compute in H1. discriminate.
    + apply pos_not_neg in H2. congruence.
  - apply mul_positive in H1. destruct H1 as [[H1 H3]|[H1 H3]].
    + apply pos_not_neg in H3. congruence.
    + vm_compute in H1. discriminate.
Qed.

Lemma Polygon_area_never_negative p : nonneg_or_nan (B64.Polygon.getArea p).
Proof. apply nonneg_or_nan_iff, abs_not_negative. Qed.

(** The loop of [Polygon::getFrameRect] keeps four running extremes. *)
Lemma B64_fold_bounds_step vs b :
  fold_left B64.Polygon.bounds_step vs b =
  {| B64.min_x := B64.lo (map B64.x vs) (B64.min_x b);
     B64.min_y := B64.lo (map B64.y vs) (B64.min_y b);
     B64.max_x := B64.hi (map B64.x vs) (B64.max_x b);
     B64.max_y := B64.hi (map B64.y vs) (B64.max_y b) |}.
Proof.
  revert b. induction vs as [|v vs IH]; intros b; simpl.
  - now destruct b.
  - rewrite IH. reflexivity.
Qed.

Lemma lo_cons v l m : B64.lo (v :: l) m = B64.lo l (B64.min m v).
Proof. reflexivity. Qed.

Lemma hi_cons v l M : B64.hi (v :: l) M = B64.hi l (B64.max M v).
Proof. reflexivity. Qed.

Lemma hi_not_below_lo l : forall m M,
  (M <? m)%float = false -> (B64.hi l M <? B64.lo l m)%float = false.
Proof.
  induction l as [|v l IH]; intros m M H; [exact H|].
  rewrite hi_cons, lo_cons. apply IH. unfold B64.min, B64.max.
  destruct (v <? m)%float eqn:E1, (M <? v)%float eqn:E2; auto using ltb_irrefl.
Qed.

Lemma lo_le l : forall m, B64.lo l m = m \/ (B64.lo l m <? m)%float = true.
Proof.
  induction l as [|v l IH]; intros m; [now left|].
  rewrite lo_cons. unfold B64.min.
  destruct (v <? m)%float eqn:E.
  - right. destruct (IH v) as [->|H]; [exact E | eapply ltb_trans; eauto].
  - apply IH.
Qed.

Lemma hi_ge l : forall M, B64.hi l M = M \/ (M <? B64.hi l M)%float = true.
Proof.
  induction l as [|v l IH]; intros M; [now left|].
  rewrite hi_cons. unfold B64.max.
  destruct (M <? v)%float eqn:E.
  - right. destruct (IH v) as [->|H]; [exact E | eapply ltb_trans; eauto].
  - apply IH.
Qed.

Lemma not_below_lo l m t : (t <? m)%float = false -> (t <? B64.lo l m)%float = false.
Proof.
  intros H. destruct (lo_le l m) as [->|Hlo]; [exact H|].
  destruct (t <? B64.lo l m)%float eqn:E; [|reflexivity].
  pose proof (ltb_trans _ _ _ E Hlo). congruence.
Qed.

Lemma not_above_hi l M t : (M <? t)%float = false -> (B64.hi l M <? t)%float = false.
Proof.
  intros H. destruct (hi_ge l M) as [->|Hhi]; [exact H|].
  destruct (B64.hi l M <? t)%float eqn:E; [|reflexivity].
  pose proof (ltb_trans _ _ _ Hhi E). congruence.
Qed.

Lemma lo_lower l : forall a t, t = a \/ In t l -> (t <? B64.lo l a)%float = false.
Proof.
  induction l as [|v l IH]; intros a t [->|Ht].
  - apply ltb_irrefl.
  - destruct Ht.
  - rewrite lo_cons. apply not_below_lo. unfold B64.min.
    destruct (v <? a)%float eqn:E; [now apply lt_asym | apply ltb_irrefl].
  - rewrite lo_cons. destruct Ht as [->|Ht].
    + apply not_below_lo. unfold B64.min.
      destruct (t <? a)%float eqn:E; [apply ltb_irrefl | exact E].
    + apply IH. now right.
Qed.

Lemma hi_upper l : forall a t, t = a \/ In t l -> (B64.hi l a <? t)%float = false.
Proof.
  induction l as [|v l IH]; intros a t [->|Ht].
  - apply ltb_irrefl.
  - destruct Ht.
  - rewrite hi_cons. apply not_above_hi. unfold B64.max.
    destruct (a <? v)%float eqn:E; [now apply lt_asym | apply ltb_irrefl].
  - rewrite hi_cons. destruct Ht as [->|Ht].
    + apply not_above_hi. unfold B64.max.
      destruct (a <? t)%float eqn:E; [apply ltb_irrefl | exact E].
    + apply IH. now right.
Qed.

Lemma lo_attained l : forall a, B64.lo l a = a \/ In (B64.lo l a) l.
Proof.
  induction l as [|v l IH]; intros a; [now left|].
  rewrite lo_cons. unfold B64.min.
  destruct (v <? a)%float; [destruct (IH v) as [H|H] | destruct (IH a) as [H|H]];
    cbn [In]; try rewrite H; auto.
Qed.

Lemma hi_attained l : forall a, B64.hi l a = a \/ In (B64.hi l a) l.
Proof.
  induction l as [|v l IH]; intros a; [now left|].
  rewrite hi_cons. unfold B64.max.
  destruct (a <? v)%float; [destruct (IH v) as [H|H] | destruct (IH a) as [H|H]];
    cbn [In]; try rewrite H; auto.
Qed.

Lemma difference_never_negative M m :
  (M <? m)%float = false -> nonneg_or_nan (M - m).
Proof.
  intros H. apply nonneg_or_nan_iff.
  destruct (M - m <? 0)%float eqn:E; [|reflexivity].
  apply sub_negative in E. congruence.
Qed.

Lemma Polygon_frame_never_negative p :
  nonneg_or_nan (B64.width (B64.Polygon.getFrameRect p)) /\
  nonneg_or_nan (B64.height (B64.Polygon.getFrameRect p)).
Proof.
  unfold B64.Polygon.getFrameRect. rewrite B64_fold_bounds_step.
  unfold B64.frame_of_bounds. cbn.
  split; apply difference_never_negative, hi_not_below_lo, ltb_irrefl.
Qed.

(** ** Areas and frames are never negative *)

Lemma B64_constructed_sound s : B64.constructed s -> B64_sound s /\ B64_positive s.
Proof.
  intros [a b o r H|points p H|r o a b H]; cbn.
  - split; [eapply sides_agree_ctor; eauto|].
    revert H. unfold B64.Rectangle.ctor.
    destruct (a <=? 0)%float eqn:Ea; [discriminate|].
    destruct (b <=? 0)%float eqn:Eb; [discriminate|].
    cbn. intros [= <-]. cbn. auto using not_le_not_neg.
  - split; [|exact I]. revert H. unfold B64.Polygon.ctor.
    destruct (Nat.ltb_spec (length points) 3); [discriminate|].
    intros [= <-]. exact H.
  - split; [exact I|].
    destruct (B64_Bubble_ctor_cases r o a) as [(_ & H')|[(_ & _ & H')|[(_ & _ & _ & H')|(_ & _ & Hr & H')]]];
      try congruence.
    rewrite H in H'. injection H' as ->. cbn. now apply not_le_not_neg.
Qed.

Lemma B64_reachable_sound allowed s : B64.reachable allowed s -> B64_sound s.
Proof.
  induction 1 as [s H|s p _ IH|s dx dy _ IH|s k _ _ IH].
  - now apply B64_constructed_sound.
  - destruct s; cbn in *; auto. unfold B64.Polygon.count in *. cbn. now rewrite length_map.
  - destruct s; cbn in *; auto. unfold B64.Polygon.count in *. cbn. now rewrite length_map.
  - destruct s; cbn in *; auto using sides_agree_scale.
    unfold B64.Polygon.count in *. cbn. now rewrite length_map.
Qed.

Lemma times_positive_not_negative a k :
  (a <? 0)%float = false -> (0 <? k)%float = true -> (a * k <? 0)%float = false.
Proof.
  intros Ha Hk. destruct (a * k <? 0)%float eqn:E; [|reflexivity].
  apply mul_negative in E. destruct E as [[H _]|[_ H]]; [congruence|].
  apply pos_not_neg in Hk. congruence.
Qed.

Lemma positive_times_not_negative k a :
  (0 <? k)%float = true -> (a <? 0)%float = false -> (k * a <? 0)%float = false.
Proof.
  intros Hk Ha. destruct (k * a <? 0)%float eqn:E; [|reflexivity].
  apply mul_negative in E. destruct E as [[H _]|[_ H]]; [|congruence].
  apply pos_not_neg in Hk. congruence.
Qed.

Lemma B64_reachable_positive s : B64.reachable B64.positive_factor s -> B64_positive s.
Proof.
  induction 1 as [s H|s p _ IH|s dx dy _ IH|s k Hk _ IH].
  - now apply B64_constructed_sound.
  - destruct s; cbn in *; auto.
  - destruct s; cbn in *; auto.
  - destruct s; cbn in *; auto.
    + destruct IH. split; now apply times_positive_not_negative.
    + now apply times_positive_not_negative.
Qed.

Lemma Polygon_frame_extent p :
  B64.Polygon.verts p <> [] ->
  exists b, extent_of (B64.Polygon.verts p) b /\
            B64.Polygon.getFrameRect p = B64.frame_of_bounds b.
Proof.
  intros Hne. unfold B64.Polygon.getFrameRect. rewrite B64_fold_bounds_step.
  eexists. split; [|reflexivity]. cbn [B64.min_x B64.min_y B64.max_x B64.max_y].
  unfold B64.Polygon.vert. destruct (B64.Polygon.verts p) as [|v0 vs]; [congruence|].
  cbn [nth]. unfold extent_of. cbn [B64.min_x B64.min_y B64.max_x B64.max_y].
  assert (Hin : forall (f : B64.point_t -> float) g,
             g (map f (v0 :: vs)) (f v0) = f v0 \/ In (g (map f (v0 :: vs)) (f v0)) (map f (v0 :: vs)) ->
             In (g (map f (v0 :: vs)) (f v0)) (map f (v0 :: vs))).
  { intros f g [->|H]; [now left | exact H]. }
  repeat split.
  - apply (Hin B64.x B64.lo), lo_attained.
  - apply (Hin B64.x B64.hi), hi_attained.
  - apply (Hin B64.y B64.lo), lo_attained.
  - apply (Hin B64.y B64.hi), hi_attained.
  - apply lo_lower. right. now apply in_map.
  - apply hi_upper. right. now apply in_map.
  - apply lo_lower. right. now apply in_map.
  - apply hi_upper. right. now apply in_map.
Qed.

(** C3, as the code has it.  For every shape built by its constructor and changed by
    any sequence of [move(p)], [move(dx, dy)] and [scale(k)], whatever the
    factors [k]:
    - [getArea()] is never negative;
    - [getFrameRect()] is the frame of the current geometry: sides and
      center of a Rectangle; twice the radius, about the center, of a
      Bubble; for a Polygon, with [min] and [max] a least and a greatest
      coordinate of its vertices in each direction, the size [max - min] and
      the position [min + (max - min) / 2] in double arithmetic;
    - width and height of the frame of a Polygon are never negative;
    - if every factor was positive, width and height of the frame are never
      negative, for each kind of shape.
    Never negative means [>= 0] or NaN. *)
Theorem area_and_frame_never_negative (s : B64.Shape) :
  B64.reachable B64.any_factor s ->
  nonneg_or_nan (B64.getArea s) /\
  frame_consistent s /\
  match s with
  | B64.APolygon _ =>
      nonneg_or_nan (B64.width (B64.getFrameRect s)) /\
      nonneg_or_nan (B64.height (B64.getFrameRect s))
  | _ => True
  end /\
  (B64.reachable B64.positive_factor s ->
   nonneg_or_nan (B64.width (B64.getFrameRect s)) /\
   nonneg_or_nan (B64.height (B64.getFrameRect s))).
Proof.
  intros H. apply B64_reachable_sound in H. repeat apply conj.
  - destruct s as [r|p|b]; cbn in *.
    + now apply Rectangle_area_never_negative.
    + apply Polygon_area_never_negative.
    + apply Bubble_area_never_negative.
  - destruct s as [r|p|b]; cbn in *; try reflexivity.
    apply Polygon_frame_extent. intros E. unfold B64.Polygon.count in H.
    rewrite E in H. cbn in H. lia.
  - destruct s as [r|p|b]; cbn; auto. apply Polygon_frame_never_negative.
  - intros Hpos. apply B64_reachable_positive in Hpos.
    destruct s as [r|p|b]; cbn in *.
    + destruct Hpos. split; now apply nonneg_or_nan_iff.
    + apply Polygon_frame_never_negative.
    + split; apply nonneg_or_nan_iff, positive_times_not_negative;
        (reflexivity || assumption).
Qed.

Lemma B64_bubble_constructed :
  B64.Bubble.ctor 10 (B64.mk_point 0 0) (B64.mk_point 2 2) = Ok B64.bubble.
Proof. vm_compute. reflexivity. Qed.

(** The Bubble of [main], moved to (1, 1) and scaled by 2. *)
Lemma area_and_frame_never_negative_witness :
  let s := B64.scale (B64.move (B64.ABubble B64.bubble) (B64.mk_point 1 1)) 2 in
  nonneg_or_nan (B64.getArea s) /\
  frame_consistent s /\
  nonneg_or_nan (B64.width (B64.getFrameRect s)) /\
  nonneg_or_nan (B64.height (B64.getFrameRect s)).
Proof.
  intros s.
  assert (Hnew : B64.constructed (B64.ABubble B64.bubble))
    by (eapply B64.constructed_bubble, B64_bubble_constructed).
  destruct (area_and_frame_never_negative s) as (H1 & H2 & _ & H3).
  - apply B64.reach_scale; [exact I|]. apply B64.reach_move, B64.reach_new, Hnew.
  - split; [exact H1|]. split; [exact H2|]. apply H3.
    apply B64.reach_scale; [reflexivity|]. apply B64.reach_move, B64.reach_new, Hnew.
Defined.

(** C3 as stated fails.  [scale(-1)], a non-zero factor, turns the frame of
    [Rectangle(5, 6, {1, 2})] into width -5 and height -6, and the frame of
    [Bubble(10, {0,0}, {2,2})] into width and height -20.  And the Polygon
    of the collinear vertices (0,0), (1,1), (2,2), which the constructor
    accepts, has after [move({1, 1})] an area, a width and a height that are
    NaN, so that none of them is [>= 0]. *)
Lemma negative_scale_negative_frame :
  B64.Rectangle.ctor 5 6 (B64.mk_point 1 2) = Ok B64.rectangle1 /\
  B64.Bubble.ctor 10 (B64.mk_point 0 0) (B64.mk_point 2 2) = Ok B64.bubble /\
  finite (-1) = true /\ val (-1) <> 0 /\
  B64.getFrameRect (B64.scale (B64.ARectangle B64.rectangle1) (-1)) =
    {| B64.width := (-5)%float; B64.height := (-6)%float; B64.pos := B64.mk_point 1 2 |} /\
  B64.getFrameRect (B64.scale (B64.ABubble B64.bubble) (-1)) =
    {| B64.width := (-20)%float; B64.height := (-20)%float; B64.pos := B64.mk_point 4 4 |} /\
  ((0 <=? -5)%float = false /\ (0 <=? -6)%float = false /\ (0 <=? -20)%float = false) /\
  (val (-5) < 0 /\ val (-6) < 0 /\ val (-20) < 0) /\
  (exists p,
      B64.Polygon.ctor B64.collinear3 = Ok p /\
      let s := B64.move (B64.APolygon p) (B64.mk_point 1 1) in
      is_nan (B64.getArea s) = true /\ (0 <=? B64.getArea s)%float = false /\
      is_nan (B64.width (B64.getFrameRect s)) = true /\
      (0 <=? B64.width (B64.getFrameRect s))%float = false /\
      is_nan (B64.height (B64.getFrameRect s)) = true /\
      (0 <=? B64.height (B64.getFrameRect s))%float = false).
Proof.
  repeat apply conj; try (vm_compute; reflexivity); try (val_num; lra).
  eexists. split; [vm_compute; reflexivity|].
  repeat apply conj; vm_compute; reflexivity.
Qed.

(** ** Exact operations and the exact reading *)

Lemma val_pivot s : pivot (val_shape s) = val_point (B64.pivot s).
Proof. now destruct s. Qed.

Lemma val_well_formed s : B64.well_formed s -> well_formed (val_shape s).
Proof.
  destruct s; cbn; auto. unfold Polygon.count, B64.Polygon.count. cbn.
  now rewrite length_map.
Qed.

Lemma exact_run_reachable allowed s :
  exact_run allowed s -> reachable allowed (val_shape s) /\ finite_shape s = true.
Proof.
  induction 1 as [s _ Hf Hc|s p _ [IH _] (_ & Hf & He)|s dx dy _ [IH _] (_ & _ & Hf & He)
                 |s k _ [IH _] Hk (_ & Hf & He)].
  - split; [now apply reach_new | exact Hf].
  - split; [rewrite He; now apply reach_move | exact Hf].
  - split; [rewrite He; now apply reach_move_by | exact Hf].
  - split; [rewrite He; now apply reach_scale | exact Hf].
Qed.

(** ** The area under [scale(k)] *)

Lemma ideal_area_scale s k :
  exact_scale s k -> ideal_area (B64.scale s k) = val k * val k * ideal_area s.
Proof.
  intros (_ & _ & He). destruct s as [r|p|b]; cbn [ideal_area B64.scale] in *.
  - rewrite He. apply getArea_scale.
  - rewrite He. apply getArea_scale.
  - cbn [val_shape B64.Bubble.scale B64.Bubble.radius scale Bubble.scale Bubble.radius] in *.
    injection He as Hr _ _. rewrite Hr. lra.
Qed.

(** C5, as the code has it.  For every shape and every [k > 0], if [scale(k)] and the
    calls of [getArea()] before and after it return the exact results, the
    area after [scale(k)] is [k * k] times the area before. *)
Theorem scale_area_square (s : B64.Shape) (k : float) :
  (0 <? k)%float = true ->
  exact_area s -> exact_scale s k -> exact_area (B64.scale s k) ->
  val (B64.getArea (B64.scale s k)) = val k * val k * val (B64.getArea s).
Proof.
  intros _ [_ Ha] Hs [_ Ha']. rewrite Ha, Ha'. now apply ideal_area_scale.
Qed.

(** ** Checking exactness on concrete shapes *)

(** Closes [finite f = true] and the like on concrete values. *)
Ltac finite_ok := vm_compute; reflexivity.

(** Replaces every concrete shape, frame or double under [val_shape],
    [val_rect], [val_point] or [val] by its value. *)
Ltac b64_normal :=
  repeat match goal with
         | |- context [val_shape ?s] =>
             let t := eval vm_compute in s in progress change s with t
         | |- context [val_rect ?s] =>
             let t := eval vm_compute in s in progress change s with t
         | |- context [val_point ?s] =>
             let t := eval vm_compute in s in progress change s with t
         | |- context [ideal_area ?s] =>
             let t := eval vm_compute in s in progress change s with t
         end.

(** Unfolds the operations of the exact reading on records. *)
Ltac on_values :=
  unfold ideal_area;
  cbn [val_shape val_rect val_point map
       B64.x B64.y B64.width B64.height B64.pos
       B64.Rectangle.side_x B64.Rectangle.side_y B64.Rectangle.center
       B64.Polygon.verts B64.Polygon.center
       B64.Bubble.radius B64.Bubble.center B64.Bubble.anchor
       getArea getFrameRect scale move move_by pivot];
  unfold val_rect, val_point, scaled_shape, scaled_about,
    Rectangle.getArea, Rectangle.getFrameRect, Rectangle.scale, Rectangle.move_by,
    Rectangle.move, Bubble.getFrameRect, Bubble.scale, Bubble.move, Bubble.move_by,
    Polygon.scale, Polygon.move, Polygon.move_by;
  cbn [Rectangle.side_x Rectangle.side_y Rectangle.center
       Polygon.verts Polygon.center map
       B64.x B64.y B64.width B64.height B64.pos
       Bubble.radius Bubble.center Bubble.anchor x y width height pos].

Ltac numbers := val_num; try lra.

Ltac point_fields := apply point_eq; cbn [x y]; numbers.

Ltac list_fields := repeat (apply f_equal2; [point_fields|]); try reflexivity.

(** Closes [val_shape s' = t] and [val_rect f' = g] on concrete values. *)
Ltac same_values :=
  b64_normal; on_values;
  first [ apply (f_equal ARectangle); apply Rectangle_eq
        | apply (f_equal APolygon); apply Polygon_eq
        | apply (f_equal ABubble); apply Bubble_eq
        | apply rectangle_eq ];
  cbn [Rectangle.side_x Rectangle.side_y Rectangle.center
       Polygon.verts Polygon.center map
       Bubble.radius Bubble.center Bubble.anchor x y width height pos];
  lazymatch goal with
  | |- @eq point_t _ _ => point_fields
  | |- @eq (list point_t) _ _ => list_fields
  | |- _ => numbers
  end.

Lemma Rabs_num a : 0 <= a -> Rabs a = a.
Proof. intros. now apply Rabs_pos_eq. Qed.

(** The area of a concrete Polygon in the exact reading. *)
Ltac polygon_area :=
  b64_normal; unfold ideal_area;
  cbn [val_shape getArea B64.Polygon.verts B64.Polygon.center];
  unfold Polygon.getArea, Polygon.getSignedArea, Polygon.vert, Polygon.count;
  cbn -[val Rabs Rmult Rplus Rminus IZR]; val_num;
  rewrite Rabs_num by lra; lra.

(** [Rectangle(5, 6, {1, 2})], the unit square and a Bubble of radius 2,
    each scaled by 2. *)
Lemma scale_area_square_witness :
  val (B64.getArea (B64.scale (B64.ARectangle B64.rectangle1) 2)) =
    val 2 * val 2 * val (B64.getArea (B64.ARectangle B64.rectangle1)) /\
  val (B64.getArea (B64.scale (B64.APolygon B64.polygon1) 2)) =
    val 2 * val 2 * val (B64.getArea (B64.APolygon B64.polygon1)) /\
  val (B64.getArea (B64.scale (B64.ABubble B64_small_bubble) 2)) =
    val 2 * val 2 * val (B64.getArea (B64.ABubble B64_small_bubble)).
Proof.
  repeat apply conj; apply scale_area_square; try reflexivity.
  - split; [finite_ok|]. b64_normal. on_values. numbers.
  - split; [finite_ok|]. split; [finite_ok|]. same_values.
  - split; [finite_ok|]. b64_normal. on_values. numbers.
  - split; [finite_ok|]. polygon_area.
  - split; [finite_ok|]. split; [finite_ok|]. same_values.
  - split; [finite_ok|]. polygon_area.
  - split; [finite_ok|]. b64_normal. on_values. numbers.
  - split; [finite_ok|]. split; [finite_ok|]. same_values.
  - split; [finite_ok|]. b64_normal. on_values. numbers.
Defined.

(** C5 as stated fails.  Polygon 2 of [main] has area 28.5 and after
    [scale(3)] area 256.49999999999994, not 256.5; [Rectangle(10, 2)] has
    area 20 and after [scale(0.1)] area 0.2, which is not [0.1 * 0.1 * 20]
    for the double 0.1.  The gap is not always small: the unit square at
    (1e10, 1e10) has area 16384 as the code computes it and area 0 after
    [scale(3)]; [Rectangle(1e300, 1e-300)] has area 1 and after
    [scale(1e10)] an infinite area. *)
Lemma scale_area_rounds :
  B64.Polygon.ctor B64.points2 = Ok B64.polygon2 /\
  (0 <? 3)%float = true /\
  val (B64.getArea (B64.scale (B64.APolygon B64.polygon2) 3)) <>
    val 3 * val 3 * val (B64.getArea (B64.APolygon B64.polygon2)) /\
  B64.Rectangle.ctor 10 2 (B64.mk_point 0 0) = Ok (B64.Rectangle.mk 10 2 (B64.mk_point 0 0)) /\
  (0 <? 0.1)%float = true /\
  val (B64.getArea (B64.scale (B64.ARectangle (B64.Rectangle.mk 10 2 (B64.mk_point 0 0))) 0.1)) <>
    val 0.1 * val 0.1 *
    val (B64.getArea (B64.ARectangle (B64.Rectangle.mk 10 2 (B64.mk_point 0 0)))) /\
  (exists p,
      B64.Polygon.ctor B64.far_square = Ok p /\
      B64.getArea (B64.APolygon p) = 16384%float /\
      B64.getArea (B64.scale (B64.APolygon p) 3) = 0%float /\
      val 0 < val 3 * val 3 * val 16384 / 2) /\
  B64.Rectangle.ctor 1e300 1e-300 (B64.mk_point 0 0) =
    Ok (B64.Rectangle.mk 1e300 1e-300 (B64.mk_point 0 0)) /\
  (0 <? 1e10)%float = true /\
  B64.getArea (B64.ARectangle (B64.Rectangle.mk 1e300 1e-300 (B64.mk_point 0 0))) = 1%float /\
  B64.getArea (B64.scale (B64.ARectangle (B64.Rectangle.mk 1e300 1e-300 (B64.mk_point 0 0))) 1e10)
    = infinity.
Proof.
  repeat apply conj; try (vm_compute; reflexivity); try (val_num; lra).
  eexists. split; [vm_compute; reflexivity|].
  repeat apply conj; try (vm_compute; reflexivity). val_num. lra.
Qed.

(** ** Both overloads of [move] *)

Lemma ideal_area_move s p :
  exact_move s p -> ideal_area (B64.move s p) = ideal_area s.
Proof.
  intros (_ & _ & He). destruct s as [r|q|b]; cbn [ideal_area B64.move] in *.
  - rewrite He. apply getArea_move.
  - rewrite He. apply getArea_move.
  - reflexivity.
Qed.

Lemma ideal_area_move_by s dx dy :
  exact_move_by s dx dy -> ideal_area (B64.move_by s dx dy) = ideal_area s.
Proof.
  intros (_ & _ & _ & He). destruct s as [r|q|b]; cbn [ideal_area B64.move_by] in *.
  - rewrite He. apply getArea_move_by.
  - rewrite He. apply getArea_move_by.
  - reflexivity.
Qed.

(** C4, as the code has it.  For every shape built by its constructor and changed by
    any operations, every point [p] and all [dx], [dy]:
    - [move(p)] of a Rectangle stores [p] as its center, and [move(dx, dy)]
      adds [(dx, dy)] to it; either leaves the sides, hence area and size of
      the frame, as they are;
    - [move(p)] of a Polygon or Bubble leaves its reference point [c] (center
      of a Polygon, anchor of a Bubble) at [c + (p - c)], and [move(dx, dy)]
      at [c + (dx, dy)], in double arithmetic; a Bubble keeps its radius,
      hence area and size of the frame, and [move(dx, dy)] adds [(dx, dy)] to
      the position of its frame;
    - if [move(p)] and the calls of [getArea()] and [getFrameRect()] before
      and after it return the exact results, the reference point is [p],
      area, width and height are unchanged, and the position of the frame
      shifts by the same delta as the reference point;
    - if [move(dx, dy)] and these calls return the exact results, the
      position of the frame shifts by [(dx, dy)] and the area is unchanged. *)
Theorem move_is_translation (s : B64.Shape) (p : B64.point_t) (dx dy : float) :
  B64.reachable B64.any_factor s ->
  match s with
  | B64.ARectangle r =>
      B64.pivot (B64.move s p) = p /\
      B64.getArea (B64.move s p) = B64.getArea s /\
      B64.getFrameRect (B64.move s p) =
        {| B64.width := B64.width (B64.getFrameRect s);
           B64.height := B64.height (B64.getFrameRect s); B64.pos := p |} /\
      B64.getArea (B64.move_by s dx dy) = B64.getArea s /\
      B64.getFrameRect (B64.move_by s dx dy) =
        {| B64.width := B64.width (B64.getFrameRect s);
           B64.height := B64.height (B64.getFrameRect s);
           B64.pos := {| B64.x := (B64.x (B64.pos (B64.getFrameRect s)) + dx)%float;
                         B64.y := (B64.y (B64.pos (B64.getFrameRect s)) + dy)%float |} |}
  | B64.APolygon q =>
      B64.pivot (B64.move s p) =
        {| B64.x := (B64.x (B64.pivot s) + (B64.x p - B64.x (B64.pivot s)))%float;
           B64.y := (B64.y (B64.pivot s) + (B64.y p - B64.y (B64.pivot s)))%float |} /\
      B64.pivot (B64.move_by s dx dy) =
        {| B64.x := (B64.x (B64.pivot s) + dx)%float;
           B64.y := (B64.y (B64.pivot s) + dy)%float |}
  | B64.ABubble b =>
      B64.pivot (B64.move s p) =
        {| B64.x := (B64.x (B64.pivot s) + (B64.x p - B64.x (B64.pivot s)))%float;
           B64.y := (B64.y (B64.pivot s) + (B64.y p - B64.y (B64.pivot s)))%float |} /\
      B64.getArea (B64.move s p) = B64.getArea s /\
      B64.width (B64.getFrameRect (B64.move s p)) = B64.width (B64.getFrameRect s) /\
      B64.height (B64.getFrameRect (B64.move s p)) = B64.height (B64.getFrameRect s) /\
      B64.getArea (B64.move_by s dx dy) = B64.getArea s /\
      B64.getFrameRect (B64.move_by s dx dy) =
        {| B64.width := B64.width (B64.getFrameRect s);
           B64.height := B64.height (B64.getFrameRect s);
           B64.pos := {| B64.x := (B64.x (B64.pos (B64.getFrameRect s)) + dx)%float;
                         B64.y := (B64.y (B64.pos (B64.getFrameRect s)) + dy)%float |} |}
  end /\
  (exact_move s p ->
   exact_area s -> exact_area (B64.move s p) ->
   exact_frame s -> exact_frame (B64.move s p) ->
   val_point (B64.pivot (B64.move s p)) = val_point p /\
   val (B64.getArea (B64.move s p)) = val (B64.getArea s) /\
   val (B64.width (B64.getFrameRect (B64.move s p))) = val (B64.width (B64.getFrameRect s)) /\
   val (B64.height (B64.getFrameRect (B64.move s p))) = val (B64.height (B64.getFrameRect s)) /\
   val (B64.x (B64.pos (B64.getFrameRect (B64.move s p)))) -
     val (B64.x (B64.pos (B64.getFrameRect s)))
   = val (B64.x (B64.pivot (B64.move s p))) - val (B64.x (B64.pivot s)) /\
   val (B64.y (B64.pos (B64.getFrameRect (B64.move s p)))) -
     val (B64.y (B64.pos (B64.getFrameRect s)))
   = val (B64.y (B64.pivot (B64.move s p))) - val (B64.y (B64.pivot s))) /\
  (exact_move_by s dx dy ->
   exact_area s -> exact_area (B64.move_by s dx dy) ->
   exact_frame s -> exact_frame (B64.move_by s dx dy) ->
   val_point (B64.pos (B64.getFrameRect (B64.move_by s dx dy))) =
     {| x := val (B64.x (B64.pos (B64.getFrameRect s))) + val dx;
        y := val (B64.y (B64.pos (B64.getFrameRect s))) + val dy |} /\
   val (B64.getArea (B64.move_by s dx dy)) = val (B64.getArea s)).
Proof.
  intros Hr. apply B64_reachable_sound in Hr.
  assert (Hwf : well_formed (val_shape s)).
  { apply val_well_formed. destruct s; cbn in *; auto. }
  repeat apply conj.
  - destruct s as [r|q|b]; cbn; repeat split.
  - intros Hm [_ Ha] [_ Ha'] [_ Hf] [_ Hf'].
    pose proof (ideal_area_move s p Hm) as Harea.
    destruct Hm as (_ & _ & He).
    pose proof (f_equal pivot He) as Hp. rewrite pivot_move, val_pivot in Hp.
    rewrite He, (frame_move _ _ Hwf), <- Hf in Hf'.
    unfold val_rect in Hf'. injection Hf' as Hw Hh Hx Hy.
    cbn [width height pos x y val_point] in *.
    rewrite Hp, Ha, Ha', Harea, Hw, Hh, Hx, Hy.
    unfold val_point in Hp. injection Hp as Hpx Hpy. rewrite Hpx, Hpy.
    rewrite val_pivot. cbn [val_point x y]. repeat split; lra.
  - intros Hm [_ Ha] [_ Ha'] [_ Hf] [_ Hf'].
    pose proof (ideal_area_move_by s dx dy Hm) as Harea.
    destruct Hm as (_ & _ & _ & He).
    rewrite He, (frame_move_by _ _ _ Hwf), <- Hf in Hf'.
    unfold val_rect in Hf'. injection Hf' as Hw Hh Hx Hy.
    cbn [width height pos x y val_point] in *.
    rewrite Ha, Ha', Harea. split; [|reflexivity].
    apply point_eq; cbn [x y val_point]; assumption.
Qed.

(** Evaluates [Rmin] and [Rmax] of numbers, innermost first. *)
Ltac minmax :=
  repeat match goal with
         | |- context [Rmin ?a ?b] =>
             first [ rewrite (Rmin_left a b) by lra | rewrite (Rmin_right a b) by lra ]
         | |- context [Rmax ?a ?b] =>
             first [ rewrite (Rmax_left a b) by lra | rewrite (Rmax_right a b) by lra ]
         end.

(** The frame of a concrete shape in both readings. *)
Ltac frame_values :=
  b64_normal; cbn [val_shape getFrameRect B64.Polygon.verts B64.Polygon.center
                   B64.Rectangle.side_x B64.Rectangle.side_y B64.Rectangle.center
                   B64.Bubble.radius B64.Bubble.center B64.Bubble.anchor];
  unfold Polygon.getFrameRect, Rectangle.getFrameRect, Bubble.getFrameRect,
    Polygon.vert, frame_of_bounds, val_rect, val_point;
  cbn -[val Rmin Rmax Rmult Rplus Rminus Rdiv IZR];
  val_num; minmax; apply rectangle_eq; cbn [width height pos x y];
  try (apply point_eq; cbn [x y]); lra.

Lemma B64_polygon1_constructed : B64.Polygon.ctor B64.points1 = Ok B64.polygon1.
Proof. reflexivity. Qed.

Lemma B64_small_bubble_constructed :
  B64.Bubble.ctor 2 (B64.mk_point 0 0) (B64.mk_point 1 1) = Ok B64_small_bubble.
Proof. reflexivity. Qed.

Lemma join_6_2 (A1 A2 A3 A4 A5 A6 B1 B2 : Prop) :
  A1 /\ A2 /\ A3 /\ A4 /\ A5 /\ A6 -> B1 /\ B2 ->
  A1 /\ A2 /\ A3 /\ A4 /\ A5 /\ A6 /\ B1 /\ B2.
Proof. tauto. Qed.

(** [Rectangle(5, 6, {1, 2})], the unit square of [main] and a Bubble of
    radius 2, each moved to (3, 4) and by (7, -2). *)
Lemma move_is_translation_witness :
  Forall
    (fun s =>
       val_point (B64.pivot (B64.move s (B64.mk_point 3 4))) = val_point (B64.mk_point 3 4) /\
       val (B64.getArea (B64.move s (B64.mk_point 3 4))) = val (B64.getArea s) /\
       val (B64.width (B64.getFrameRect (B64.move s (B64.mk_point 3 4))))
       = val (B64.width (B64.getFrameRect s)) /\
       val (B64.height (B64.getFrameRect (B64.move s (B64.mk_point 3 4))))
       = val (B64.height (B64.getFrameRect s)) /\
       val (B64.x (B64.pos (B64.getFrameRect (B64.move s (B64.mk_point 3 4)))))
       - val (B64.x (B64.pos (B64.getFrameRect s)))
       = val (B64.x (B64.pivot (B64.move s (B64.mk_point 3 4)))) - val (B64.x (B64.pivot s)) /\
       val (B64.y (B64.pos (B64.getFrameRect (B64.move s (B64.mk_point 3 4)))))
       - val (B64.y (B64.pos (B64.getFrameRect s)))
       = val (B64.y (B64.pivot (B64.move s (B64.mk_point 3 4)))) - val (B64.y (B64.pivot s)) /\
       val_point (B64.pos (B64.getFrameRect (B64.move_by s 7 (-2)))) =
         {| x := val (B64.x (B64.pos (B64.getFrameRect s))) + val 7;
            y := val (B64.y (B64.pos (B64.getFrameRect s))) + val (-2) |} /\
       val (B64.getArea (B64.move_by s 7 (-2))) = val (B64.getArea s))
    [B64.ARectangle B64.rectangle1; B64.APolygon B64.polygon1; B64.ABubble B64_small_bubble].
Proof.
  repeat apply Forall_cons; try apply Forall_nil; cbv beta.
  - destruct (move_is_translation (B64.ARectangle B64.rectangle1) (B64.mk_point 3 4) 7 (-2))
      as (_ & H1 & H2).
    + apply B64.reach_new.
      apply (B64.constructed_rectangle 5 6 (B64.mk_point 1 2)). reflexivity.
    + apply join_6_2; [apply H1 | apply H2];
        (split; [finite_ok|]); try (split; [finite_ok|]); try (split; [finite_ok|]);
        first [ solve [frame_values] | solve [same_values] | solve [b64_normal; on_values; numbers] ].
  - destruct (move_is_translation (B64.APolygon B64.polygon1) (B64.mk_point 3 4) 7 (-2))
      as (_ & H1 & H2).
    + apply B64.reach_new. eapply B64.constructed_polygon, B64_polygon1_constructed.
    + apply join_6_2; [apply H1 | apply H2];
        (split; [finite_ok|]); try (split; [finite_ok|]); try (split; [finite_ok|]);
        first [ solve [frame_values] | solve [same_values] | solve [polygon_area] ].
  - destruct (move_is_translation (B64.ABubble B64_small_bubble) (B64.mk_point 3 4) 7 (-2))
      as (_ & H1 & H2).
    + apply B64.reach_new. eapply B64.constructed_bubble, B64_small_bubble_constructed.
    + apply join_6_2; [apply H1 | apply H2];
        (split; [finite_ok|]); try (split; [finite_ok|]); try (split; [finite_ok|]);
        first [ solve [frame_values] | solve [same_values] | solve [b64_normal; on_values; numbers] ].
Defined.

(** C4 as stated fails.  After [move({0.1, 0.1})] the anchor of the Bubble
    of [main] is at 0.10000000000000009, not at 0.1; the unit square of
    [main] has another area after [move({0.1, 0.1})]; and after
    [move(0.1, 0.1)] the position of its frame is not the old position
    plus 0.1. *)
Lemma move_rounds :
  B64.Bubble.ctor 10 (B64.mk_point 0 0) (B64.mk_point 2 2) = Ok B64.bubble /\
  B64.pivot (B64.move (B64.ABubble B64.bubble) (B64.mk_point 0.1 0.1)) =
    B64.mk_point 0x1.99999999999ap-4 0x1.99999999999ap-4 /\
  (0x1.99999999999ap-4 =? 0.1)%float = false /\
  val 0x1.99999999999ap-4 <> val 0.1 /\
  B64.Polygon.ctor B64.points1 = Ok B64.polygon1 /\
  val (B64.getArea (B64.move (B64.APolygon B64.polygon1) (B64.mk_point 0.1 0.1))) <>
    val (B64.getArea (B64.APolygon B64.polygon1)) /\
  val (B64.x (B64.pos (B64.getFrameRect (B64.move_by (B64.APolygon B64.polygon1) 0.1 0.1)))) <>
    val (B64.x (B64.pos (B64.getFrameRect (B64.APolygon B64.polygon1)))) + val 0.1.
Proof.
  repeat apply conj; try (vm_compute; reflexivity); val_num; lra.
Qed.

(** ** [scaleByPoint] scales about the common pivot *)

Lemma scaleByPoint_body_exact k p s :
  B64.well_formed s ->
  exact_scaleByPoint k p s -> (0 <? k)%float = true ->
  exact_frame s -> exact_frame (B64.scaleByPoint_body k p s) ->
  val_point (B64.pos (B64.getFrameRect (B64.scaleByPoint_body k p s))) =
    scaled_about (val_point p) (val k) (val_point (B64.pos (B64.getFrameRect s))) /\
  val (B64.width (B64.getFrameRect (B64.scaleByPoint_body k p s))) =
    val k * val (B64.width (B64.getFrameRect s)) /\
  val (B64.height (B64.getFrameRect (B64.scaleByPoint_body k p s))) =
    val k * val (B64.height (B64.getFrameRect s)) /\
  val_point (B64.pivot (B64.scaleByPoint_body k p s)) =
    scaled_about (val_point p) (val k) (val_point (B64.pivot s)).
Proof.
  intros Hwf (Hk & _ & _ & He) Hpos [_ Hf] [_ Hf'].
  apply val_well_formed in Hwf.
  pose proof (finite_pos_val k Hk Hpos) as Hk0.
  destruct (scaleByPoint_body_spec (val_shape s) (val k) (val_point p) Hwf)
    as (H1 & H2 & H3 & H4); [lra|].
  rewrite <- He, <- Hf' in H1, H2, H3. rewrite <- He in H4. rewrite <- Hf in H1, H2, H3.
  rewrite !val_pivot in H4. cbn [val_rect width height pos] in *. auto.
Qed.

(** C1, as the code has it.  For every non-empty collection of shapes, each built by
    its constructor and changed by any operations, every [k > 0] and every
    point [p], [scaleByPoint(shapes, count, k, p)] returns without
    exception, and of each shape of the collection:
    - a Rectangle with sides [a], [b] and center [c] has afterwards the
      sides [a * k], [b * k] and the center [p + k * (c - p)] in double
      arithmetic;
    - if the body of the loop and the calls of [getFrameRect()] before and
      after return the exact results, the position of the frame is
      [p + k * (old position - p)], width and height of the frame are
      multiplied by [k], and the shape's reference point (center of a
      Rectangle or Polygon, anchor of a Bubble) is
      [p + k * (old reference point - p)]. *)
Theorem scaleByPoint_scales_about_pivot
        (shapes : list B64.Shape) (k : float) (p : B64.point_t) :
  shapes <> [] ->
  Forall (B64.reachable B64.any_factor) shapes ->
  (0 <? k)%float = true ->
  exists shapes',
    B64.scaleByPoint shapes k p = (shapes', None) /\
    Forall2
      (fun s s' =>
         match s with
         | B64.ARectangle r =>
             s' = B64.ARectangle
                    {| B64.Rectangle.side_x := (B64.Rectangle.side_x r * k)%float;
                       B64.Rectangle.side_y := (B64.Rectangle.side_y r * k)%float;
                       B64.Rectangle.center :=
                         {| B64.x := (B64.x p + k * (B64.x (B64.Rectangle.center r) - B64.x p))%float;
                            B64.y := (B64.y p + k * (B64.y (B64.Rectangle.center r) - B64.y p))%float |} |}
         | _ => True
         end /\
         (exact_scaleByPoint k p s -> exact_frame s -> exact_frame s' ->
          val_point (B64.pos (B64.getFrameRect s')) =
            scaled_about (val_point p) (val k) (val_point (B64.pos (B64.getFrameRect s))) /\
          val (B64.width (B64.getFrameRect s')) = val k * val (B64.width (B64.getFrameRect s)) /\
          val (B64.height (B64.getFrameRect s')) = val k * val (B64.height (B64.getFrameRect s)) /\
          val_point (B64.pivot s') =
            scaled_about (val_point p) (val k) (val_point (B64.pivot s))))
      shapes shapes'.
Proof.
  intros _ Hall Hk. exists (map (B64.scaleByPoint_body k p) shapes). split.
  - unfold B64.scaleByPoint. now rewrite (pos_not_le k Hk).
  - induction Hall as [|s shapes Hs _ IH]; cbn [map]; constructor; [|exact IH].
    apply B64_reachable_sound in Hs. split.
    + destruct s; auto.
    + intros He Hf Hf'. apply scaleByPoint_body_exact; auto.
      destruct s; cbn in *; auto.
Qed.

Lemma B64_rectangle1_constructed :
  B64.Rectangle.ctor 5 6 (B64.mk_point 1 2) = Ok B64.rectangle1.
Proof. reflexivity. Qed.

Lemma B64_rectangle2_constructed :
  B64.Rectangle.ctor 10 2 (B64.mk_point (-10) 3) = Ok B64.rectangle2.
Proof. reflexivity. Qed.

Lemma B64_polygon2_constructed : B64.Polygon.ctor B64.points2 = Ok B64.polygon2.
Proof. reflexivity. Qed.

Lemma B64_main_shapes_reachable allowed : Forall (B64.reachable allowed) B64.main_shapes.
Proof.
  repeat apply Forall_cons; try apply Forall_nil; apply B64.reach_new.
  - eapply B64.constructed_rectangle, B64_rectangle1_constructed.
  - eapply B64.constructed_rectangle, B64_rectangle2_constructed.
  - eapply B64.constructed_polygon, B64_polygon1_constructed.
  - eapply B64.constructed_polygon, B64_polygon2_constructed.
  - eapply B64.constructed_bubble, B64_bubble_constructed.
Qed.

(** [scaleByPoint_body] in the exact reading, on a concrete shape. *)
Ltac body_values :=
  rewrite scaleByPoint_body_scaled by (cbn; unfold Polygon.count; cbn; lia);
  same_values.

(** Rectangle 1, Polygon 1 and the Bubble of [main], scaled by 2 about
    (1, 1). *)
Lemma scaleByPoint_scales_about_pivot_witness :
  exists shapes',
    B64.scaleByPoint B64_exact_shapes 2 (B64.mk_point 1 1) = (shapes', None) /\
    Forall2
      (fun s s' =>
          val_point (B64.pos (B64.getFrameRect s')) =
            scaled_about (val_point (B64.mk_point 1 1)) (val 2)
                         (val_point (B64.pos (B64.getFrameRect s))) /\
          val (B64.width (B64.getFrameRect s')) = val 2 * val (B64.width (B64.getFrameRect s)) /\
          val (B64.height (B64.getFrameRect s')) = val 2 * val (B64.height (B64.getFrameRect s)) /\
          val_point (B64.pivot s') =
            scaled_about (val_point (B64.mk_point 1 1)) (val 2) (val_point (B64.pivot s)))
      B64_exact_shapes shapes'.
Proof.
  destruct (scaleByPoint_scales_about_pivot B64_exact_shapes 2 (B64.mk_point 1 1))
    as (shapes' & Hrun & Hall).
  - discriminate.
  - repeat apply Forall_cons; try apply Forall_nil; apply B64.reach_new.
    + eapply B64.constructed_rectangle, B64_rectangle1_constructed.
    + eapply B64.constructed_polygon, B64_polygon1_constructed.
    + eapply B64.constructed_bubble, B64_bubble_constructed.
  - reflexivity.
  - exists shapes'. split; [exact Hrun|].
    vm_compute in Hrun. injection Hrun as <-.
    inversion Hall as [|s1 s1' l1 l1' [_ H1] Hall1]; subst.
    inversion Hall1 as [|s2 s2' l2 l2' [_ H2] Hall2]; subst.
    inversion Hall2 as [|s3 s3' l3 l3' [_ H3] Hall3]; subst.
    constructor; [|constructor; [|constructor; [|constructor]]].
    + apply H1.
      * split; [finite_ok|]. split; [finite_ok|]. split; [finite_ok|]. body_values.
      * split; [finite_ok|]. frame_values.
      * split; [finite_ok|]. frame_values.
    + apply H2.
      * split; [finite_ok|]. split; [finite_ok|]. split; [finite_ok|]. body_values.
      * split; [finite_ok|]. frame_values.
      * split; [finite_ok|]. frame_values.
    + apply H3.
      * split; [finite_ok|]. split; [finite_ok|]. split; [finite_ok|]. body_values.
      * split; [finite_ok|]. frame_values.
      * split; [finite_ok|]. frame_values.
Defined.

(** C1 as stated fails.  Scaled by 2 about (1e17, 0), the unit square of
    [main] has a frame of width 0, not 2.  With [k = 0.1] and
    [p = (0.3, 0.7)], the shapes of [main] end with Rectangle 1 at another
    position than [p + k * (old position - p)], Polygon 1 with another
    width than [k] times the old one, and the anchor of the Bubble elsewhere
    than at [p + k * (old anchor - p)]. *)
Lemma scaleByPoint_rounds :
  Forall (B64.reachable B64.any_factor) B64.main_shapes /\
  (0 <? 2)%float = true /\ (0 <? 0.1)%float = true /\
  (exists s',
      B64.scaleByPoint [B64.APolygon B64.polygon1] 2 (B64.mk_point 1e17 0) = ([s'], None) /\
      val (B64.width (B64.getFrameRect s')) = 0 /\
      val 2 * val (B64.width (B64.getFrameRect (B64.APolygon B64.polygon1))) = 2) /\
  (exists r1 r2 p1 p2 b,
      B64.scaleByPoint B64.main_shapes 0.1 (B64.mk_point 0.3 0.7) = ([r1; r2; p1; p2; b], None) /\
      val (B64.x (B64.pos (B64.getFrameRect r1))) <>
        val 0.3 + val 0.1 * (val (B64.x (B64.pos (B64.getFrameRect (B64.ARectangle B64.rectangle1)))) - val 0.3) /\
      val (B64.width (B64.getFrameRect p1)) <>
        val 0.1 * val (B64.width (B64.getFrameRect (B64.APolygon B64.polygon1))) /\
      val (B64.x (B64.pivot b)) <>
        val 0.3 + val 0.1 * (val (B64.x (B64.pivot (B64.ABubble B64.bubble))) - val 0.3)).
Proof.
  split; [apply B64_main_shapes_reachable|]. split; [reflexivity|]. split; [reflexivity|].
  split.
  - eexists. split; [vm_compute; reflexivity|]. split; val_num; lra.
  - do 5 eexists. split; [vm_compute; reflexivity|]. repeat split; val_num; lra.
Qed.

(** ** The total frame *)

(** C8, as the code has it.  For every non-empty collection of shapes
    [getTotalFrameRect] returns a frame; if the frame of no shape has a
    negative width or height, and all frames and the total frame are the
    exact results, the total frame encloses the frame of every shape and
    is enclosed by every box that does: it is the least such box, its
    position the center of the box.  For [Rectangle(5, 6, {1, 2})] and
    [Rectangle(10, 2, {-10, 3})] it is [{18.5, 6, (-5.75, 2)}], computed
    exactly, with edges at -15, 3.5, -1 and 5, and it encloses both
    rectangles; for the five shapes of [main] it is [{25, 20, (-2.5, 0)}],
    computed exactly from exact frames.  For the empty collection the function has no defined
    result: it reads [shapes[0]] unconditionally. *)
Theorem getTotalFrameRect_least_box :
  (forall shapes,
      shapes <> [] ->
      exists f,
        B64.getTotalFrameRect shapes = Some f /\
        (exact_total shapes f ->
         Forall (fun s => exact_frame s /\
                          0 <= val (B64.width (B64.getFrameRect s)) /\
                          0 <= val (B64.height (B64.getFrameRect s))) shapes ->
         (forall s, In s shapes -> encloses (val_rect f) (val_rect (B64.getFrameRect s))) /\
         (forall g, (forall s, In s shapes -> encloses g (val_rect (B64.getFrameRect s))) ->
                    encloses g (val_rect f)))) /\
  (exists f,
      B64.getTotalFrameRect [B64.ARectangle B64.rectangle1; B64.ARectangle B64.rectangle2]
      = Some f /\
      f = {| B64.width := 18.5; B64.height := 6; B64.pos := B64.mk_point (-5.75) 2 |} /\
      left_edge (val_rect f) = -15 /\ right_edge (val_rect f) = 3.5 /\
      bottom_edge (val_rect f) = -1 /\ top_edge (val_rect f) = 5 /\
      exact_total [B64.ARectangle B64.rectangle1; B64.ARectangle B64.rectangle2] f /\
      encloses (val_rect f) (val_rect (B64.getFrameRect (B64.ARectangle B64.rectangle1))) /\
      encloses (val_rect f) (val_rect (B64.getFrameRect (B64.ARectangle B64.rectangle2)))) /\
  (exists f,
      B64.getTotalFrameRect B64.main_shapes = Some f /\
      f = {| B64.width := 25; B64.height := 20; B64.pos := B64.mk_point (-2.5) 0 |} /\
      exact_total B64.main_shapes f /\ Forall exact_frame B64.main_shapes) /\
  B64.getTotalFrameRect [] = None.
Proof.
  split; [|split; [|split; [|reflexivity]]].
  - intros [|shape0 rest] Hne; [congruence|]. eexists. split; [reflexivity|].
    intros [_ Htotal] Hall.
    assert (Hframe : forall s, In s (shape0 :: rest) ->
                               getFrameRect (val_shape s) = val_rect (B64.getFrameRect s)).
    { intros s Hs. rewrite Forall_forall in Hall. destruct (Hall s Hs) as [[_ H] _]. now rewrite H. }
    split.
    + intros s Hs. rewrite <- (Hframe s Hs).
      apply (total_frame_encloses _ _ _ Htotal). now apply in_map.
    + intros g Hg. apply (total_frame_least _ _ _ Htotal).
      intros s' Hs'. apply in_map_iff in Hs' as (s & <- & Hs).
      rewrite (Hframe s Hs). now apply Hg.
  - eexists. split; [vm_compute; reflexivity|]. split; [reflexivity|].
    unfold encloses, exact_total, left_edge, right_edge, bottom_edge, top_edge.
    assert (Hr1 : val_shape (B64.ARectangle B64.rectangle1) = ARectangle rectangle1)
      by (unfold rectangle1; same_values).
    assert (Hr2 : val_shape (B64.ARectangle B64.rectangle2) = ARectangle rectangle2)
      by (unfold rectangle2; same_values).
    repeat apply conj; try finite_ok;
      try (b64_normal; unfold val_rect, val_point;
           cbn [width height pos x y B64.width B64.height B64.pos B64.x B64.y];
           val_num; lra).
    cbn [map]. rewrite Hr1, Hr2, getTotalFrameRect_main. f_equal.
    unfold val_rect, val_point. cbn [B64.width B64.height B64.pos B64.x B64.y].
    apply rectangle_eq; cbn [width height pos x y]; val_num; lra.
  - eexists. split; [vm_compute; reflexivity|]. split; [reflexivity|]. split.
    + split; [finite_ok|].
      unfold getTotalFrameRect. b64_normal. cbn [map val_shape].
      cbn [getFrameRect B64.Polygon.verts B64.Polygon.center
           B64.Rectangle.side_x B64.Rectangle.side_y B64.Rectangle.center
           B64.Bubble.radius B64.Bubble.center B64.Bubble.anchor].
      unfold Polygon.getFrameRect, Rectangle.getFrameRect, Bubble.getFrameRect,
        Polygon.vert, frame_of_bounds, total_step, val_rect, val_point.
      cbn -[val Rmin Rmax Rmult Rplus Rminus Rdiv IZR].
      val_num. minmax. f_equal. apply rectangle_eq; cbn [width height pos x y];
        try (apply point_eq; cbn [x y]); lra.
    + repeat apply Forall_cons; try apply Forall_nil; (split; [finite_ok|]); frame_values.
Qed.

(** C8 as stated fails.  The total frame of the single
    [Rectangle(0.1, 0.3, {0.3, 0.7})] is narrower and lower than the frame
    of that rectangle and does not enclose it; the total frame of the single
    [Rectangle(1, 1, {2^53, 0})] has width 0. *)
Lemma getTotalFrameRect_rounds :
  B64.Rectangle.ctor 0.1 0.3 (B64.mk_point 0.3 0.7) =
    Ok (B64.Rectangle.mk 0.1 0.3 (B64.mk_point 0.3 0.7)) /\
  (exists f,
      B64.getTotalFrameRect [B64.ARectangle (B64.Rectangle.mk 0.1 0.3 (B64.mk_point 0.3 0.7))]
      = Some f /\
      val (B64.width f) < val 0.1 /\ val (B64.height f) < val 0.3 /\
      ~ encloses (val_rect f)
          (val_rect (B64.getFrameRect
                       (B64.ARectangle (B64.Rectangle.mk 0.1 0.3 (B64.mk_point 0.3 0.7)))))) /\
  B64.Rectangle.ctor 1 1 (B64.mk_point 0x1p+53 0) =
    Ok (B64.Rectangle.mk 1 1 (B64.mk_point 0x1p+53 0)) /\
  (exists f,
      B64.getTotalFrameRect [B64.ARectangle (B64.Rectangle.mk 1 1 (B64.mk_point 0x1p+53 0))]
      = Some f /\
      val (B64.width f) = 0 /\
      ~ encloses (val_rect f)
          (val_rect (B64.getFrameRect
                       (B64.ARectangle (B64.Rectangle.mk 1 1 (B64.mk_point 0x1p+53 0)))))).
Proof.
  repeat apply conj; try reflexivity;
    (eexists; split; [vm_compute; reflexivity|]);
    unfold encloses, left_edge, right_edge, bottom_edge, top_edge;
    b64_normal; unfold val_rect, val_point;
    cbn [width height pos x y B64.width B64.height B64.pos B64.x B64.y];
    repeat split; val_num; lra.
Qed.

(** ** The validity of a Bubble *)

(** C10, as the code has it.  For every Bubble built by its constructor and changed by
    any sequence of [move(p)], [move(dx, dy)] and [scale(k)] with [k > 0],
    the radius is never negative ([>= 0], or NaN); and if the constructor's
    conditions held of the exact values and every operation of the sequence
    returned the exact result, the conditions of the constructor still
    hold: the squared distance of center and anchor is at most the square
    of the radius, the center differs from the anchor, and the radius is
    positive. *)
Theorem Bubble_validity_invariant (b : B64.Bubble.t) :
  B64.reachable B64.positive_factor (B64.ABubble b) ->
  nonneg_or_nan (B64.Bubble.radius b) /\
  (exact_run positive_factor (B64.ABubble b) ->
   dist2 (val_point (B64.Bubble.center b)) (val_point (B64.Bubble.anchor b))
     <= val (B64.Bubble.radius b) * val (B64.Bubble.radius b) /\
   val_point (B64.Bubble.center b) <> val_point (B64.Bubble.anchor b) /\
   0 < val (B64.Bubble.radius b)).
Proof.
  intros H. split.
  - apply nonneg_or_nan_iff. exact (B64_reachable_positive _ H).
  - intros He. apply exact_run_reachable in He as [He _].
    exact (reachable_valid _ He).
Qed.

Lemma B64_bubble_exactly_constructed :
  constructed (val_shape (B64.ABubble B64.bubble)).
Proof.
  eapply constructed_bubble. cbn [val_shape].
  apply Bubble_ctor_ok.
  - unfold dist2, val_point. cbn [x y B64.x B64.y B64.Bubble.center B64.Bubble.anchor
                                  B64.Bubble.radius B64.bubble]. val_num. lra.
  - apply point_neq. left. unfold val_point.
    cbn [x y B64.x B64.y B64.Bubble.center B64.Bubble.anchor B64.bubble]. val_num. lra.
  - cbn [B64.Bubble.radius B64.bubble]. val_num. lra.
Qed.

(** The Bubble of [main], moved to (1, 1), then by (3, -1), then scaled by
    2. *)
Lemma Bubble_validity_invariant_witness :
  let b := B64.Bubble.scale
             (B64.Bubble.move_by (B64.Bubble.move B64.bubble (B64.mk_point 1 1)) 3 (-1)) 2 in
  nonneg_or_nan (B64.Bubble.radius b) /\
  dist2 (val_point (B64.Bubble.center b)) (val_point (B64.Bubble.anchor b))
    <= val (B64.Bubble.radius b) * val (B64.Bubble.radius b) /\
  val_point (B64.Bubble.center b) <> val_point (B64.Bubble.anchor b) /\
  0 < val (B64.Bubble.radius b).
Proof.
  intros b.
  assert (Hnew : B64.constructed (B64.ABubble B64.bubble))
    by (eapply B64.constructed_bubble, B64_bubble_constructed).
  set (s1 := B64.move (B64.ABubble B64.bubble) (B64.mk_point 1 1)).
  set (s2 := B64.move_by s1 3 (-1)).
  destruct (Bubble_validity_invariant b) as [H1 H2].
  - apply (B64.reach_scale _ s2); [reflexivity|].
    apply B64.reach_move_by, B64.reach_move, B64.reach_new, Hnew.
  - split; [exact H1|]. apply H2.
    apply (exact_after_scale _ s2 2).
    + apply exact_after_move_by.
      * apply exact_after_move.
        -- apply exact_new; [exact Hnew | finite_ok | exact B64_bubble_exactly_constructed].
        -- split; [finite_ok|]. split; [finite_ok|]. same_values.
      * split; [finite_ok|]. split; [finite_ok|]. split; [finite_ok|].
        unfold s2, s1. same_values.
    + unfold positive_factor. val_num. lra.
    + split; [finite_ok|]. split; [finite_ok|]. unfold s2, s1. same_values.
Defined.

(** C10 as stated fails, with positive factors only.  After [scale(1e-17)]
    the center of the Bubble of [main] equals its anchor; after
    [scale(1e-200)] twice its radius is 0; and after [scale(1.1)] of
    [Bubble(5, {0,0}, {3,4})], whose anchor is on the boundary, the squared
    distance of center and anchor is greater than the square of the
    radius. *)
Lemma Bubble_validity_lost :
  B64.Bubble.ctor 10 (B64.mk_point 0 0) (B64.mk_point 2 2) = Ok B64.bubble /\
  (0 <? 1e-17)%float = true /\
  B64.same_point (B64.Bubble.center (B64.Bubble.scale B64.bubble 1e-17))
                 (B64.Bubble.anchor (B64.Bubble.scale B64.bubble 1e-17)) = true /\
  B64.Bubble.center (B64.Bubble.scale B64.bubble 1e-17) =
    B64.Bubble.anchor (B64.Bubble.scale B64.bubble 1e-17) /\
  (0 <? 1e-200)%float = true /\
  B64.Bubble.radius (B64.Bubble.scale (B64.Bubble.scale B64.bubble 1e-200) 1e-200) = 0%float /\
  B64.Bubble.ctor 5 (B64.mk_point 0 0) (B64.mk_point 3 4) =
    Ok (B64.Bubble.mk 5 (B64.mk_point 0 0) (B64.mk_point 3 4)) /\
  (0 <? 1.1)%float = true /\
  B64.gtb (B64.dist2 (B64.Bubble.center (B64.Bubble.scale (B64.Bubble.mk 5 (B64.mk_point 0 0) (B64.mk_point 3 4)) 1.1))
                     (B64.Bubble.anchor (B64.Bubble.scale (B64.Bubble.mk 5 (B64.mk_point 0 0) (B64.mk_point 3 4)) 1.1)))
          (B64.Bubble.radius (B64.Bubble.scale (B64.Bubble.mk 5 (B64.mk_point 0 0) (B64.mk_point 3 4)) 1.1) *
           B64.Bubble.radius (B64.Bubble.scale (B64.Bubble.mk 5 (B64.mk_point 0 0) (B64.mk_point 3 4)) 1.1))
    = true.
Proof. repeat apply conj; vm_compute; reflexivity. Qed.

(** ** A Polygon under any factor *)

(** X30. After [scale(k)] with any factor, negative or zero ones and NaN
    included, the frame of a Polygon has no negative width and no negative
    height: each is [>= 0], or NaN. *)
Theorem Polygon_scale_frame_any_factor (p : B64.Polygon.t) (k : float) :
  nonneg_or_nan (B64.width (B64.Polygon.getFrameRect (B64.Polygon.scale p k))) /\
  nonneg_or_nan (B64.height (B64.Polygon.getFrameRect (B64.Polygon.scale p k))).
Proof. apply Polygon_frame_never_negative. Qed.
